(** * Team X-Ray: a shallow embedding of the evaluation tasks, the report
    generator and the path sanitizer, with the properties its specification
    states about them.

    Layout: the JavaScript runtime pieces the code relies on ([JS]), Node's
    [path] module in its POSIX flavour ([NodePath]), then one module per
    source file ([StarterEval], [RealAnalysisEval], [ReportGenerator],
    [Validator]); the lemmas and theorems follow the definitions. *)

From Stdlib Require Import ZArith QArith Qround Qpower List String Ascii Bool Lia.
From Stdlib Require Import Permutation Sorted DecimalString.
From Stdlib Require PrimFloat Uint63 SpecFloat FloatOps.
Import ListNotations.

Set Implicit Arguments.

(* ================================================================== *)
(** * JavaScript runtime *)
(* ================================================================== *)

Module JS.

(** ** Completions

    A call either returns a value or throws.  An error object is kept as its
    [name] and [message], the two properties the code reads. *)

Record error := mkError { err_name : string; err_message : string }.

Inductive completion (A : Type) : Type :=
| Return (a : A)
| Throw (e : error).
Arguments Return {A} a.
Arguments Throw {A} e.

(** Reading a property of [undefined] is a [TypeError]. *)
Definition TypeError_undefined (prop : string) : error :=
  mkError "TypeError"
          ("Cannot read properties of undefined (reading '" ++ prop ++ "')").

(** [new Error(msg)]. *)
Definition Error (msg : string) : error := mkError "Error" msg.

(** ** Numbers

    A JavaScript number is a double: a finite value, given by the rational
    it stands for, or one of [NaN], [Infinity], [-Infinity]; finite values
    are kept in lowest terms so that equal numbers are equal terms.  The
    arithmetic operations give the exact result rounded to the nearest
    double, a tie going to the even one ([round64]), as IEEE 754 has them.
    The sign of zero is left out. *)

Inductive number : Type :=
| Num (q : Q)
| NaN
| Infinity
| NegInfinity.

(** The number that holds the integer [z]; the integers up to [2^53] are
    doubles. *)
Definition of_Z (z : Z) : number := Num (inject_Z z).
Definition of_nat (n : nat) : number := of_Z (Z.of_nat n).

Definition Qsign (q : Q) : comparison := (Qnum q ?= 0)%Z.

(** [floor (log2 q)] for a positive [q]. *)
Definition Qlog2 (q : Q) : Z :=
  let k := (Z.log2 (Qnum q) - Z.log2 (Zpos (Qden q)))%Z in
  if Qle_bool (2 ^ k) q then k else (k - 1)%Z.

(** The nearest integer, a half going to the even one. *)
Definition rne (q : Q) : Z :=
  let f := Qfloor q in
  match ((q - inject_Z f) ?= (1 # 2))%Q with
  | Lt => f
  | Gt => (f + 1)%Z
  | Eq => if Z.even f then f else (f + 1)%Z
  end.

(** A positive [q] rounded to 53 significant bits, the last of them worth
    no less than [2^-1074]. *)
Definition nearest (q : Q) : Q :=
  let e := Z.max (Qlog2 q - 52) (-1074) in
  inject_Z (rne (q / 2 ^ e)) * 2 ^ e.

(** The double nearest to [q]; from [2^1024] on the rounded value is
    [Infinity]. *)
Definition round64 (q : Q) : number :=
  let q := Qred q in
  match Qsign q with
  | Eq => Num 0
  | Gt => let v := nearest q in
          if Qle_bool (2 ^ 1024) v then Infinity else Num (Qred v)
  | Lt => let v := nearest (- q) in
          if Qle_bool (2 ^ 1024) v then NegInfinity else Num (Qred (- v))
  end.

(** [x / y] *)
Definition div (x y : number) : number :=
  match x, y with
  | NaN, _ | _, NaN => NaN
  | Num a, Num b =>
      match Qsign b with
      | Eq => match Qsign a with Eq => NaN | Gt => Infinity | Lt => NegInfinity end
      | _ => round64 (a / b)
      end
  | Num _, (Infinity | NegInfinity) => Num 0
  | (Infinity | NegInfinity), (Infinity | NegInfinity) => NaN
  | Infinity, Num b => match Qsign b with Lt => NegInfinity | _ => Infinity end
  | NegInfinity, Num b => match Qsign b with Lt => Infinity | _ => NegInfinity end
  end.

(** [x * y] *)
Definition mul (x y : number) : number :=
  match x, y with
  | NaN, _ | _, NaN => NaN
  | Num a, Num b => round64 (a * b)
  | Num a, Infinity | Infinity, Num a =>
      match Qsign a with Eq => NaN | Gt => Infinity | Lt => NegInfinity end
  | Num a, NegInfinity | NegInfinity, Num a =>
      match Qsign a with Eq => NaN | Gt => NegInfinity | Lt => Infinity end
  | Infinity, Infinity | NegInfinity, NegInfinity => Infinity
  | Infinity, NegInfinity | NegInfinity, Infinity => NegInfinity
  end.

(** [x + y] *)
Definition add (x y : number) : number :=
  match x, y with
  | NaN, _ | _, NaN => NaN
  | Num a, Num b => round64 (a + b)
  | Infinity, NegInfinity | NegInfinity, Infinity => NaN
  | Infinity, _ | _, Infinity => Infinity
  | NegInfinity, _ | _, NegInfinity => NegInfinity
  end.

(** [x < y]; every comparison with [NaN] is false. *)
Definition lt (x y : number) : bool :=
  match x, y with
  | NaN, _ | _, NaN => false
  | Num a, Num b => match a ?= b with Lt => true | _ => false end
  | NegInfinity, (Num _ | Infinity) => true
  | Num _, Infinity => true
  | _, _ => false
  end.

(** [x > y] *)
Definition gt (x y : number) : bool := lt y x.

(** [x <= y] *)
Definition le (x y : number) : bool :=
  match x, y with
  | NaN, _ | _, NaN => false
  | Num a, Num b => match a ?= b with Gt => false | _ => true end
  | NegInfinity, _ => true
  | _, Infinity => true
  | _, _ => false
  end.

(** [Math.round]: the nearest integer, halves going up. *)
Definition Math_round (x : number) : number :=
  match x with
  | Num a => of_Z (Qfloor (a + (1 # 2)))
  | other => other
  end.

(** ** Strings *)

Local Open Scope string_scope.

Definition lower_char (c : ascii) : ascii :=
  let n := nat_of_ascii c in
  if ((65 <=? n) && (n <=? 90))%nat then ascii_of_nat (n + 32) else c.

(** [s.toLowerCase()] on the ASCII range. *)
Fixpoint toLowerCase (s : string) : string :=
  match s with
  | EmptyString => EmptyString
  | String c s' => String (lower_char c) (toLowerCase s')
  end.

(** [s.startsWith(p)] *)
Definition startsWith (s p : string) : bool := String.prefix p s.

(** [s.includes(k)]: [k] starts at some position of [s]. *)
Fixpoint includes (s k : string) : bool :=
  startsWith s k ||
  match s with
  | EmptyString => false
  | String _ s' => includes s' k
  end.

(** [s.endsWith(p)] *)
Fixpoint endsWith (s p : string) : bool :=
  String.eqb s p ||
  match s with
  | EmptyString => false
  | String _ s' => endsWith s' p
  end.

(** [parts.join(sep)] *)
Definition join (sep : string) (parts : list string) : string :=
  String.concat sep parts.

(** ** Arrays *)

Section Sort.
Variable A : Type.
Variable comparefn : A -> A -> Z.

(** [insert x l] puts [x], which stood before every element of [l], in front
    of the first element it does not have to follow. *)
Fixpoint insert (x : A) (l : list A) : list A :=
  match l with
  | [] => [x]
  | y :: l' => if (comparefn x y <=? 0)%Z then x :: y :: l' else y :: insert x l'
  end.

(** [Array.prototype.sort(comparefn)]: a stable sort; an element goes before
    another when [comparefn] is negative, and elements that compare as equal
    keep their order.  Here as an insertion sort, to be related below to the
    language's contract by [sort_contract]. *)
Definition sort (l : list A) : list A := fold_right insert [] l.

(** What the language promises of the sorted array: the same elements, in
    an order [comparefn] agrees with, equal elements in their old order. *)
Record sort_contract (l l' : list A) : Prop := {
  sc_perm : Permutation l l';
  sc_sorted : StronglySorted (fun a b => (comparefn a b <= 0)%Z) l';
  sc_stable : forall x,
      filter (fun y => (comparefn x y =? 0)%Z) l'
      = filter (fun y => (comparefn x y =? 0)%Z) l
}.

End Sort.

(** Every comparator of the code has the shape [(a, b) => key b - key a]. *)
Definition desc {A} (key : A -> Z) (a b : A) : Z := (key b - key a)%Z.

(** [top] is the first element of [l] with the largest key. *)
Definition first_max {A} (key : A -> Z) (l : list A) (top : A) : Prop :=
  exists pre post,
    l = (pre ++ top :: post)%list /\
    (forall y, In y pre -> (key y < key top)%Z) /\
    (forall y, In y post -> (key y <= key top)%Z).

(** [xs.some(p)] and [xs.filter(p)] are [existsb] and [filter]. *)
Definition some {A} (p : A -> bool) (xs : list A) : bool := existsb p xs.

(** A [Set] of strings keeps its members in insertion order; [add] of a
    member is a no-op. *)
Definition StringSet := list string.

Definition set_has (s : StringSet) (x : string) : bool :=
  existsb (String.eqb x) s.

Definition set_add (s : StringSet) (x : string) : StringSet :=
  if set_has s x then s else (s ++ [x])%list.

(** ** More on strings *)

(** Every character of [s] passes [p]. *)
Fixpoint all_chars (p : ascii -> bool) (s : string) : bool :=
  match s with
  | EmptyString => true
  | String c s' => p c && all_chars p s'
  end.

(** [s.split(sep)] for a one-character separator, with [cur] the piece
    being read. *)
Fixpoint split_on (sep : ascii) (cur s : string) : list string :=
  match s with
  | EmptyString => [cur]
  | String c s' =>
      if Ascii.eqb c sep then cur :: split_on sep EmptyString s'
      else split_on sep (cur ++ String c EmptyString) s'
  end.

(** White space and line terminators, in the ASCII range. *)
Definition is_space (c : ascii) : bool :=
  let n := nat_of_ascii c in
  ((n =? 9) || (n =? 10) || (n =? 11) || (n =? 12) || (n =? 13) || (n =? 32))%nat.

Fixpoint trimStart (s : string) : string :=
  match s with
  | EmptyString => EmptyString
  | String c s' => if is_space c then trimStart s' else s
  end.

Fixpoint trimEnd (s : string) : string :=
  match s with
  | EmptyString => EmptyString
  | String c s' =>
      let t := trimEnd s' in
      if is_space c && String.eqb t EmptyString then EmptyString else String c t
  end.

(** [s.trim()] *)
Definition trim (s : string) : string := trimEnd (trimStart s).

(** [s.replace(/[...]/g, '')] for a character class: the characters of the
    class are dropped. *)
Fixpoint remove_chars (class : ascii -> bool) (s : string) : string :=
  match s with
  | EmptyString => EmptyString
  | String c s' =>
      if class c then remove_chars class s' else String c (remove_chars class s')
  end.

End JS.

Import JS.
Local Open Scope string_scope.

(** Decimal rendering of an integer, as template literals print it. *)
Definition show_Z (z : Z) : string := DecimalString.NilZero.string_of_int (Z.to_int z).
Definition show_nat (n : nat) : string := show_Z (Z.of_nat n).

(* ================================================================== *)
(** * Regular expressions *)
(* ================================================================== *)

(** The patterns of the code use character classes, sequence, alternation
    and repetition only, so [test] is membership in a regular language.  It
    is run by derivatives; [Matches] says what a pattern means. *)

Module RegExp.

Inductive re : Type :=
| Never
| Eps
| Class (p : ascii -> bool)
| Cat (r1 r2 : re)
| Alt (r1 r2 : re)
| Star (r : re).

(** [r+], [r?], [r{2,}], any character, one character, literal text. *)
Definition Plus (r : re) : re := Cat r (Star r).
Definition Opt (r : re) : re := Alt Eps r.
Definition AtLeast2 (r : re) : re := Cat r (Cat r (Star r)).
Definition Any : re := Class (fun _ => true).
Definition Char (c : ascii) : re := Class (Ascii.eqb c).

Fixpoint Lit (s : string) : re :=
  match s with
  | EmptyString => Eps
  | String c s' => Cat (Char c) (Lit s')
  end.

(** Literal text under the [i] flag. *)
Fixpoint LitI (s : string) : re :=
  match s with
  | EmptyString => Eps
  | String c s' =>
      Cat (Class (fun d => Ascii.eqb (lower_char d) (lower_char c))) (LitI s')
  end.

Fixpoint nullable (r : re) : bool :=
  match r with
  | Never => false
  | Eps => true
  | Class _ => false
  | Cat r1 r2 => nullable r1 && nullable r2
  | Alt r1 r2 => nullable r1 || nullable r2
  | Star _ => true
  end.

(** What is left of [r] after reading [c]. *)
Fixpoint deriv (c : ascii) (r : re) : re :=
  match r with
  | Never => Never
  | Eps => Never
  | Class p => if p c then Eps else Never
  | Cat r1 r2 =>
      Alt (Cat (deriv c r1) r2) (if nullable r1 then deriv c r2 else Never)
  | Alt r1 r2 => Alt (deriv c r1) (deriv c r2)
  | Star r1 => Cat (deriv c r1) (Star r1)
  end.

Fixpoint matches (r : re) (s : string) : bool :=
  match s with
  | EmptyString => nullable r
  | String c s' => matches (deriv c r) s'
  end.

(** [/^r$/.test(s)] *)
Definition test_whole (r : re) (s : string) : bool := matches r s.

(** [/r/.test(s)]: a match anywhere in [s]. *)
Definition test (r : re) (s : string) : bool :=
  matches (Cat (Star Any) (Cat r (Star Any))) s.

(** The strings a pattern stands for. *)
Inductive Matches : re -> string -> Prop :=
| MEps : Matches Eps EmptyString
| MClass (p : ascii -> bool) (c : ascii) :
    p c = true -> Matches (Class p) (String c EmptyString)
| MCat (r1 r2 : re) (s1 s2 : string) :
    Matches r1 s1 -> Matches r2 s2 -> Matches (Cat r1 r2) (s1 ++ s2)
| MAltL (r1 r2 : re) (s : string) : Matches r1 s -> Matches (Alt r1 r2) s
| MAltR (r1 r2 : re) (s : string) : Matches r2 s -> Matches (Alt r1 r2) s
| MStarNil (r : re) : Matches (Star r) EmptyString
| MStarApp (r : re) (s1 s2 : string) :
    Matches r s1 -> Matches (Star r) s2 -> Matches (Star r) (s1 ++ s2).

End RegExp.

(* ================================================================== *)
(** * evals/starter.eval.ts *)
(* ================================================================== *)

Module StarterEval.

(** The tasks are [async]: a [Throw] is the rejection of the promise the
    task returns. *)

(** ** Expert Identification - Basic *)

Record Contributor := { name : string; commits : Z }.

Record ExpertiseScore := { score_name : string; score : number }.

Record ExpertOutput := {
  topExpert : string;
  totalExperts : nat;
  expertiseScores : list ExpertiseScore
}.

(** [(a, b) => b.commits - a.commits] *)
Definition by_commits_desc (a b : Contributor) : Z := commits b - commits a.

(** The task once [sorted] holds the sorted copy of [input.contributors]. *)
Definition task_body (contributors sorted : list Contributor)
  : completion ExpertOutput :=
  match sorted with
  | [] => Throw (TypeError_undefined "name")
  | top :: _ =>
      Return {|
        topExpert := name top;
        totalExperts := List.length contributors;
        expertiseScores :=
          map (fun c => {| score_name := name c;
                           score := mul (div (of_Z (commits c)) (of_Z (commits top)))
                                        (of_Z 100) |})
              sorted
      |}
  end.

(** [task], with the insertion sort standing for [Array.prototype.sort]. *)
Definition task (contributors : list Contributor) : completion ExpertOutput :=
  task_body contributors (sort by_commits_desc contributors).

(** A run of [task] with any sort the language allows. *)
Definition task_run (contributors : list Contributor)
  (out : completion ExpertOutput) : Prop :=
  exists sorted,
    sort_contract by_commits_desc contributors sorted /\
    out = task_body contributors sorted.

(** The first test case of the eval. *)
Definition scenario : list Contributor :=
  [ {| name := "Alice Dev"; commits := 150 |};
    {| name := "Bob Engineer"; commits := 85 |};
    {| name := "Charlie Coder"; commits := 45 |} ].

(** ** Team Collaboration Detection *)

Definition collaborationKeywords : list string :=
  ["review"; "merge"; "pair"; "thanks"; "helped"].

Record CollaborationOutput := {
  hasCollaboration : bool;
  patterns : list string
}.

Definition collaboration_task (commits : list string) : CollaborationOutput :=
  {| hasCollaboration :=
       some (fun msg =>
               some (fun keyword => includes (toLowerCase msg) keyword)
                    collaborationKeywords)
            commits;
     patterns :=
       filter (fun keyword =>
                 some (fun msg => includes (toLowerCase msg) keyword) commits)
              collaborationKeywords |}.

(** ** Scorers *)

Record Expected := { exp_topExpert : string; exp_totalExperts : nat }.

Record Score := { scorer : string; points : number; details : string }.

(** "Top Expert Accuracy" *)
Definition topExpertAccuracy (output : ExpertOutput) (expected : Expected) : Score :=
  let matched := String.eqb (topExpert output) (exp_topExpert expected) in
  {| scorer := "Top Expert Accuracy";
     points := if matched then of_Z 1 else of_Z 0;
     details :=
       if matched
       then "✓ Correctly identified " ++ exp_topExpert expected
       else "✗ Expected " ++ exp_topExpert expected ++ ", got " ++ topExpert output |}.

(** "Expert Count" *)
Definition expertCount (output : ExpertOutput) (expected : Expected) : Score :=
  let matched := Nat.eqb (totalExperts output) (exp_totalExperts expected) in
  {| scorer := "Expert Count";
     points := if matched then of_Z 1 else of_Z 0;
     details :=
       "Found " ++ show_nat (totalExperts output) ++ " experts (expected: "
         ++ show_nat (exp_totalExperts expected) ++ ")" |}.

(** "Collaboration Detection" *)
Definition collaborationDetection (output : CollaborationOutput)
  (expectedHasCollaboration : bool) : Score :=
  let matched := Bool.eqb (hasCollaboration output) expectedHasCollaboration in
  {| scorer := "Collaboration Detection";
     points := if matched then of_Z 1 else of_Z 0;
     details :=
       "Detected patterns: "
         ++ (let joined := join ", " (patterns output) in
             if String.eqb joined EmptyString then "none" else joined) |}.

End StarterEval.

(* ================================================================== *)
(** * evals/real-analysis.eval.ts *)
(* ================================================================== *)

Module RealAnalysisEval.

(** ** AI Expertise Analysis - Quality Check *)

Record Contributor := {
  name : string;
  email : string;
  commits : Z;
  additions : Z;
  deletions : Z
}.

Record Commit := {
  author : string;
  message : string;
  date : string;
  files : list string
}.

Record QualityOutput := {
  topExpert : string;
  totalContributors : nat;
  hasMentoringBehavior : bool;
  specializations : list string;
  humanInsights : list string;
  communicationStyle : string
}.

Definition by_commits_desc (a b : Contributor) : Z := commits b - commits a.

(** The keyword tests of the [forEach] body, in the order it runs them. *)
Definition specializationTable : list (string * string) :=
  [ ("auth", "Authentication");
    ("security", "Security");
    ("react", "React");
    ("typescript", "TypeScript") ].

(** One turn of [commits.forEach]: each test that matches adds its label. *)
Definition detect_commit (specs : StringSet) (commit : Commit) : StringSet :=
  fold_left (fun acc rule =>
               if includes (toLowerCase (message commit)) (fst rule)
               then set_add acc (snd rule) else acc)
            specializationTable specs.

(** [Array.from(specializations)] after the [forEach]. *)
Definition detectSpecializations (commits : list Commit) : list string :=
  fold_left detect_commit commits [].

Definition isMentoring (c : Commit) : bool :=
  includes (toLowerCase (message c)) "review" ||
  includes (toLowerCase (message c)) "helped" ||
  includes (toLowerCase (message c)) "mentoring".

Definition quality_task (contributors : list Contributor) (commitLog : list Commit)
  : completion QualityOutput :=
  let sorted := sort by_commits_desc contributors in
  let mentoringCommits := filter isMentoring commitLog in
  let specializations := detectSpecializations commitLog in
  let insights :=
    match mentoringCommits with
    | m :: _ => [author m ++ " shows mentoring behavior through code reviews and helping teammates"]
    | [] => []
    end in
  match sorted with
  | [] => Throw (TypeError_undefined "name")
  | topExpert :: _ =>
      Return {|
        topExpert := name topExpert;
        totalContributors := List.length contributors;
        hasMentoringBehavior := negb (Nat.eqb (List.length mentoringCommits) 0);
        specializations := specializations;
        humanInsights :=
          insights ++ [name topExpert ++ " demonstrates deep expertise with "
                       ++ show_Z (commits topExpert) ++ " meaningful contributions"];
        communicationStyle :=
          if negb (Nat.eqb (List.length mentoringCommits) 0)
          then "Collaborative and supportive"
          else "Focused individual contributor"
      |}
  end.

(** The commits of the eval's test case, in the order the file lists them. *)
Definition evalCommits : list Commit :=
  [ {| author := "Alice Chen";
       message := "Refactor authentication system with improved security";
       date := "2025-11-20";
       files := ["src/auth/login.ts"; "src/auth/security.ts"] |};
    {| author := "Alice Chen";
       message := "Code review: Helped Bob with async/await patterns";
       date := "2025-11-19";
       files := [] |};
    {| author := "Bob Martinez";
       message := "Add React dashboard components with TypeScript";
       date := "2025-11-18";
       files := ["src/ui/Dashboard.tsx"; "src/ui/Charts.tsx"] |} ].

(** ** File Expert Matching *)

Record FileContributor := {
  fc_name : string;
  fc_commits : Z;
  lastEdit : string
}.

Record FileExpertOutput := {
  filePath : string;
  expertName : string;
  confidence : number;
  totalContributions : Z
}.

Definition by_file_commits_desc (a b : FileContributor) : Z :=
  fc_commits b - fc_commits a.

Definition file_expert_sorted (contributors : list FileContributor)
  : list FileContributor :=
  sort by_file_commits_desc contributors.

Definition file_expert_task (path : string) (contributors : list FileContributor)
  : completion FileExpertOutput :=
  match file_expert_sorted contributors with
  | [] => Throw (TypeError_undefined "commits")
  | [ _ ] => Throw (TypeError_undefined "commits")
  | topContributor :: second :: _ =>
      Return {|
        filePath := path;
        expertName := fc_name topContributor;
        confidence :=
          div (of_Z (fc_commits topContributor))
              (add (of_Z (fc_commits topContributor)) (of_Z (fc_commits second)));
        totalContributions := fc_commits topContributor
      |}
  end.

(** ** Collaboration Pattern Analysis *)

(** [Object.entries(collaborationKeywords)], in insertion order. *)
Definition collaborationKeywords : list (string * string) :=
  [ ("review", "code review");
    ("pair", "pair programming");
    ("thanks", "gratitude/recognition");
    ("helped", "knowledge sharing");
    ("team", "team collaboration");
    ("merged", "integration work") ].

Record CollabState := {
  foundPatterns : StringSet;
  collaborativeCommits : nat
}.

(** The inner [forEach] over the keyword entries for one lowercased message;
    the state is [foundPatterns] and the flag [hasCollaboration]. *)
Definition scan_keywords (lower : string) (found : StringSet)
  : StringSet * bool :=
  fold_left (fun st entry =>
               if includes lower (fst entry)
               then (set_add (fst st) (snd entry), true)
               else st)
            collaborationKeywords (found, false).

(** One turn of [input.commits.forEach]. *)
Definition scan_commit (st : CollabState) (msg : string) : CollabState :=
  let r := scan_keywords (toLowerCase msg) (foundPatterns st) in
  {| foundPatterns := fst r;
     collaborativeCommits :=
       if snd r then S (collaborativeCommits st) else collaborativeCommits st |}.

Record PatternOutput := {
  collaborationScore : number;
  patterns : list string;
  totalCommits : nat;
  out_collaborativeCommits : nat
}.

Definition pattern_task (commits : list string) : PatternOutput :=
  let st := fold_left scan_commit commits
                      {| foundPatterns := []; collaborativeCommits := 0 |} in
  {| collaborationScore :=
       div (of_nat (collaborativeCommits st)) (of_nat (List.length commits));
     patterns := foundPatterns st;
     totalCommits := List.length commits;
     out_collaborativeCommits := collaborativeCommits st |}.

End RealAnalysisEval.

(* ================================================================== *)
(** * src/core/report-generator.ts *)
(* ================================================================== *)

Module ReportGenerator.

(** The shapes [ExpertiseAnalysis] has where the generator reads it; a field
    marked optional in the reads ([?.], [|| ...]) is an [option]. *)

Record Expert := {
  name : string;
  email : string;
  expertise : Z;
  contributions : Z;
  lastCommit : string;
  specializations : option (list string);
  teamRole : option string
}.

Record FileExpertise := {
  fileName : string;
  filePath : string;
  experts : list Expert;
  changeFrequency : string
}.

Record ManagementInsight := {
  category : string;
  priority : string;
  title : string;
  description : string;
  timeline : string;
  impact : string;
  actionItems : list string
}.

Record KnowledgeDistribution := { riskScore : option number }.
Record CollaborationMetrics := { knowledgeSharing : option number }.

Record TeamHealthMetrics := {
  knowledgeDistribution : option KnowledgeDistribution;
  collaborationMetrics : option CollaborationMetrics
}.

Record ExpertiseAnalysis := {
  repository : string;
  totalFiles : Z;
  expertProfiles : list Expert;
  fileExpertise : list FileExpertise;
  managementInsights : option (list ManagementInsight);
  teamHealthMetrics : option TeamHealthMetrics
}.

(** [a.expertProfiles = profiles], the rest of [a] as it was. *)
Definition set_expertProfiles (a : ExpertiseAnalysis) (profiles : list Expert)
  : ExpertiseAnalysis :=
  {| repository := repository a;
     totalFiles := totalFiles a;
     expertProfiles := profiles;
     fileExpertise := fileExpertise a;
     managementInsights := managementInsights a;
     teamHealthMetrics := teamHealthMetrics a |}.

(** [(a, b) => b.contributions - a.contributions] *)
Definition by_contributions_desc (a b : Expert) : Z :=
  contributions b - contributions a.

(** [generateAnalysisSummary]: the summary, and the analysis as the call
    leaves it.  [expertProfiles.sort(...)] sorts the array of the analysis
    itself, so the sorted order is written back. *)
Definition generateAnalysisSummary (analysis : ExpertiseAnalysis)
  : string * ExpertiseAnalysis :=
  let sorted := sort by_contributions_desc (expertProfiles analysis) in
  let analysis' := set_expertProfiles analysis sorted in
  match sorted with
  | [] => ("No team analysis available.", analysis')
  | topContributor :: _ =>
      (name topContributor
         ++ " is the primary contributor and a potential bottleneck for CI/CD expertise.",
       analysis')
  end.

(** [teamHealthMetrics?.knowledgeDistribution?.riskScore ?? 0] *)
Definition riskScore_or_0 (analysis : ExpertiseAnalysis) : number :=
  match teamHealthMetrics analysis with
  | Some m =>
      match knowledgeDistribution m with
      | Some d => match riskScore d with Some r => r | None => of_Z 0 end
      | None => of_Z 0
      end
  | None => of_Z 0
  end.

(** [teamHealthMetrics?.collaborationMetrics?.knowledgeSharing ?? 0] *)
Definition sharingScore_or_0 (analysis : ExpertiseAnalysis) : number :=
  match teamHealthMetrics analysis with
  | Some m =>
      match collaborationMetrics m with
      | Some c => match knowledgeSharing c with Some s => s | None => of_Z 0 end
      | None => of_Z 0
      end
  | None => of_Z 0
  end.

Definition knowledgeRecommendation : string :=
  "Implement regular knowledge sharing sessions and documentation sprints".

Definition collaborationRecommendation : string :=
  "Establish regular code review rotations and pair programming sessions".

Definition generalRecommendations : list string :=
  [ "Consider implementing pair programming sessions to distribute knowledge";
    "Document key workflows and architectural decisions";
    "Set up regular technical sharing sessions" ].

(** The array [recommendations] of [generateRecommendations] when it reaches
    the [return]. *)
Definition recommendations (analysis : ExpertiseAnalysis) : list string :=
  let recs0 : list string := [] in
  let recs1 :=
    if gt (riskScore_or_0 analysis) (of_Z 70)
    then (recs0 ++ [knowledgeRecommendation])%list else recs0 in
  let recs2 :=
    if lt (sharingScore_or_0 analysis) (of_Z 50)
    then (recs1 ++ [collaborationRecommendation])%list else recs1 in
  if Nat.eqb (List.length recs2) 0
  then (recs2 ++ generalRecommendations)%list
  else recs2.

Definition generateRecommendations (analysis : ExpertiseAnalysis) : string :=
  join EmptyString
       (map (fun rec => "<p>" ++ rec ++ "</p>") (recommendations analysis)).

(** The quote character of the CSV cells. *)
Definition dq : string := String (ascii_of_nat 34) EmptyString.

Definition quoted (s : string) : string := dq ++ s ++ dq.

(** [primaryExpert?.name || 'Unknown'] for [primaryExpert = file.experts[0]] *)
Definition primaryExpertName (file : FileExpertise) : string :=
  match experts file with
  | [] => "Unknown"
  | primaryExpert :: _ =>
      if String.eqb (name primaryExpert) EmptyString then "Unknown"
      else name primaryExpert
  end.

(** One row of the files sheet of [generateCSV]. *)
Definition fileRow (file : FileExpertise) : string :=
  join ","
       [ quoted (fileName file);
         quoted (filePath file);
         show_nat (List.length (experts file));
         quoted (primaryExpertName file);
         changeFrequency file ].

Definition filesHeader : string :=
  "File Name,File Path,Expert Count,Primary Expert,Change Frequency"
    ++ String (ascii_of_nat 10) EmptyString.

(** [generateCSV(analysis).files] *)
Definition generateCSV_files (analysis : ExpertiseAnalysis) : string :=
  filesHeader
    ++ join (String (ascii_of_nat 10) EmptyString)
            (map fileRow (fileExpertise analysis)).

Section Report.

(** What the report takes from the clock: the two renderings of
    [new Date()], and [calculateDaysAgo], which subtracts from it. *)
Variable today : string.
Variable now : string.
Variable calculateDaysAgo : string -> string.

(** [analysis.repository.split('/').pop() || 'analysis'] *)
Fixpoint lastSegment (acc s : string) : string :=
  match s with
  | EmptyString => acc
  | String c s' =>
      if Ascii.eqb c "/" then lastSegment EmptyString s'
      else lastSegment (acc ++ String c EmptyString) s'
  end.

Definition repoName (analysis : ExpertiseAnalysis) : string :=
  let last := lastSegment EmptyString (repository analysis) in
  if String.eqb last EmptyString then "analysis" else last.

(** The strings one expert card interpolates, in order. *)
Definition expertCard (expert : Expert) : list string :=
  [ name expert;
    email expert;
    match teamRole expert with
    | Some role =>
        if String.eqb role EmptyString then EmptyString
        else "<span class=" ++ dq ++ "expert-role" ++ dq ++ ">" ++ role ++ "</span>"
    | None => EmptyString
    end;
    show_Z (expertise expert) ++ "%";
    show_Z (contributions expert);
    calculateDaysAgo (lastCommit expert);
    match specializations expert with
    | Some (_ :: _ as specs) =>
        join EmptyString
             (map (fun spec => "<span class=" ++ dq ++ "tag" ++ dq ++ ">" ++ spec ++ "</span>")
                  specs)
    | _ => EmptyString
    end ].

(** The strings one insight card interpolates, in order. *)
Definition insightCard (insight : ManagementInsight) : list string :=
  [ toLowerCase (category insight);
    category insight;
    priority insight;
    title insight;
    description insight;
    timeline insight;
    join EmptyString (map (fun action => "<li>" ++ action ++ "</li>") (actionItems insight));
    impact insight ].

(** The report as the values its template interpolates, in the order the
    template literal evaluates them; the fixed markup between them is the
    same for every analysis and is left out. *)
Record Report := {
  r_title : string;
  r_header : string * string;
  r_counts : Z * nat;
  r_experts : list (list string);
  r_insights : list (list string);
  r_summary : string;
  r_recommendations : string;
  r_generated : string
}.

(** [generateHTMLReport]: the report, and the analysis as the call leaves
    it.  The expert cards are rendered before [generateAnalysisSummary]
    runs; [generateRecommendations] reads the analysis after it. *)
Definition generateHTMLReport (analysis : ExpertiseAnalysis)
  : Report * ExpertiseAnalysis :=
  let cards := map expertCard (expertProfiles analysis) in
  let insights :=
    match managementInsights analysis with
    | Some l => map insightCard l
    | None => []
    end in
  let '(summary, analysis') := generateAnalysisSummary analysis in
  ({| r_title := repoName analysis;
      r_header := (repoName analysis, today);
      r_counts := (totalFiles analysis, List.length (expertProfiles analysis));
      r_experts := cards;
      r_insights := insights;
      r_summary := summary;
      r_recommendations := generateRecommendations analysis';
      r_generated := now |},
   analysis').

End Report.

(** One row of the insights sheet of [generateCSV]. *)
Definition insightRow (insight : ManagementInsight) : string :=
  join ","
       [ quoted (category insight);
         quoted (priority insight);
         quoted (title insight);
         quoted (description insight);
         quoted (timeline insight);
         quoted (impact insight);
         quoted (join "; " (actionItems insight)) ].

Definition insightsHeader : string :=
  "Category,Priority,Title,Description,Timeline,Impact,Action Items"
    ++ String (ascii_of_nat 10) EmptyString.

(** [generateCSV(analysis).managementInsights]: set only when the analysis
    has at least one insight. *)
Definition generateCSV_managementInsights (analysis : ExpertiseAnalysis)
  : option string :=
  match managementInsights analysis with
  | Some (_ :: _ as insights) =>
      Some (insightsHeader
              ++ join (String (ascii_of_nat 10) EmptyString) (map insightRow insights))
  | _ => None
  end.

(** What [calculateDaysAgo] may be handed: nothing, a [Date] (with its time
    value in milliseconds, or none when the date is invalid), a string, an
    integer timestamp, or a truthy value of another type. *)
Inductive DateInput : Type :=
| NoDate
| DateObject (time : option Z)
| DateString (s : string)
| DateNumber (n : Z)
| OtherValue.

(** A time value a [Date] can hold: within 8.64e15 ms of the epoch. *)
Definition timeClip (ms : Z) : option Z :=
  if (Z.abs ms <=? 8640000000000000)%Z then Some ms else None.

Section DaysAgo.

(** [new Date().getTime()], and [new Date(s).getTime()] for a string (none
    when the string does not parse). *)
Variable nowMs : Z.
Variable parseDate : string -> option Z.

(** [calculateDaysAgo] *)
Definition calculateDaysAgo (lastCommitDate : DateInput) : string :=
  let date : option (option Z) :=
    match lastCommitDate with
    | NoDate => None
    | DateObject t => Some t
    | DateString s => if String.eqb s EmptyString then None else Some (parseDate s)
    | DateNumber n =>
        if (n =? 0)%Z then None
        else
          let multiplier := if (9999999999 <? n)%Z then 1%Z else 1000%Z in
          Some (timeClip (n * multiplier))
    | OtherValue => None
    end in
  match date with
  | None => "N/A"
  | Some None => "N/A"
  | Some (Some t) => show_Z ((nowMs - t) / (1000 * 60 * 60 * 24))
  end.

End DaysAgo.

(** The cells of one file row. *)
Definition fileCells (file : FileExpertise) : list string :=
  [ quoted (fileName file);
    quoted (filePath file);
    show_nat (List.length (experts file));
    quoted (primaryExpertName file);
    changeFrequency file ].

(** A cell that a reader splitting at line ends and commas takes whole. *)
Definition csv_safe (s : string) : bool :=
  all_chars (fun c => negb (Ascii.eqb c (ascii_of_nat 10)) && negb (Ascii.eqb c ",")) s.

(** A sheet read back: its lines, each split at the commas. *)
Definition read_sheet (sheet : string) : list (list string) :=
  map (split_on "," EmptyString) (split_on (ascii_of_nat 10) EmptyString sheet).

End ReportGenerator.

(* ================================================================== *)
(** * Node's [path] module, POSIX flavour *)
(* ================================================================== *)

Module NodePath.

(** [path.sep] *)
Definition sep : string := "/".

Definition isAbsolute (p : string) : bool := startsWith p "/".

(** [p.split('/')], with [cur] the piece being read. *)
Fixpoint split_slash (cur p : string) : list string :=
  match p with
  | EmptyString => [cur]
  | String c p' =>
      if Ascii.eqb c "/" then cur :: split_slash EmptyString p'
      else split_slash (cur ++ String c EmptyString) p'
  end.

(** One segment of [normalizeString]; [stack] holds the segments kept so
    far, the last one first.  Empty and [.] segments are dropped, [..]
    removes the segment before it, or stays when there is none to remove
    and the path may climb above its start. *)
Definition normalize_step (allowAboveRoot : bool) (stack : list string)
  (seg : string) : list string :=
  if String.eqb seg EmptyString then stack
  else if String.eqb seg "." then stack
  else if String.eqb seg ".." then
    match stack with
    | top :: rest =>
        if String.eqb top ".."
        then (if allowAboveRoot then ".." :: stack else stack)
        else rest
    | [] => if allowAboveRoot then [".."] else []
    end
  else seg :: stack.

Definition normalizeString (p : string) (allowAboveRoot : bool) : string :=
  join "/" (rev (fold_left (normalize_step allowAboveRoot)
                           (split_slash EmptyString p) [])).

(** The loop of [resolve]: arguments from the right, then the working
    directory, until an absolute one is met. *)
Fixpoint resolve_loop (paths : list string) (resolvedPath : string)
  : string * bool :=
  match paths with
  | [] => (resolvedPath, false)
  | p :: rest =>
      if String.eqb p EmptyString then resolve_loop rest resolvedPath
      else
        let resolvedPath' := p ++ "/" ++ resolvedPath in
        if isAbsolute p then (resolvedPath', true)
        else resolve_loop rest resolvedPath'
  end.

(** [path.resolve(...args)] with [cwd] for [process.cwd()]. *)
Definition resolve (cwd : string) (args : list string) : string :=
  let '(resolvedPath, resolvedAbsolute) :=
    resolve_loop (rev args ++ [cwd])%list EmptyString in
  let normalized := normalizeString resolvedPath (negb resolvedAbsolute) in
  if resolvedAbsolute then "/" ++ normalized
  else if String.eqb normalized EmptyString then "." else normalized.

(** [path.normalize(p)] *)
Definition normalize (p : string) : string :=
  if String.eqb p EmptyString then "."
  else
    let absolute := isAbsolute p in
    let trailingSeparator := endsWith p "/" in
    let n := normalizeString p (negb absolute) in
    if String.eqb n EmptyString then
      (if absolute then "/" else if trailingSeparator then "./" else ".")
    else
      let n' := if trailingSeparator then n ++ "/" else n in
      if absolute then "/" ++ n' else n'.

(** The names a path goes through: its pieces between separators. *)
Definition segments (p : string) : list string :=
  filter (fun seg => negb (String.eqb seg EmptyString)) (split_slash EmptyString p).

End NodePath.

(* ================================================================== *)
(** * src/utils/validation.ts *)
(* ================================================================== *)

Module Validator.

Section SanitizeFilePath.

(** The [path] module the class imports. *)
Variable path_resolve : list string -> string.
Variable path_normalize : string -> string.
Variable path_sep : string.

(** [p.endsWith(path.sep) ? p : p + path.sep] *)
Definition withSep (p : string) : string :=
  if endsWith p path_sep then p else p ++ path_sep.

Definition traversalError (filePath : string) : error :=
  Error ("Path traversal detected: " ++ ReportGenerator.dq ++ filePath
           ++ ReportGenerator.dq ++ " resolves outside workspace root").

(** The [try] block. *)
Definition sanitize_try (filePath workspaceRoot : string) : completion string :=
  let resolvedWorkspaceRoot := path_resolve [workspaceRoot] in
  let normalized := path_normalize filePath in
  let resolved := path_resolve [resolvedWorkspaceRoot; normalized] in
  let workspaceWithSep := withSep resolvedWorkspaceRoot in
  let resolvedWithSep := withSep resolved in
  if negb (String.eqb resolved resolvedWorkspaceRoot)
     && negb (startsWith resolvedWithSep workspaceWithSep)
  then Throw (traversalError filePath)
  else Return resolved.

(** The [catch] block; every error of the model is an [Error] instance. *)
Definition sanitize_catch (filePath : string) (e : error) : completion string :=
  if includes (err_message e) "Path traversal" then Throw e
  else Throw (Error ("Invalid file path: " ++ ReportGenerator.dq ++ filePath
                       ++ ReportGenerator.dq ++ " - " ++ err_message e)).

Definition sanitizeFilePath (filePath workspaceRoot : string) : completion string :=
  match sanitize_try filePath workspaceRoot with
  | Return resolved => Return resolved
  | Throw e => sanitize_catch filePath e
  end.

End SanitizeFilePath.

(** [sanitizeFilePath] on a POSIX host whose working directory is [cwd]. *)
Definition sanitizeFilePath_posix (cwd filePath workspaceRoot : string)
  : completion string :=
  sanitizeFilePath (NodePath.resolve cwd) NodePath.normalize NodePath.sep
                   filePath workspaceRoot.

(** ** The validators *)

Import RegExp.

Record ValidationResult := {
  isValid : bool;
  errors : list string;
  warnings : list string
}.

(** The result as a validator returns it right after pushing [msg]. *)
Definition rejected (msg : string) : ValidationResult :=
  {| isValid := false; errors := [msg]; warnings := [] |}.

(** The result once [isValid] is set. *)
Definition accepted : ValidationResult :=
  {| isValid := true; errors := []; warnings := [] |}.

Section FilePath.

(** Whether [vscode.Uri.file] or the call of [fs.stat] throws; the promise
    [stat] returns is not awaited, so what it settles to is not seen. *)
Variable statThrows : string -> bool.

Definition validateFilePath (filePath : string) : ValidationResult :=
  if String.eqb filePath EmptyString then rejected "File path is required"
  else if String.eqb (trim filePath) EmptyString then rejected "File path cannot be empty"
  else if includes filePath ".." then
    rejected ("File path cannot contain " ++ ReportGenerator.dq ++ ".."
                ++ ReportGenerator.dq ++ " for security reasons")
  else if statThrows filePath then rejected "File does not exist or is not accessible"
  else accepted.

End FilePath.

(** [[^\s@]] *)
Definition notSpaceAt (c : ascii) : bool := negb (is_space c) && negb (Ascii.eqb c "@").

(** [/^[^\s@]+@[^\s@]+\.[^\s@]+$/] *)
Definition emailRegex : re :=
  Cat (Plus (Class notSpaceAt))
      (Cat (Char "@")
           (Cat (Plus (Class notSpaceAt))
                (Cat (Char ".") (Plus (Class notSpaceAt))))).

Definition validateEmail (email : string) : ValidationResult :=
  if String.eqb email EmptyString then rejected "Email is required"
  else if negb (test_whole emailRegex email) then rejected "Invalid email format"
  else accepted.

(** [[^\/]] *)
Definition notSlash (c : ascii) : bool := negb (Ascii.eqb c "/").

(** [/^https:\/\/github\.com\/([^\/]+)\/([^\/]+)(?:\.git)?$/] *)
Definition githubUrlRegex : re :=
  Cat (Lit "https://github.com/")
      (Cat (Plus (Class notSlash))
           (Cat (Char "/")
                (Cat (Plus (Class notSlash)) (Opt (Lit ".git"))))).

(** [/^([^\/]+)\/([^\/]+)$/] *)
Definition githubNameRegex : re :=
  Cat (Plus (Class notSlash)) (Cat (Char "/") (Plus (Class notSlash))).

Definition validateRepository (repository : string) : ValidationResult :=
  if String.eqb repository EmptyString then rejected "Repository name is required"
  else if test_whole githubUrlRegex repository || test_whole githubNameRegex repository
  then accepted
  else rejected ("Repository must be in format " ++ ReportGenerator.dq ++ "owner/repo"
                   ++ ReportGenerator.dq ++ " or a valid GitHub URL").

Section NumericRange.

(** How a template literal prints a number. *)
Variable show_number : number -> string.

Definition validateNumericRange (value min max : number) (fieldName : string)
  : ValidationResult :=
  match value with
  | NaN => rejected (fieldName ++ " must be a valid number")
  | _ =>
      if lt value min || gt value max
      then rejected (fieldName ++ " must be between " ++ show_number min
                       ++ " and " ++ show_number max)
      else accepted
  end.

End NumericRange.

(** The last two entries are the two-character texts backslash-n and
    backslash-r, as the source spells them. *)
Definition dangerousChars : list string :=
  ["&"; "|"; ";"; "`"; "$"; "("; ")"; "<"; ">"; "\n"; "\r"].

Definition validateShellInput (input : string) : ValidationResult :=
  if String.eqb input EmptyString then rejected "Input is required"
  else
    let foundDangerous := filter (fun char => includes input char) dangerousChars in
    if negb (Nat.eqb (List.length foundDangerous) 0)
    then rejected ("Input contains potentially dangerous characters: "
                     ++ join ", " foundDangerous)
    else accepted.

Definition is_newline (c : ascii) : bool :=
  Ascii.eqb c (ascii_of_nat 10) || Ascii.eqb c (ascii_of_nat 13).

(** The class of [/[&|;`$()><\n\r]/] *)
Definition shellMeta (c : ascii) : bool :=
  existsb (Ascii.eqb c) ["&"; "|"; ";"; "`"; "$"; "("; ")"; ">"; "<"]%char
  || is_newline c.

Definition sanitizeShellInput (input : string) : string :=
  remove_chars shellMeta input.

(** A value as [validateApiResponse] looks at it; an object is its own
    properties, each key once. *)
#[warnings="-register-all"]
Inductive value : Type :=
| VUndefined
| VNull
| VBoolean (b : bool)
| VNumber (n : number)
| VString (s : string)
| VObject (fields : list (string * value)).

Definition truthy (v : value) : bool :=
  match v with
  | VUndefined | VNull => false
  | VBoolean b => b
  | VNumber (Num q) => negb (Qeq_bool q 0)
  | VNumber NaN => false
  | VNumber _ => true
  | VString s => negb (String.eqb s EmptyString)
  | VObject _ => true
  end.

Fixpoint property (fields : list (string * value)) (key : string) : option value :=
  match fields with
  | [] => None
  | (k, v) :: rest => if String.eqb k key then Some v else property rest key
  end.

(** [!response.hasOwnProperty(field) || response[field] === null
     || response[field] === undefined] *)
Definition isMissing (fields : list (string * value)) (field : string) : bool :=
  match property fields field with
  | None => true
  | Some VNull | Some VUndefined => true
  | Some _ => false
  end.

Definition notAFunction : error :=
  mkError "TypeError" "response.hasOwnProperty is not a function".

(** An own property named [hasOwnProperty] hides the inherited method; no
    value of the model is a function, so calling it throws. *)
Definition validateApiResponse (response : value) (requiredFields : list string)
  : completion ValidationResult :=
  if negb (truthy response) then Return (rejected "Response is null or undefined")
  else
    match response with
    | VObject fields =>
        match requiredFields, property fields "hasOwnProperty" with
        | _ :: _, Some _ => Throw notAFunction
        | _, _ =>
            let missingFields := filter (isMissing fields) requiredFields in
            if negb (Nat.eqb (List.length missingFields) 0)
            then Return (rejected ("Missing required fields: "
                                     ++ join ", " missingFields))
            else Return accepted
        end
    | _ => Return (rejected "Response must be an object")
    end.

(** The class of [/[;&|`$()<>\\]/] *)
Definition emailMeta (c : ascii) : bool :=
  existsb (Ascii.eqb c) [";"; "&"; "|"; "`"; "$"; "("; ")"; "<"; ">"; "\"]%char.

Definition is_alpha (c : ascii) : bool :=
  let n := nat_of_ascii c in
  (((65 <=? n) && (n <=? 90)) || ((97 <=? n) && (n <=? 122)))%nat.

Definition is_digit (c : ascii) : bool :=
  let n := nat_of_ascii c in ((48 <=? n) && (n <=? 57))%nat.

(** [[a-zA-Z0-9._%+-]] and [[a-zA-Z0-9.-]] *)
Definition localChar (c : ascii) : bool :=
  is_alpha c || is_digit c || existsb (Ascii.eqb c) ["."; "_"; "%"; "+"; "-"]%char.

Definition domainChar (c : ascii) : bool :=
  is_alpha c || is_digit c || existsb (Ascii.eqb c) ["."; "-"]%char.

(** [/^[a-zA-Z0-9._%+-]+@[a-zA-Z0-9.-]+\.[a-zA-Z]{2,}$/] *)
Definition strictEmailRegex : re :=
  Cat (Plus (Class localChar))
      (Cat (Char "@")
           (Cat (Plus (Class domainChar))
                (Cat (Char ".") (AtLeast2 (Class is_alpha))))).

Definition sanitizeEmail (email : string) : completion string :=
  let sanitized :=
    trim (remove_chars is_space
            (remove_chars is_newline
               (remove_chars emailMeta email))) in
  if negb (test_whole strictEmailRegex sanitized)
  then Throw (Error "Invalid email format after sanitization")
  else Return sanitized.

(** [\s*] and [\s+] *)
Definition spaces : re := Star (Class is_space).
Definition spaces1 : re := Plus (Class is_space).

Definition dangerousPatterns : list re :=
  [ Cat (Char ";") (Cat spaces (Cat (LitI "rm") (Cat spaces1 (LitI "-rf"))));
    Cat (Char ";") (Cat spaces (Cat (LitI "curl") spaces1));
    Cat (Char ";") (Cat spaces (Cat (LitI "wget") spaces1));
    Cat (Char "`") (Cat (Star (Class (fun c => negb (Ascii.eqb c "`")))) (Char "`"));
    Cat (Lit "$(") (Cat (Star (Class (fun c => negb (Ascii.eqb c ")")))) (Char ")"));
    Cat (Lit "&&") (Cat spaces (Cat (LitI "rm") spaces1));
    Cat (Char "|") (Cat spaces (LitI "bash"));
    Cat (Char "|") (Cat spaces (LitI "sh")) ].

Definition validateGitOutput (output : string) : ValidationResult :=
  if String.eqb output EmptyString then rejected "Git output is empty"
  else if existsb (fun pattern => test pattern output) dangerousPatterns
  then rejected "Potentially malicious content detected in git output"
  else accepted.

Section ParseJSON.

(** [JSON.parse]: the value, or the message of the error it throws. *)
Variable JSON_parse : string -> value + string.

Definition validateAndParseJSON (jsonString : string)
  : ValidationResult * option value :=
  if String.eqb jsonString EmptyString || String.eqb (trim jsonString) EmptyString
  then (rejected "JSON string is empty", None)
  else
    match JSON_parse jsonString with
    | inl parsed => (accepted, Some parsed)
    | inr errorMessage => (rejected ("Invalid JSON: " ++ errorMessage), None)
    end.

End ParseJSON.

Section URL.

(** [new URL(url)]: its [protocol] and [hostname], or none when the
    constructor throws. *)
Variable parseURL : string -> option (string * string).

Definition isLocalhost (hostname : string) : bool :=
  String.eqb hostname "localhost"
  || startsWith hostname "127."
  || String.eqb hostname "0.0.0.0"
  || String.eqb hostname "[::1]".

(** [/^172\.(1[6-9]|2[0-9]|3[0-1])\./] *)
Definition private172 : re :=
  Cat (Lit "172.")
      (Cat (Alt (Cat (Char "1") (Class (fun c => existsb (Ascii.eqb c) ["6"; "7"; "8"; "9"]%char)))
                (Alt (Cat (Char "2") (Class is_digit))
                     (Cat (Char "3") (Class (fun c => existsb (Ascii.eqb c) ["0"; "1"]%char)))))
           (Cat (Char ".") (Star Any))).

Definition isPrivateIP (hostname : string) : bool :=
  startsWith hostname "10."
  || startsWith hostname "192.168."
  || String.eqb hostname "169.254.169.254"
  || test_whole private172 hostname.

Definition validateURL (url : string) : ValidationResult :=
  if String.eqb url EmptyString then rejected "URL is required"
  else
    match parseURL url with
    | None => rejected "Invalid URL format"
    | Some (protocol, hostname) =>
        if negb (String.eqb protocol "https:")
           && (negb (String.eqb protocol "http:")
               || negb (String.eqb hostname "localhost"
                        || String.eqb hostname "127.0.0.1"
                        || String.eqb hostname "0.0.0.0"))
        then rejected "Only HTTPS URLs are allowed (except http for localhost)"
        else if negb (isLocalhost hostname) && isPrivateIP hostname
        then rejected "Requests to internal/private IPs are not allowed"
        else accepted
    end.

End URL.

(** ** validateGitHubToken *)

(** [TokenValidationResult extends ValidationResult] *)
Record TokenValidationResult := {
  base : ValidationResult;
  hasRepoAccess : bool;
  hasUserAccess : bool;
  rateLimitRemaining : number
}.

Definition push_error (result : TokenValidationResult) (msg : string)
  : TokenValidationResult :=
  {| base := {| isValid := isValid (base result);
                errors := (errors (base result) ++ [msg])%list;
                warnings := warnings (base result) |};
     hasRepoAccess := hasRepoAccess result;
     hasUserAccess := hasUserAccess result;
     rateLimitRemaining := rateLimitRemaining result |}.

Definition push_warning (result : TokenValidationResult) (msg : string)
  : TokenValidationResult :=
  {| base := {| isValid := isValid (base result);
                errors := errors (base result);
                warnings := (warnings (base result) ++ [msg])%list |};
     hasRepoAccess := hasRepoAccess result;
     hasUserAccess := hasUserAccess result;
     rateLimitRemaining := rateLimitRemaining result |}.

(** What [await axios.get(...)] comes to: a response with its status, or a
    thrown error whose [response], when it has one, carries a status. *)
Inductive reply (A : Type) : Type :=
| Response (status : Z) (payload : A)
| Failure (response : option Z).

Arguments Response {A} status payload.
Arguments Failure {A} response.

Record GitHubUser := { email : option string }.

(** Of the response to [/user], the header [x-ratelimit-remaining] and the
    data, which may be missing. *)
Record UserPayload := {
  ratelimit_remaining : option string;
  data : option GitHubUser
}.

Section GitHubToken.

(** The two requests, and [parseInt]. *)
Variable getUser : string -> reply UserPayload.
Variable getRepos : string -> reply unit.
Variable parseInt : string -> number.

(** The [catch] block; [response] is [error.response]. *)
Definition token_catch (result : TokenValidationResult) (response : option Z)
  : TokenValidationResult :=
  match response with
  | Some status =>
      if (status =? 401)%Z then push_error result "Invalid token or token has expired"
      else if (status =? 403)%Z
      then push_error result "Token has insufficient permissions or rate limit exceeded"
      else if (status =? 404)%Z then push_error result "GitHub API endpoint not found"
      else push_error result ("GitHub API error: "
                                ++ (if (status =? 0)%Z then "Unknown" else show_Z status))
  | None => push_error result "Network error while validating token"
  end.

(** The block under [userResponse.status === 200]: the result as the
    block leaves it, and the error it throws if any.  Reading [email] of
    missing data throws a [TypeError], after the two assignments. *)
Definition user_block (result : TokenValidationResult) (payload : UserPayload)
  : TokenValidationResult * option error :=
  let result :=
    {| base := base result;
       hasRepoAccess := hasRepoAccess result;
       hasUserAccess := true;
       rateLimitRemaining :=
         parseInt (match ratelimit_remaining payload with
                   | Some h => if String.eqb h EmptyString then "0" else h
                   | None => "0"
                   end) |} in
  match data payload with
  | None => (result, Some (TypeError_undefined "email"))
  | Some user =>
      match email user with
      | Some (String _ _) => (result, None)
      | _ => (push_warning result
                "GitHub user email is not public. This may limit some features.",
              None)
      end
  end.

(** From the second request to the end of the [try] block. *)
Definition repo_block (result : TokenValidationResult) (token : string)
  : TokenValidationResult :=
  match getRepos token with
  | Failure response => token_catch result response
  | Response status _ =>
      let result :=
        if (status =? 200)%Z
        then {| base := base result;
                hasRepoAccess := true;
                hasUserAccess := hasUserAccess result;
                rateLimitRemaining := rateLimitRemaining result |}
        else result in
      let result :=
        {| base := {| isValid := hasUserAccess result && hasRepoAccess result;
                      errors := errors (base result);
                      warnings := warnings (base result) |};
           hasRepoAccess := hasRepoAccess result;
           hasUserAccess := hasUserAccess result;
           rateLimitRemaining := rateLimitRemaining result |} in
      if negb (hasRepoAccess result)
      then push_error result "Token does not have repository access permissions"
      else result
  end.

Definition validateGitHubToken (token : string) : TokenValidationResult :=
  let result :=
    {| base := {| isValid := false; errors := []; warnings := [] |};
       hasRepoAccess := false;
       hasUserAccess := false;
       rateLimitRemaining := of_Z 0 |} in
  if String.eqb token EmptyString then push_error result "Token is required"
  else if (String.length token <? 40)%nat
  then push_error result "Token appears to be too short"
  else
    let result :=
      if negb (startsWith token "ghp_") && negb (startsWith token "github_pat_")
      then push_warning result
             "Token format may be incorrect (should start with ghp_ or github_pat_)"
      else result in
    match getUser token with
    | Failure response => token_catch result response
    | Response status payload =>
        if (status =? 200)%Z
        then
          let '(result, thrown) := user_block result payload in
          match thrown with
          | Some _ => token_catch result None
          | None => repo_block result token
          end
        else repo_block result token
    end.

End GitHubToken.

(** A result in order: valid exactly when it lists no error, at most one
    error, and no warning. *)
Definition consistent (r : ValidationResult) : Prop :=
  (isValid r = true <-> errors r = []) /\
  (List.length (errors r) <= 1)%nat /\
  warnings r = [].

End Validator.

(* ================================================================== *)
(** * The specification's formulas *)
(* ================================================================== *)

(** Definitions written after the specification's sentences, to be compared
    with what the code computes. *)

Module Spec.

(** "the largest [commitCount] across all contributors in the snapshot" *)
Definition maxContributions (commitCounts : list Z) : Z :=
  match commitCounts with
  | [] => 0
  | c :: rest => fold_left Z.max rest c
  end.

(** "[round(100 * contributions / maxContributions)]" *)
Definition expertisePercent (contributions maxC : Z) : number :=
  Math_round (div (mul (of_Z 100) (of_Z contributions)) (of_Z maxC)).

(** "a fixed collaboration-keyword set (e.g. review, pair, merge, thanks,
    helped)" *)
Definition knowledgeSharingKeywords : list string :=
  ["review"; "pair"; "merge"; "thanks"; "helped"].

Definition mentions (keywords : list string) (msg : string) : bool :=
  existsb (fun keyword => includes (toLowerCase msg) keyword) keywords.

(** "fraction of all commits whose message matches ..., scaled to 0-100 and
    rounded" *)
Definition knowledgeSharing (messages : list string) : number :=
  Math_round
    (mul (of_Z 100)
         (div (of_nat (List.length (filter (mentions knowledgeSharingKeywords) messages)))
              (of_nat (List.length messages)))).

(** "scanning commits oldest-to-newest by timestamp": the commits in
    ascending order of their ISO dates. *)
Definition oldest_first (a b : RealAnalysisEval.Commit) : Z :=
  match String.compare (RealAnalysisEval.date a) (RealAnalysisEval.date b) with
  | Lt => -1
  | Eq => 0
  | Gt => 1
  end.

Definition specializations_by_timestamp (commits : list RealAnalysisEval.Commit)
  : list string :=
  RealAnalysisEval.detectSpecializations (sort oldest_first commits).

(** The labels one commit earns, in the order the tests of the [forEach]
    body run. *)
Definition commit_labels (commit : RealAnalysisEval.Commit) : list string :=
  map snd
      (filter (fun rule => includes (toLowerCase (RealAnalysisEval.message commit)) (fst rule))
              RealAnalysisEval.specializationTable).

(** The patterns one message earns, in the order of the keyword entries. *)
Definition message_patterns (msg : string) : list string :=
  map snd
      (filter (fun entry => includes (toLowerCase msg) (fst entry))
              RealAnalysisEval.collaborationKeywords).

(** "first-occurrence order": each label where it first shows up, later
    repeats dropped. *)
Fixpoint first_occurrences (labels : list string) : list string :=
  match labels with
  | [] => []
  | x :: rest => x :: remove string_dec x (first_occurrences rest)
  end.

(** "sorted descending by score, ties broken by more-recent
    [lastCommitTimestamp], then by identity": may [a] stand right before [b]? *)
Definition ranked_before (a b : RealAnalysisEval.FileContributor) : bool :=
  let ca := RealAnalysisEval.fc_commits a in
  let cb := RealAnalysisEval.fc_commits b in
  (cb <? ca)%Z
  || ((ca =? cb)%Z
      && (String.ltb (RealAnalysisEval.lastEdit b) (RealAnalysisEval.lastEdit a)
          || (String.eqb (RealAnalysisEval.lastEdit a) (RealAnalysisEval.lastEdit b)
              && String.leb (RealAnalysisEval.fc_name a) (RealAnalysisEval.fc_name b)))).

Fixpoint ranked (l : list RealAnalysisEval.FileContributor) : bool :=
  match l with
  | [] => true
  | a :: rest =>
      match rest with
      | [] => true
      | b :: _ => ranked_before a b && ranked rest
      end
  end.

(** A path in canonical form: the separator, then its names joined by
    separators, none of them [.] or [..]. *)
Definition canonical (p : string) : Prop :=
  p = "/" ++ join "/" (NodePath.segments p)
  /\ Forall (fun seg => seg <> "." /\ seg <> "..") (NodePath.segments p).

(** A path [p] is inside [root], or is [root], when both are in canonical
    form and [p] goes through all of [root]'s names first. *)
Definition inside (root p : string) : Prop :=
  canonical root /\ canonical p
  /\ exists rest, NodePath.segments p = (NodePath.segments root ++ rest)%list.

End Spec.

(* ================================================================== *)
(** * The score expressions in double precision *)
(* ================================================================== *)

(** The same expressions on the machine's doubles, to compare the numbers
    of [JS] with on the concrete values the properties below name; counts
    are non-negative integers below [2^63] here. *)

Module Binary64.

Definition double (z : Z) : PrimFloat.float := PrimFloat.of_uint63 (Uint63.of_Z z).

(** A machine double as a [number]. *)
Definition number_of (f : PrimFloat.float) : number :=
  match FloatOps.Prim2SF f with
  | SpecFloat.S754_zero _ => Num 0
  | SpecFloat.S754_infinity false => Infinity
  | SpecFloat.S754_infinity true => NegInfinity
  | SpecFloat.S754_nan => NaN
  | SpecFloat.S754_finite s m e =>
      Num (Qred ((if s then -1 else 1) * inject_Z (Zpos m) * 2 ^ e))
  end.

(** [(c.commits / sorted[0].commits) * 100] *)
Definition score (c top : Z) : PrimFloat.float :=
  PrimFloat.mul (PrimFloat.div (double c) (double top)) (double 100).

(** [collaborativeCommits / input.commits.length] *)
Definition collaborationScore (hits total : Z) : PrimFloat.float :=
  PrimFloat.div (double hits) (double total).

(** [topContributor.commits / (topContributor.commits + sorted[1].commits)] *)
Definition confidence (top second : Z) : PrimFloat.float :=
  PrimFloat.div (double top) (PrimFloat.add (double top) (double second)).

End Binary64.

(* ================================================================== *)
(** * Sample inputs *)
(* ================================================================== *)

Module Samples.

Import ReportGenerator.

Definition junior : Expert :=
  {| name := "Bob Martinez"; email := "bob@example.com";
     expertise := 64; contributions := 156;
     lastCommit := "2025-11-18";
     specializations := Some ["React"; "TypeScript"];
     teamRole := None |}.

Definition senior : Expert :=
  {| name := "Alice Chen"; email := "alice@example.com";
     expertise := 100; contributions := 245;
     lastCommit := "2025-11-20";
     specializations := Some ["Authentication"; "Security"];
     teamRole := Some "Tech Lead" |}.

Definition metrics (risk sharing : Z) : TeamHealthMetrics :=
  {| knowledgeDistribution := Some {| riskScore := Some (of_Z risk) |};
     collaborationMetrics := Some {| knowledgeSharing := Some (of_Z sharing) |} |}.

(** An analysis whose profiles are not in descending order of
    contributions. *)
Definition analysis (risk sharing : Z) : ExpertiseAnalysis :=
  {| repository := "octo/teamxray";
     totalFiles := 4;
     expertProfiles := [junior; senior];
     fileExpertise :=
       [ {| fileName := "login.ts"; filePath := "src/auth/login.ts";
            experts := [senior]; changeFrequency := "high" |};
         {| fileName := "Charts.tsx"; filePath := "src/ui/Charts.tsx";
            experts := [junior]; changeFrequency := "low" |} ];
     managementInsights := None;
     teamHealthMetrics := Some (metrics risk sharing) |}.

(** Two contributors of a file with the same commit count, the second one
    the more recent. *)
Definition tiedContributors : list RealAnalysisEval.FileContributor :=
  [ {| RealAnalysisEval.fc_name := "Bob Martinez";
       RealAnalysisEval.fc_commits := 5;
       RealAnalysisEval.lastEdit := "2025-10-15" |};
    {| RealAnalysisEval.fc_name := "Alice Chen";
       RealAnalysisEval.fc_commits := 5;
       RealAnalysisEval.lastEdit := "2025-11-20" |} ].

(** The test case of the File Expert Matching eval. *)
Definition loginContributors : list RealAnalysisEval.FileContributor :=
  [ {| RealAnalysisEval.fc_name := "Alice Chen";
       RealAnalysisEval.fc_commits := 15;
       RealAnalysisEval.lastEdit := "2025-11-20" |};
    {| RealAnalysisEval.fc_name := "Bob Martinez";
       RealAnalysisEval.fc_commits := 2;
       RealAnalysisEval.lastEdit := "2025-10-15" |} ].

(** Two contributors whose counts add up to a sum that is no double. *)
Definition hugeContributors : list RealAnalysisEval.FileContributor :=
  [ {| RealAnalysisEval.fc_name := "Alice Chen";
       RealAnalysisEval.fc_commits := 2 ^ 53;
       RealAnalysisEval.lastEdit := "2025-11-20" |};
    {| RealAnalysisEval.fc_name := "Bob Martinez";
       RealAnalysisEval.fc_commits := 1;
       RealAnalysisEval.lastEdit := "2025-10-15" |} ].

(** A commit whose message earns no label. *)
Definition readmeCommit : RealAnalysisEval.Commit :=
  {| RealAnalysisEval.author := "Bob Martinez";
     RealAnalysisEval.message := "Fix typo in README";
     RealAnalysisEval.date := "2025-11-17";
     RealAnalysisEval.files := ["README.md"] |}.

(** The three commit messages of the specification's scenario. *)
Definition threeMessages : list string :=
  ["Fixed bug"; "Reviewed Alice's PR"; "Merged feature"].

End Samples.

(* ================================================================== *)
(** * Numbers *)
(* ================================================================== *)

Section NumberFacts.

Local Open Scope Q_scope.

(** ** Rounding to the nearest double *)

Lemma pow2_pos (e : Z) : 0 < 2 ^ e.
Proof. apply Qpower_0_lt. reflexivity. Qed.

Lemma pow2_plus (a b : Z) : 2 ^ (a + b) == 2 ^ a * 2 ^ b.
Proof. apply Qpower_plus. discriminate. Qed.

Lemma pow2_le (a b : Z) : (a <= b)%Z -> 2 ^ a <= 2 ^ b.
Proof. intros H. apply Qpower_le_compat_l; [exact H | discriminate]. Qed.

Lemma pow2_lt_inv (a b : Z) : 2 ^ a < 2 ^ b -> (a < b)%Z.
Proof. intros H. apply (Qpower_lt_compat_l_inv _ _ _ H). reflexivity. Qed.

Lemma pow2_inject (n : Z) : (0 <= n)%Z -> inject_Z (2 ^ n) == 2 ^ n.
Proof. intros H. rewrite Zpower_Qpower by exact H. reflexivity. Qed.

(** [Qlog2 q] is the exponent of the power of two at or below [q]. *)
Lemma Qlog2_spec (q : Q) :
  0 < q -> 2 ^ Qlog2 q <= q /\ q < 2 ^ (Qlog2 q + 1).
Proof.
  destruct q as [n d]. intros Hq.
  assert (Hn : (0 < n)%Z) by (unfold Qlt in Hq; simpl in Hq; lia).
  unfold Qlog2. cbn [Qnum Qden].
  set (ln := Z.log2 n). set (ld := Z.log2 (Z.pos d)).
  destruct (Z.log2_spec n Hn) as [Hn1 Hn2]. fold ln in Hn1, Hn2.
  destruct (Z.log2_spec (Z.pos d) eq_refl) as [Hd1 Hd2]. fold ld in Hd1, Hd2.
  assert (Hln : (0 <= ln)%Z) by apply Z.log2_nonneg.
  assert (Hld : (0 <= ld)%Z) by apply Z.log2_nonneg.
  assert (Hdpos : 0 < inject_Z (Z.pos d)) by reflexivity.
  assert (E : n # d == inject_Z n / inject_Z (Z.pos d)) by apply Qmake_Qdiv.
  assert (Qn1 : 2 ^ ln <= inject_Z n).
  { rewrite <- pow2_inject by exact Hln. rewrite <- Zle_Qle. exact Hn1. }
  assert (Qn2 : inject_Z n < 2 ^ (ln + 1)).
  { rewrite <- pow2_inject by lia. rewrite <- Zlt_Qlt. unfold Z.succ in Hn2. exact Hn2. }
  assert (Qd1 : 2 ^ ld <= inject_Z (Z.pos d)).
  { rewrite <- pow2_inject by exact Hld. rewrite <- Zle_Qle. exact Hd1. }
  assert (Qd2 : inject_Z (Z.pos d) < 2 ^ (ld + 1)).
  { rewrite <- pow2_inject by lia. rewrite <- Zlt_Qlt. unfold Z.succ in Hd2. exact Hd2. }
  destruct (Qle_bool (2 ^ (ln - ld)) (n # d)) eqn:B.
  - apply Qle_bool_iff in B. split; [exact B|].
    rewrite E. apply Qlt_shift_div_r; [exact Hdpos|].
    apply Qlt_le_trans with (2 ^ (ln + 1)); [exact Qn2|].
    replace (ln + 1)%Z with ((ln - ld + 1) + ld)%Z by lia.
    rewrite pow2_plus. apply Qmult_le_l; [apply pow2_pos | exact Qd1].
  - assert (B' : n # d < 2 ^ (ln - ld)).
    { apply Qnot_le_lt. intros H. apply Qle_bool_iff in H. congruence. }
    split.
    + rewrite E. apply Qle_shift_div_l; [exact Hdpos|].
      apply Qle_trans with (2 ^ ln); [|exact Qn1].
      replace ln with ((ln - ld - 1) + (ld + 1))%Z at 2 by lia.
      rewrite pow2_plus. apply Qmult_le_l; [apply pow2_pos|].
      apply Qlt_le_weak. exact Qd2.
    + replace (ln - ld - 1 + 1)%Z with (ln - ld)%Z by lia. exact B'.
Qed.

Lemma Qlog2_mono (a b : Q) : 0 < a -> a <= b -> (Qlog2 a <= Qlog2 b)%Z.
Proof.
  intros Ha Hab.
  assert (Hb : 0 < b) by (apply Qlt_le_trans with a; assumption).
  destruct (Qlog2_spec Ha) as [A1 _]. destruct (Qlog2_spec Hb) as [_ B2].
  assert (H : 2 ^ Qlog2 a < 2 ^ (Qlog2 b + 1)).
  { apply Qle_lt_trans with a; [exact A1|].
    apply Qle_lt_trans with b; assumption. }
  apply pow2_lt_inv in H. lia.
Qed.

Lemma rne_bounds (q : Q) : (Qfloor q <= rne q <= Qfloor q + 1)%Z.
Proof.
  unfold rne. destruct (q - inject_Z (Qfloor q) ?= 1 # 2);
    [destruct (Z.even (Qfloor q))| |]; lia.
Qed.

Lemma rne_comp (a b : Q) : a == b -> rne a = rne b.
Proof.
  intros H. unfold rne. rewrite (Qfloor_comp _ _ H).
  assert (E : a - inject_Z (Qfloor b) == b - inject_Z (Qfloor b))
    by (rewrite H; reflexivity).
  rewrite (Qcompare_comp _ _ E _ _ (Qeq_refl (1 # 2))). reflexivity.
Qed.

Lemma rne_int (n : Z) : rne (inject_Z n) = n.
Proof.
  unfold rne. rewrite Qfloor_Z.
  assert (E : inject_Z n - inject_Z n == 0) by ring.
  rewrite (Qcompare_comp _ _ E _ _ (Qeq_refl (1 # 2))). reflexivity.
Qed.

Lemma rne_mono (a b : Q) : a <= b -> (rne a <= rne b)%Z.
Proof.
  intros H. pose proof (Qfloor_resp_le _ _ H) as Hf.
  pose proof (rne_bounds a) as Ba. pose proof (rne_bounds b) as Bb.
  destruct (Z.eq_dec (Qfloor a) (Qfloor b)) as [E|E]; [|lia].
  unfold rne. rewrite E.
  assert (Hr : a - inject_Z (Qfloor b) <= b - inject_Z (Qfloor b)).
  { apply Qplus_le_l with (inject_Z (Qfloor b)). ring_simplify. exact H. }
  set (x := a - inject_Z (Qfloor b)) in *. set (y := b - inject_Z (Qfloor b)) in *.
  assert (N1 : x == 1 # 2 -> y < 1 # 2 -> False).
  { intros Ex Ey. apply (Qlt_not_le _ _ Ey). apply Qle_trans with x; [|exact Hr].
    apply Qle_lteq. right. symmetry. exact Ex. }
  assert (N2 : 1 # 2 < x -> y < 1 # 2 -> False).
  { intros Ex Ey. apply (Qlt_not_le _ _ Ey). apply Qle_trans with x; [|exact Hr].
    apply Qlt_le_weak. exact Ex. }
  assert (N3 : 1 # 2 < x -> y == 1 # 2 -> False).
  { intros Ex Ey. apply (Qlt_not_le _ _ Ex). apply Qle_trans with y; [exact Hr|].
    apply Qle_lteq. right. exact Ey. }
  destruct (Qcompare_spec x (1 # 2)) as [Ea|Ea|Ea];
    destruct (Qcompare_spec y (1 # 2)) as [Eb|Eb|Eb];
    try destruct (Z.even (Qfloor b)); try lia; exfalso; eauto.
Qed.

Lemma rne_ge (n : Z) (q : Q) : inject_Z n <= q -> (n <= rne q)%Z.
Proof. intros H. rewrite <- (rne_int n). apply rne_mono. exact H. Qed.

Lemma rne_le (n : Z) (q : Q) : q <= inject_Z n -> (rne q <= n)%Z.
Proof. intros H. rewrite <- (rne_int n). apply rne_mono. exact H. Qed.

(** The exponent of the last bit of the double nearest to [q]. *)
Local Abbreviation ulp_exp q := (Z.max (Qlog2 q - 52) (-1074)).

Lemma div_pow2_le (a b : Q) (e : Z) : a <= b -> a / 2 ^ e <= b / 2 ^ e.
Proof.
  intros H. apply Qmult_le_compat_r; [exact H|].
  apply Qlt_le_weak. apply Qinv_lt_0_compat. apply pow2_pos.
Qed.

Lemma nearest_mono (a b : Q) : 0 < a -> a <= b -> nearest a <= nearest b.
Proof.
  intros Ha Hab.
  assert (Hb : 0 < b) by (apply Qlt_le_trans with a; assumption).
  pose proof (Qlog2_mono Ha Hab) as Hl.
  unfold nearest.
  destruct (Z.eq_dec (ulp_exp a) (ulp_exp b)) as [E|E].
  - rewrite E. apply Qmult_le_compat_r; [|apply Qlt_le_weak, pow2_pos].
    rewrite <- Zle_Qle. apply rne_mono. apply div_pow2_le. exact Hab.
  - assert (Hlt : (ulp_exp a < ulp_exp b)%Z) by lia.
    assert (Eb : ulp_exp b = (Qlog2 b - 52)%Z) by lia.
    destruct (Qlog2_spec Ha) as [_ A2]. destruct (Qlog2_spec Hb) as [B1 _].
    apply Qle_trans with (2 ^ 53 * 2 ^ ulp_exp a).
    + apply Qmult_le_compat_r; [|apply Qlt_le_weak, pow2_pos].
      change (2 ^ 53) with (inject_Z (2 ^ 53)). rewrite <- Zle_Qle.
      apply rne_le. apply Qle_shift_div_r; [apply pow2_pos|].
      change (inject_Z (2 ^ 53)) with (2 ^ 53). rewrite <- pow2_plus.
      apply Qlt_le_weak. apply Qlt_le_trans with (2 ^ (Qlog2 a + 1)); [exact A2|].
      apply pow2_le. lia.
    + apply Qle_trans with (2 ^ 52 * 2 ^ ulp_exp b).
      * rewrite <- !pow2_plus. apply pow2_le. lia.
      * apply Qmult_le_compat_r; [|apply Qlt_le_weak, pow2_pos].
        change (2 ^ 52) with (inject_Z (2 ^ 52)). rewrite <- Zle_Qle.
        apply rne_ge. apply Qle_shift_div_l; [apply pow2_pos|].
        change (inject_Z (2 ^ 52)) with (2 ^ 52). rewrite <- pow2_plus.
        apply Qle_trans with (2 ^ Qlog2 b); [|exact B1].
        apply pow2_le. lia.
Qed.

Lemma nearest_nonneg (q : Q) : 0 < q -> 0 <= nearest q.
Proof.
  intros Hq. unfold nearest. apply Qmult_le_0_compat; [|apply Qlt_le_weak, pow2_pos].
  change 0 with (inject_Z 0). rewrite <- Zle_Qle. apply rne_ge.
  apply Qle_shift_div_l; [apply pow2_pos|]. rewrite Qmult_0_l.
  apply Qlt_le_weak. exact Hq.
Qed.

Lemma Qsign_spec (q : Q) :
  match Qsign q with Eq => q == 0 | Lt => q < 0 | Gt => 0 < q end.
Proof.
  unfold Qsign, Qeq, Qlt. destruct q as [n d]. cbn [Qnum Qden].
  destruct (Z.compare_spec n 0); lia.
Qed.

Lemma le_Num (a b : Q) : a <= b -> le (Num a) (Num b) = true.
Proof.
  intros H. unfold le. destruct (Qcompare_spec a b) as [E|E|E]; try reflexivity.
  exfalso. apply (Qlt_not_le _ _ E). exact H.
Qed.

Lemma le_Num_inv (a b : Q) : le (Num a) (Num b) = true -> a <= b.
Proof.
  unfold le. destruct (Qcompare_spec a b) as [E|E|E]; try discriminate; intros _.
  - apply Qle_lteq. right. exact E.
  - apply Qlt_le_weak. exact E.
Qed.

Lemma round64_comp (a b : Q) : a == b -> round64 a = round64 b.
Proof. intros H. unfold round64. rewrite (Qred_complete _ _ H). reflexivity. Qed.

(** Rounding keeps the order. *)
Lemma round64_mono (a b : Q) : a <= b -> le (round64 a) (round64 b) = true.
Proof.
  intros H. apply Qred_le in H. unfold round64.
  set (x := Qred a) in *. set (y := Qred b) in *.
  pose proof (Qsign_spec x) as Hx. pose proof (Qsign_spec y) as Hy.
  destruct (Qsign x), (Qsign y).
  - reflexivity.
  - exfalso. rewrite Hx in H. apply (Qlt_not_le _ _ Hy). exact H.
  - destruct (Qle_bool (2 ^ 1024) (nearest y)); [reflexivity|].
    apply le_Num. rewrite Qred_correct. apply nearest_nonneg. exact Hy.
  - destruct (Qle_bool (2 ^ 1024) (nearest (- x))); [reflexivity|].
    apply le_Num. rewrite Qred_correct.
    apply (Qopp_le_compat 0). apply nearest_nonneg.
    apply (Qopp_lt_compat x 0). exact Hx.
  - assert (Hn : nearest (- y) <= nearest (- x)).
    { apply nearest_mono; [apply (Qopp_lt_compat y 0); exact Hy|].
      apply Qopp_le_compat. exact H. }
    destruct (Qle_bool (2 ^ 1024) (nearest (- x))) eqn:Bx;
      destruct (Qle_bool (2 ^ 1024) (nearest (- y))) eqn:By; try reflexivity.
    + exfalso. apply Qle_bool_iff in By.
      assert (B : Qle_bool (2 ^ 1024) (nearest (- x)) = true)
        by (apply Qle_bool_iff; apply Qle_trans with (nearest (- y)); assumption).
      congruence.
    + apply le_Num. rewrite !Qred_correct. apply Qopp_le_compat. exact Hn.
  - destruct (Qle_bool (2 ^ 1024) (nearest (- x)));
      destruct (Qle_bool (2 ^ 1024) (nearest y)); try reflexivity.
    apply le_Num. rewrite !Qred_correct.
    apply Qle_trans with 0.
    + apply (Qopp_le_compat 0). apply nearest_nonneg. apply (Qopp_lt_compat x 0). exact Hx.
    + apply nearest_nonneg. exact Hy.
  - exfalso. rewrite Hy in H. apply (Qlt_not_le _ _ Hx). exact H.
  - exfalso. apply (Qlt_not_le _ _ Hx). apply Qle_trans with y; [exact H|].
    apply Qlt_le_weak. exact Hy.
  - assert (Hn : nearest x <= nearest y) by (apply nearest_mono; assumption).
    destruct (Qle_bool (2 ^ 1024) (nearest x)) eqn:Bx;
      destruct (Qle_bool (2 ^ 1024) (nearest y)) eqn:By; try reflexivity.
    + exfalso. apply Qle_bool_iff in Bx.
      assert (B : Qle_bool (2 ^ 1024) (nearest y) = true)
        by (apply Qle_bool_iff; apply Qle_trans with (nearest x); assumption).
      congruence.
    + apply le_Num. rewrite !Qred_correct. exact Hn.
Qed.

(** A value between two doubles rounds to a double between them. *)
Lemma round64_between (a b q da db : Q) :
  round64 a = Num da -> round64 b = Num db -> a <= q -> q <= b ->
  exists d, round64 q = Num d /\ da <= d <= db.
Proof.
  intros Ha Hb Haq Hqb.
  pose proof (round64_mono Haq) as H1. pose proof (round64_mono Hqb) as H2.
  rewrite Ha in H1. rewrite Hb in H2.
  destruct (round64 q) as [d| | |]; try discriminate.
  exists d. split; [reflexivity|]. split; apply le_Num_inv; assumption.
Qed.

Lemma Qred_inject_Z (n : Z) : Qred (inject_Z n) = inject_Z n.
Proof.
  unfold Qred, inject_Z.
  pose proof (Z.ggcd_gcd n 1) as Hg.
  pose proof (Z.ggcd_correct_divisors n 1) as Hd.
  destruct (Z.ggcd n 1) as [g [q1 q2]]. cbn [fst snd] in *.
  rewrite Z.gcd_1_r in Hg. subst g. destruct Hd as [H1 H2].
  assert (E1 : q1 = n) by lia. assert (E2 : q2 = 1%Z) by lia.
  rewrite E1, E2. reflexivity.
Qed.

(** The integers up to [2^53] are doubles. *)
Lemma round64_int (n : Z) :
  (0 <= n <= 2 ^ 53)%Z -> round64 (inject_Z n) = Num (inject_Z n).
Proof.
  intros Hn. destruct (Z.eq_dec n 0) as [->|Hn0]; [reflexivity|].
  destruct (Z.eq_dec n (2 ^ 53)) as [->|Hn53]; [vm_compute; reflexivity|].
  unfold round64. rewrite Qred_inject_Z.
  assert (Hpos : 0 < inject_Z n).
  { change 0 with (inject_Z 0). rewrite <- Zlt_Qlt. lia. }
  assert (Hs : Qsign (inject_Z n) = Gt).
  { unfold Qsign. cbn [Qnum inject_Z]. apply Z.compare_gt_iff. lia. }
  rewrite Hs.
  destruct (Qlog2_spec Hpos) as [L1 L2].
  set (l := Qlog2 (inject_Z n)) in *.
  assert (Hl0 : (0 <= l)%Z).
  { assert (H : 2 ^ 0 < 2 ^ (l + 1)).
    { apply Qle_lt_trans with (inject_Z n); [|exact L2].
      change (2 ^ 0) with (inject_Z 1). rewrite <- Zle_Qle. lia. }
    apply pow2_lt_inv in H. lia. }
  assert (Hl52 : (l <= 52)%Z).
  { assert (H : 2 ^ l < 2 ^ 53).
    { apply Qle_lt_trans with (inject_Z n); [exact L1|].
      change (2 ^ 53) with (inject_Z (2 ^ 53)). rewrite <- Zlt_Qlt. lia. }
    apply pow2_lt_inv in H. lia. }
  assert (Hv : nearest (inject_Z n) == inject_Z n).
  { unfold nearest. fold l. rewrite Z.max_l by lia.
    assert (E : inject_Z n / 2 ^ (l - 52) == inject_Z (n * 2 ^ (52 - l))).
    { rewrite inject_Z_mult, pow2_inject by lia.
      replace (l - 52)%Z with (- (52 - l))%Z by lia.
      rewrite Qpower_opp. unfold Qdiv. rewrite Qinv_involutive. reflexivity. }
    rewrite (rne_comp E), rne_int.
    rewrite inject_Z_mult, pow2_inject by lia.
    rewrite <- Qmult_assoc, <- pow2_plus.
    replace (52 - l + (l - 52))%Z with 0%Z by lia.
    change (2 ^ 0) with 1. apply Qmult_1_r. }
  destruct (Qle_bool (2 ^ 1024) (nearest (inject_Z n))) eqn:B.
  - exfalso. apply Qle_bool_iff in B. rewrite Hv in B.
    change (2 ^ 1024) with (inject_Z (2 ^ 1024)) in B. rewrite <- Zle_Qle in B.
    assert ((2 ^ 53 < 2 ^ 1024)%Z) by (apply Z.pow_lt_mono_r; lia). lia.
  - f_equal. transitivity (Qred (inject_Z n));
      [apply Qred_complete; exact Hv | apply Qred_inject_Z].
Qed.

(** ** The operations *)

Lemma lt_Num (a b : Q) : a < b -> lt (Num a) (Num b) = true.
Proof.
  intros H. unfold lt. destruct (Qcompare_spec a b) as [E|E|E]; try reflexivity.
  - exfalso. rewrite E in H. apply (Qlt_irrefl _ H).
  - exfalso. apply (Qlt_irrefl a). eapply Qlt_trans; eassumption.
Qed.

Lemma Qsign_inject_Z (z : Z) : Qsign (inject_Z z) = (z ?= 0)%Z.
Proof. reflexivity. Qed.

Lemma Qsign_pos (b : Q) : 0 < b -> Qsign b = Gt.
Proof.
  intros H. unfold Qsign. apply Z.compare_gt_iff.
  unfold Qlt in H. simpl in H. lia.
Qed.

Lemma div_Num_pos (a b : Q) : 0 < b -> div (Num a) (Num b) = round64 (a / b).
Proof. intros H. unfold div. rewrite (Qsign_pos H). reflexivity. Qed.

Lemma div_of_Z_pos (c m : Z) :
  (0 < m)%Z -> div (of_Z c) (of_Z m) = round64 (inject_Z c / inject_Z m).
Proof.
  intros Hm. unfold of_Z. apply div_Num_pos.
  change 0 with (inject_Z 0). rewrite <- Zlt_Qlt. exact Hm.
Qed.

Lemma inject_Z_pos_neq0 (m : Z) : (0 < m)%Z -> ~ inject_Z m == 0.
Proof.
  intros Hm H. unfold Qeq in H. simpl in H. lia.
Qed.

(** A part of a positive whole, as a double: between 0 and 1. *)
Lemma ratio_rounds (c m : Z) :
  (0 <= c <= m)%Z -> (0 < m)%Z ->
  exists ratio,
    round64 (inject_Z c / inject_Z m) = Num ratio /\ 0 <= ratio <= 1.
Proof.
  intros Hc Hm.
  assert (Hm' : 0 < inject_Z m).
  { change (inject_Z 0 < inject_Z m). rewrite <- Zlt_Qlt. exact Hm. }
  apply (@round64_between 0 1); try reflexivity.
  - apply Qle_shift_div_l; [exact Hm'|].
    rewrite Qmult_0_l. change (inject_Z 0 <= inject_Z c). rewrite <- Zle_Qle. lia.
  - apply Qle_shift_div_r; [exact Hm'|].
    rewrite Qmult_1_l. rewrite <- Zle_Qle. lia.
Qed.

(** The score expression of the tasks, for a count that is part of a
    positive whole: the quotient rounded, then the product rounded. *)
Lemma score_value (c m : Z) :
  (0 <= c <= m)%Z -> (0 < m)%Z ->
  exists ratio,
    round64 (inject_Z c / inject_Z m) = Num ratio /\ 0 <= ratio <= 1 /\
    mul (div (of_Z c) (of_Z m)) (of_Z 100) = round64 (ratio * 100).
Proof.
  intros Hc Hm. destruct (ratio_rounds Hc Hm) as [ratio [E B]].
  exists ratio. split; [exact E|]. split; [exact B|].
  rewrite div_of_Z_pos by exact Hm. rewrite E. reflexivity.
Qed.

Lemma score_of_max (m : Z) :
  (0 < m)%Z -> mul (div (of_Z m) (of_Z m)) (of_Z 100) = of_Z 100.
Proof.
  intros Hm. rewrite div_of_Z_pos by exact Hm.
  assert (E : inject_Z m / inject_Z m == 1).
  { field. apply inject_Z_pos_neq0. exact Hm. }
  rewrite (round64_comp E). vm_compute. reflexivity.
Qed.

Lemma score_bounds (c m : Z) :
  (0 <= c <= m)%Z -> (0 < m)%Z ->
  le (of_Z 0) (mul (div (of_Z c) (of_Z m)) (of_Z 100)) = true /\
  le (mul (div (of_Z c) (of_Z m)) (of_Z 100)) (of_Z 100) = true.
Proof.
  intros Hc Hm. destruct (score_value Hc Hm) as [ratio [_ [[B0 B1] ->]]].
  assert (H : exists d, round64 (ratio * 100) = Num d /\ 0 <= d <= 100).
  { apply (@round64_between 0 100); try reflexivity.
    - change 0 with (0 * 100). apply Qmult_le_compat_r; [exact B0|discriminate].
    - change 100 with (1 * 100) at 2. apply Qmult_le_compat_r; [exact B1|discriminate]. }
  destruct H as [d [-> [D0 D1]]]. unfold of_Z.
  split; apply le_Num; assumption.
Qed.

End NumberFacts.

(** The operations of the model against the machine's doubles, on the
    values the properties below name: 85/150*100 is 56.666666666666664,
    23/40*100 is 57.49999999999999, 2/3 is 0.6666666666666666, and
    2^53 + 1 is 2^53. *)
Example binary64_scenario_scores :
  Binary64.number_of (Binary64.score 150 150)
  = mul (div (of_Z 150) (of_Z 150)) (of_Z 100) /\
  Binary64.number_of (Binary64.score 85 150)
  = mul (div (of_Z 85) (of_Z 150)) (of_Z 100) /\
  Binary64.number_of (Binary64.score 45 150)
  = mul (div (of_Z 45) (of_Z 150)) (of_Z 100) /\
  Binary64.number_of (Binary64.score 23 40)
  = mul (div (of_Z 23) (of_Z 40)) (of_Z 100) /\
  Binary64.number_of (Binary64.collaborationScore 2 3)
  = div (of_Z 2) (of_Z 3) /\
  Binary64.number_of (Binary64.collaborationScore 3 4)
  = div (of_Z 3) (of_Z 4) /\
  Binary64.number_of (Binary64.confidence 15 2)
  = div (of_Z 15) (add (of_Z 15) (of_Z 2)) /\
  Binary64.number_of (Binary64.confidence (2 ^ 53) 1)
  = div (of_Z (2 ^ 53)) (add (of_Z (2 ^ 53)) (of_Z 1)) /\
  Binary64.number_of (Binary64.confidence (2 ^ 53) 1) = of_Z 1.
Proof. vm_compute. repeat split. Qed.

(* ================================================================== *)
(** * [Array.prototype.sort] with a descending-key comparator *)
(* ================================================================== *)

Section SortFacts.

Variable A : Type.
Variable key : A -> Z.

Local Abbreviation cmp := (desc key).
Local Abbreviation before := (fun a b : A => (cmp a b <= 0)%Z).
Local Abbreviation tied z := (fun y : A => (cmp z y =? 0)%Z).

Lemma insert_perm (x : A) (l : list A) :
  Permutation (x :: l) (insert cmp x l).
Proof.
  induction l as [|y l IH]; simpl.
  - apply Permutation_refl.
  - destruct (cmp x y <=? 0)%Z.
    + apply Permutation_refl.
    + eapply perm_trans; [apply perm_swap|]. apply perm_skip. exact IH.
Qed.

Lemma sort_perm (l : list A) : Permutation l (sort cmp l).
Proof.
  induction l as [|x l IH]; simpl.
  - constructor.
  - eapply perm_trans; [apply perm_skip; exact IH|]. apply insert_perm.
Qed.

Lemma insert_sorted (x : A) (l : list A) :
  StronglySorted before l -> StronglySorted before (insert cmp x l).
Proof.
  induction 1 as [|y l Hs IH Hy]; simpl.
  - repeat constructor.
  - destruct (Z.leb_spec (cmp x y) 0) as [Hxy|Hxy].
    + constructor; [constructor; assumption|].
      constructor; [exact Hxy|].
      eapply Forall_impl; [|exact Hy]. unfold desc in *. intros; simpl in *; lia.
    + constructor; [exact IH|].
      eapply Permutation_Forall; [apply insert_perm|].
      constructor; [unfold desc in *; lia | exact Hy].
Qed.

Lemma sort_sorted (l : list A) : StronglySorted before (sort cmp l).
Proof.
  induction l as [|x l IH]; simpl.
  - constructor.
  - apply insert_sorted. exact IH.
Qed.

Lemma insert_stable (z x : A) (l : list A) :
  filter (tied z) (insert cmp x l) = filter (tied z) (x :: l).
Proof.
  induction l as [|y l IH].
  - reflexivity.
  - simpl insert. destruct (Z.leb_spec (cmp x y) 0) as [Hxy|Hxy].
    + reflexivity.
    + change (filter (tied z) (y :: insert cmp x l))
        with (if (cmp z y =? 0)%Z then y :: filter (tied z) (insert cmp x l)
              else filter (tied z) (insert cmp x l)).
      rewrite IH. simpl.
      destruct (Z.eqb_spec (cmp z y) 0) as [Hy|Hy];
        destruct (Z.eqb_spec (cmp z x) 0) as [Hx|Hx];
        try reflexivity.
      unfold desc in *. lia.
Qed.

Lemma sort_stable (z : A) (l : list A) :
  filter (tied z) (sort cmp l) = filter (tied z) l.
Proof.
  induction l as [|x l IH].
  - reflexivity.
  - simpl sort. rewrite insert_stable. simpl. rewrite IH. reflexivity.
Qed.

(** The insertion sort is one of the sorts the language allows. *)
Lemma sort_meets_contract (l : list A) : sort_contract cmp l (sort cmp l).
Proof.
  constructor.
  - apply sort_perm.
  - apply sort_sorted.
  - intros z. apply sort_stable.
Qed.

Lemma sorted_head_max (x : A) (l : list A) :
  StronglySorted before (x :: l) -> forall y, In y (x :: l) -> (key y <= key x)%Z.
Proof.
  intros Hs y [->|Hy]; [lia|].
  inversion Hs as [|? ? _ Hall]; subst.
  rewrite Forall_forall in Hall. specialize (Hall y Hy). unfold desc in Hall. lia.
Qed.

(** Two sorted arrangements that keep the order of tied elements are the
    same list. *)
Lemma sorted_stable_eq (l1 : list A) :
  forall l2,
    StronglySorted before l1 -> StronglySorted before l2 ->
    (forall z, filter (tied z) l1 = filter (tied z) l2) ->
    l1 = l2.
Proof.
  induction l1 as [|x l1 IH]; intros [|y l2] H1 H2 Hf.
  - reflexivity.
  - specialize (Hf y). simpl in Hf. unfold desc in Hf.
    rewrite Z.sub_diag in Hf. discriminate.
  - specialize (Hf x). simpl in Hf. unfold desc in Hf.
    rewrite Z.sub_diag in Hf. discriminate.
  - assert (Hxy : key x = key y).
    { assert (Hx : In x (y :: l2)).
      { pose proof (Hf x) as E.
        assert (Hin : In x (filter (tied x) (x :: l1))).
        { apply filter_In. split; [left; reflexivity|].
          unfold desc. apply Z.eqb_eq. lia. }
        rewrite E in Hin. apply filter_In in Hin. tauto. }
      assert (Hy : In y (x :: l1)).
      { pose proof (Hf y) as E.
        assert (Hin : In y (filter (tied y) (y :: l2))).
        { apply filter_In. split; [left; reflexivity|].
          unfold desc. apply Z.eqb_eq. lia. }
        rewrite <- E in Hin. apply filter_In in Hin. tauto. }
      pose proof (@sorted_head_max _ _ H2 x Hx).
      pose proof (@sorted_head_max _ _ H1 y Hy). lia. }
    assert (Hhead : x = y).
    { pose proof (Hf x) as E. simpl in E. unfold desc in E.
      rewrite <- Hxy, Z.sub_diag in E. simpl in E. congruence. }
    subst y. f_equal.
    inversion H1; inversion H2; subst.
    apply IH; try assumption.
    intros z. pose proof (Hf z) as E. simpl in E.
    destruct (cmp z x =? 0)%Z; congruence.
Qed.

(** Whatever sort the engine runs, the result is the one [sort] gives. *)
Lemma sort_contract_unique (l l' : list A) :
  sort_contract cmp l l' -> l' = sort cmp l.
Proof.
  intros [_ Hs Hst].
  apply sorted_stable_eq.
  - exact Hs.
  - apply sort_sorted.
  - intros z. rewrite Hst, sort_stable. reflexivity.
Qed.

(** Sorting leaves a list as it is exactly when it is already in order. *)
Lemma sort_fixed_iff (l : list A) :
  sort cmp l = l <-> StronglySorted before l.
Proof.
  split.
  - intros E. rewrite <- E. apply sort_sorted.
  - intros Hs. symmetry. apply sort_contract_unique.
    constructor; [apply Permutation_refl | exact Hs | reflexivity].
Qed.

Lemma sort_length (l : list A) : List.length (sort cmp l) = List.length l.
Proof. symmetry. apply Permutation_length, sort_perm. Qed.

Lemma sort_nonempty (l : list A) :
  l <> [] -> exists top rest, sort cmp l = top :: rest.
Proof.
  intros Hl. destruct (sort cmp l) as [|top rest] eqn:E.
  - apply (f_equal (@List.length A)) in E. rewrite sort_length in E.
    destruct l; [contradiction | discriminate].
  - eauto.
Qed.

(** The first element of the sorted array has the largest key. *)
Lemma sort_head_max (l : list A) (top : A) (rest : list A) :
  sort cmp l = top :: rest ->
  In top l /\ forall y, In y l -> (key y <= key top)%Z.
Proof.
  intros E. split.
  - apply (Permutation_in top (Permutation_sym (sort_perm l))).
    rewrite E. left. reflexivity.
  - intros y Hy. apply (@sorted_head_max top rest).
    + rewrite <- E. apply sort_sorted.
    + rewrite <- E. apply (Permutation_in y (sort_perm l)). exact Hy.
Qed.

End SortFacts.

Section StableByKey.

Variable A : Type.
Variable key : A -> Z.

Lemma insert_keeps_key_class (n : Z) (x : A) (l : list A) :
  filter (fun y => (key y =? n)%Z) (insert (desc key) x l)
  = filter (fun y => (key y =? n)%Z) (x :: l).
Proof.
  induction l as [|y l IH].
  - reflexivity.
  - simpl insert. destruct (Z.leb_spec (desc key x y) 0) as [Hxy|Hxy].
    + reflexivity.
    + cbn [filter] in *. rewrite IH.
      destruct (Z.eqb_spec (key y) n) as [Hy|Hy];
        destruct (Z.eqb_spec (key x) n) as [Hx|Hx];
        try reflexivity.
      unfold desc in Hxy. lia.
Qed.

(** Elements with the same key leave the sort in the order they came in. *)
Lemma sort_keeps_key_class (n : Z) (l : list A) :
  filter (fun y => (key y =? n)%Z) (sort (desc key) l)
  = filter (fun y => (key y =? n)%Z) l.
Proof.
  induction l as [|x l IH].
  - reflexivity.
  - simpl sort. rewrite insert_keeps_key_class. cbn [filter]. rewrite IH. reflexivity.
Qed.

Lemma sorted_desc_by_key (l : list A) :
  StronglySorted (fun a b => (key b <= key a)%Z) (sort (desc key) l).
Proof.
  pose proof (sort_sorted key l) as H.
  induction H as [|x s Hs IH Hx]; constructor.
  - exact IH.
  - eapply Forall_impl; [|exact Hx]. unfold desc. simpl. intros; lia.
Qed.

End StableByKey.

(* ================================================================== *)
(** * Expert identification ([StarterEval.task]) *)
(* ================================================================== *)

Section ExpertIdentification.

Import StarterEval.

Lemma fold_left_max_spec (rest : list Z) :
  forall c,
    In (fold_left Z.max rest c) (c :: rest) /\
    forall y, In y (c :: rest) -> (y <= fold_left Z.max rest c)%Z.
Proof.
  induction rest as [|r rest IH]; intros c; simpl.
  - split; [left; reflexivity|]. intros y [->|[]]. lia.
  - destruct (IH (Z.max c r)) as [Hin Hge]. split.
    + destruct Hin as [E|Hin].
      * rewrite <- E. destruct (Z.max_spec c r) as [[_ ->]|[_ ->]]; auto.
      * right; right; exact Hin.
    + intros y [->|[->|Hy]].
      * specialize (Hge (Z.max y r) (or_introl eq_refl)). lia.
      * specialize (Hge (Z.max c y) (or_introl eq_refl)). lia.
      * apply Hge. right. exact Hy.
Qed.

Lemma maxContributions_spec (counts : list Z) :
  counts <> [] ->
  In (Spec.maxContributions counts) counts /\
  forall y, In y counts -> (y <= Spec.maxContributions counts)%Z.
Proof.
  destruct counts as [|c rest]; [congruence|]. intros _.
  apply fold_left_max_spec.
Qed.

(** [sorted[0].commits] is the largest commit count of the input. *)
Lemma top_commits_max (contributors : list Contributor) top rest :
  sort by_commits_desc contributors = top :: rest ->
  commits top = Spec.maxContributions (map commits contributors).
Proof.
  intros E.
  destruct (@sort_head_max _ commits contributors top rest E) as [Hin Hmax].
  assert (Hne : map commits contributors <> []).
  { destruct contributors; [destruct Hin | discriminate]. }
  destruct (maxContributions_spec Hne) as [Hin' Hmax'].
  apply in_map_iff in Hin'. destruct Hin' as [c [Hc Hcin]].
  specialize (Hmax c Hcin).
  specialize (Hmax' (commits top) (in_map commits _ _ Hin)). lia.
Qed.

(** With at least one contributor the task returns, and its output is laid
    out along the sorted array. *)
Lemma task_returns (contributors : list Contributor) :
  contributors <> [] ->
  exists top rest,
    sort by_commits_desc contributors = top :: rest /\
    task contributors =
    Return {| topExpert := name top;
              totalExperts := List.length contributors;
              expertiseScores :=
                map (fun c => {| score_name := name c;
                                 score := mul (div (of_Z (commits c)) (of_Z (commits top)))
                                              (of_Z 100) |})
                    (top :: rest) |}.
Proof.
  intros Hne.
  destruct (@sort_nonempty _ commits contributors Hne) as [top [rest E]].
  exists top, rest. split; [exact E|].
  unfold task, task_body.
  change (sort by_commits_desc contributors) with (sort (desc commits) contributors).
  rewrite E. reflexivity.
Qed.

Lemma all_positive_max_positive (contributors : list Contributor) :
  contributors <> [] ->
  Forall (fun c => (1 <= commits c)%Z) contributors ->
  (1 <= Spec.maxContributions (map commits contributors))%Z.
Proof.
  intros Hne Hall.
  destruct contributors as [|c0 rest]; [congruence|].
  assert (Hne' : map commits (c0 :: rest) <> []) by discriminate.
  destruct (maxContributions_spec Hne') as [_ Hmax].
  specialize (Hmax (commits c0) (or_introl eq_refl)).
  inversion Hall; subst. lia.
Qed.

End ExpertIdentification.

Section ExpertIdentificationClaims.

Import StarterEval.

(** C1, as the specification states it, fails on the eval's own test case:
    the 85-commit contributor scores 56.666666666666664, where
    [round(100 * 85 / 150)] is 57. *)
Lemma expertise_percent_not_rounded :
  exists out,
    task scenario = Return out /\
    nth_error (expertiseScores out) 1
      = Some {| score_name := "Bob Engineer";
                score := Num (7975124340135253 # 140737488355328) |} /\
    Spec.expertisePercent 85 (Spec.maxContributions (map commits scenario)) = Num 57 /\
    Num (7975124340135253 # 140737488355328) <> Num 57.
Proof.
  eexists. split; [vm_compute; reflexivity|]. split; [reflexivity|].
  split; [vm_compute; reflexivity|]. discriminate.
Qed.

(** C1 (amended): for every non-empty set of contributors the task returns
    one score per contributor, in descending order of commits, and the score
    is [(commits / maxContributions) * 100] as the doubles give it, with no
    rounding to an integer; when the counts are at least 1 this is the
    quotient rounded to a double between 0 and 1, then the product rounded.
    For contributors with 150, 85 and 45 commits the 150-commit contributor
    is first at 100 and the 45-commit contributor third at 30 (the second
    scores 56.666666666666664).  Rounding a score afterwards does not give
    the specification's percent either: with 40 and 23 commits the second
    score is 57.49999999999999, which [Math.round] takes to 57, where
    [round(100 * 23 / 40)] is 58. *)
Theorem expertise_scores_unrounded :
  (forall contributors : list Contributor,
      contributors <> [] ->
      let maxC := Spec.maxContributions (map commits contributors) in
      exists out,
        task contributors = Return out /\
        expertiseScores out
        = map (fun c => {| score_name := name c;
                           score := mul (div (of_Z (commits c)) (of_Z maxC))
                                        (of_Z 100) |})
              (sort by_commits_desc contributors) /\
        Permutation contributors (sort by_commits_desc contributors) /\
        StronglySorted (fun a b => (commits b <= commits a)%Z)
                       (sort by_commits_desc contributors) /\
        (Forall (fun c => (1 <= commits c)%Z) contributors ->
         forall c, In c contributors ->
                   exists ratio,
                     round64 (inject_Z (commits c) / inject_Z maxC) = Num ratio /\
                     (0 <= ratio <= 1)%Q /\
                     mul (div (of_Z (commits c)) (of_Z maxC)) (of_Z 100)
                     = round64 (ratio * 100)))
  /\ task scenario
     = Return {| topExpert := "Alice Dev";
                 totalExperts := 3;
                 expertiseScores :=
                   [ {| score_name := "Alice Dev"; score := Num 100 |};
                     {| score_name := "Bob Engineer";
                        score := Num (7975124340135253 # 140737488355328) |};
                     {| score_name := "Charlie Coder"; score := Num 30 |} ] |}
  /\ task [ {| name := "Dana Ops"; commits := 40 |};
            {| name := "Evan Test"; commits := 23 |} ]
     = Return {| topExpert := "Dana Ops";
                 totalExperts := 2;
                 expertiseScores :=
                   [ {| score_name := "Dana Ops"; score := Num 100 |};
                     {| score_name := "Evan Test";
                        score := Num (8092405580431359 # 140737488355328) |} ] |}
  /\ Math_round (Num (8092405580431359 # 140737488355328)) = Num 57
  /\ Spec.expertisePercent 23 40 = Num 58.
Proof.
  split; [|vm_compute; repeat split].
  intros contributors Hne maxC.
  destruct (task_returns Hne) as [top [rest [E Ht]]].
  pose proof (top_commits_max _ E) as Hmax.
  destruct (@sort_head_max _ commits contributors top rest E) as [_ Hge].
  fold maxC in Hmax.
  eexists. split; [exact Ht|]. cbn [expertiseScores].
  split; [|split; [|split]].
  - rewrite E, Hmax. reflexivity.
  - apply (sort_perm commits).
  - apply (sorted_desc_by_key commits).
  - intros Hall c Hc.
    pose proof (all_positive_max_positive Hne Hall) as Hpos. fold maxC in Hpos.
    rewrite Forall_forall in Hall. specialize (Hall c Hc).
    specialize (Hge c Hc). rewrite Hmax in Hge.
    assert (Hc' : (0 <= commits c <= maxC)%Z) by lia.
    assert (Hm : (0 < maxC)%Z) by lia.
    exact (score_value Hc' Hm).
Qed.

Lemma expertise_scores_unrounded_witness :
  scenario <> [] /\
  Forall (fun c => (1 <= commits c)%Z) scenario /\
  exists out,
    task scenario = Return out /\
    expertiseScores out
    = map (fun c => {| score_name := name c;
                       score := mul (div (of_Z (commits c))
                                         (of_Z (Spec.maxContributions
                                                  (map commits scenario))))
                                    (of_Z 100) |})
          (sort by_commits_desc scenario) /\
    Permutation scenario (sort by_commits_desc scenario) /\
    StronglySorted (fun a b => (commits b <= commits a)%Z)
                   (sort by_commits_desc scenario) /\
    (forall c, In c scenario ->
               exists ratio,
                 round64 (inject_Z (commits c)
                          / inject_Z (Spec.maxContributions (map commits scenario)))
                 = Num ratio /\
                 (0 <= ratio <= 1)%Q /\
                 mul (div (of_Z (commits c))
                          (of_Z (Spec.maxContributions (map commits scenario))))
                     (of_Z 100)
                 = round64 (ratio * 100)).
Proof.
  assert (Hne : scenario <> []) by discriminate.
  assert (Hall : Forall (fun c => (1 <= commits c)%Z) scenario).
  { repeat constructor; simpl; lia. }
  split; [exact Hne|]. split; [exact Hall|].
  destruct (proj1 expertise_scores_unrounded scenario Hne)
    as [out [H1 [H2 [H3 [H4 H5]]]]].
  exists out.
  exact (conj H1 (conj H2 (conj H3 (conj H4 (H5 Hall))))).
Defined.

(** C2 (amended): for every non-empty set of contributors whose commit
    counts are all at least 1, every score lies between 0 and 100, every
    contributor with the maximal commit count scores exactly 100, so some
    contributor does, and a lone contributor scores 100. *)
Theorem expertise_scores_bounded (contributors : list Contributor) :
  contributors <> [] ->
  Forall (fun c => (1 <= commits c)%Z) contributors ->
  exists out,
    task contributors = Return out /\
    Forall (fun s => le (of_Z 0) (score s) = true /\ le (score s) (of_Z 100) = true)
           (expertiseScores out) /\
    (forall c, In c contributors ->
               commits c = Spec.maxContributions (map commits contributors) ->
               In {| score_name := name c; score := of_Z 100 |} (expertiseScores out)) /\
    (exists s, In s (expertiseScores out) /\ score s = of_Z 100) /\
    (forall c, contributors = [c] ->
               expertiseScores out = [ {| score_name := name c; score := of_Z 100 |} ]).
Proof.
  intros Hne Hall.
  destruct (task_returns Hne) as [top [rest [E Ht]]].
  pose proof (top_commits_max _ E) as Hmax.
  pose proof (all_positive_max_positive Hne Hall) as Hpos.
  destruct (@sort_head_max _ commits contributors top rest E) as [Htop Hge].
  assert (Hperm : Permutation contributors (top :: rest)).
  { rewrite <- E. apply (sort_perm commits). }
  eexists. split; [exact Ht|]. cbn [expertiseScores].
  split; [|split; [|split]].
  - apply Forall_forall. intros s Hs.
    apply in_map_iff in Hs. destruct Hs as [c [<- Hc]]. simpl.
    assert (Hc' : In c contributors)
      by (apply (Permutation_in c (Permutation_sym Hperm)); exact Hc).
    rewrite Forall_forall in Hall.
    apply score_bounds.
    + split; [specialize (Hall c Hc'); lia | apply Hge; exact Hc'].
    + lia.
  - intros c Hc Hcmax.
    apply in_map_iff. exists c. split.
    + f_equal. rewrite Hcmax, <- Hmax. apply score_of_max. lia.
    + apply (Permutation_in c Hperm). exact Hc.
  - eexists. split; [left; reflexivity|]. simpl. apply score_of_max. lia.
  - intros c ->. simpl in E. injection E as <- <-. cbn [map].
    rewrite score_of_max by lia. reflexivity.
Qed.

Lemma expertise_scores_bounded_witness :
  scenario <> [] /\
  Forall (fun c => (1 <= commits c)%Z) scenario /\
  exists out,
    task scenario = Return out /\
    Forall (fun s => le (of_Z 0) (score s) = true /\ le (score s) (of_Z 100) = true)
           (expertiseScores out) /\
    (forall c, In c scenario ->
               commits c = Spec.maxContributions (map commits scenario) ->
               In {| score_name := name c; score := of_Z 100 |} (expertiseScores out)) /\
    (exists s, In s (expertiseScores out) /\ score s = of_Z 100) /\
    (forall c, scenario = [c] ->
               expertiseScores out = [ {| score_name := name c; score := of_Z 100 |} ]).
Proof.
  assert (Hne : scenario <> []) by discriminate.
  assert (Hall : Forall (fun c => (1 <= commits c)%Z) scenario).
  { repeat constructor; simpl; lia. }
  split; [exact Hne|]. split; [exact Hall|].
  exact (expertise_scores_bounded Hne Hall).
Defined.

(** C2, as the specification states it, fails for a non-empty set whose
    largest commit count is 0: a lone contributor with no commit scores
    [NaN] (0 / 0 * 100), which is neither between 0 and 100 nor 100. *)
Example zero_commits_score_NaN :
  task [ {| name := "Nobody"; commits := 0 |} ]
  = Return {| topExpert := "Nobody";
              totalExperts := 1;
              expertiseScores := [ {| score_name := "Nobody"; score := NaN |} ] |} /\
  le (of_Z 0) NaN = false /\
  le NaN (of_Z 100) = false /\
  NaN <> of_Z 100.
Proof. repeat split. discriminate. Qed.

(** C3, as the specification states it, fails: with no contributor the task
    throws, but what it throws is the [TypeError] of reading [sorted[0].name],
    not an [EmptyActivityError]. *)
Lemma empty_input_throws_TypeError :
  task [] = Throw (TypeError_undefined "name") /\
  err_name (TypeError_undefined "name") = "TypeError" /\
  err_name (TypeError_undefined "name") <> "EmptyActivityError".
Proof.
  split; [reflexivity|]. split; [reflexivity|]. discriminate.
Qed.

(** C3 (amended): with zero contributors the task throws (a [TypeError])
    and returns nothing; with at least one contributor it returns an output
    with all three fields set: the name of a contributor with the largest
    commit count, the number of contributors, and one score per
    contributor. *)
Theorem task_throws_only_on_empty :
  (exists e, task [] = Throw e /\ err_name e = "TypeError") /\
  (forall contributors : list Contributor,
      contributors <> [] ->
      exists out top,
        task contributors = Return out /\
        In top contributors /\
        (forall c, In c contributors -> (commits c <= commits top)%Z) /\
        topExpert out = name top /\
        totalExperts out = List.length contributors /\
        List.length (expertiseScores out) = List.length contributors).
Proof.
  split.
  - eexists. split; reflexivity.
  - intros contributors Hne.
    destruct (task_returns Hne) as [top [rest [E Ht]]].
    destruct (@sort_head_max _ commits contributors top rest E) as [Htop Hge].
    eexists. exists top. split; [exact Ht|]. simpl.
    repeat split; try assumption.
    rewrite length_map. f_equal.
    change (S (List.length rest)) with (List.length (top :: rest)).
    rewrite <- E. apply (sort_length commits).
Qed.

Lemma task_throws_only_on_empty_witness :
  scenario <> [] /\
  exists out top,
    task scenario = Return out /\
    In top scenario /\
    (forall c, In c scenario -> (commits c <= commits top)%Z) /\
    topExpert out = name top /\
    totalExperts out = List.length scenario /\
    List.length (expertiseScores out) = List.length scenario.
Proof.
  assert (Hne : scenario <> []) by discriminate.
  split; [exact Hne|].
  exact (proj2 task_throws_only_on_empty scenario Hne).
Defined.

(** Any run of the task ends the way the model's run does. *)
Lemma task_run_is_task (contributors : list Contributor) out :
  task_run contributors out -> out = task contributors.
Proof.
  intros [sorted [Hc ->]]. unfold task.
  rewrite (sort_contract_unique Hc). reflexivity.
Qed.

(** The task always has a run. *)
Lemma task_run_total (contributors : list Contributor) :
  task_run contributors (task contributors).
Proof.
  exists (sort by_commits_desc contributors). split; [|reflexivity].
  apply (sort_meets_contract commits).
Qed.

(** C8: two runs of the task on the same input end alike, whichever stable
    sort the engine uses: both return structurally equal outputs, or both
    throw the same error. *)
Theorem task_deterministic (contributors : list Contributor) out1 out2 :
  task_run contributors out1 -> task_run contributors out2 -> out1 = out2.
Proof.
  intros H1 H2.
  rewrite (task_run_is_task H1), (task_run_is_task H2). reflexivity.
Qed.

Lemma task_deterministic_witness :
  task_run scenario (task_body scenario scenario) /\
  task_run scenario (task scenario) /\
  task_body scenario scenario = task scenario.
Proof.
  assert (H1 : task_run scenario (task_body scenario scenario)).
  { exists scenario. split; [|reflexivity]. constructor.
    - apply Permutation_refl.
    - repeat constructor; unfold by_commits_desc; simpl; lia.
    - reflexivity. }
  assert (H2 : task_run scenario (task scenario)) by apply task_run_total.
  split; [exact H1|]. split; [exact H2|].
  exact (task_deterministic H1 H2).
Defined.

End ExpertIdentificationClaims.

(* ================================================================== *)
(** * The report generator *)
(* ================================================================== *)

Section ReportGeneratorFacts.

Import ReportGenerator.

(** The metric read is the analysis's own when it is there. *)
Lemma riskScore_or_0_present a m d r :
  teamHealthMetrics a = Some m -> knowledgeDistribution m = Some d ->
  riskScore d = Some r -> riskScore_or_0 a = r.
Proof. intros H1 H2 H3. unfold riskScore_or_0. rewrite H1, H2, H3. reflexivity. Qed.

Lemma sharingScore_or_0_present a m c s :
  teamHealthMetrics a = Some m -> collaborationMetrics m = Some c ->
  knowledgeSharing c = Some s -> sharingScore_or_0 a = s.
Proof. intros H1 H2 H3. unfold sharingScore_or_0. rewrite H1, H2, H3. reflexivity. Qed.




(** What [generateAnalysisSummary] leaves behind: the same analysis with its
    profiles sorted. *)
Lemma generateAnalysisSummary_state (a : ExpertiseAnalysis) :
  snd (generateAnalysisSummary a)
  = set_expertProfiles a (sort by_contributions_desc (expertProfiles a)).
Proof.
  unfold generateAnalysisSummary.
  destruct (sort by_contributions_desc (expertProfiles a)); reflexivity.
Qed.

Section WithClock.

Variables (today now : string) (calculateDaysAgo : string -> string).

Local Abbreviation report := (generateHTMLReport today now calculateDaysAgo).

Lemma generateHTMLReport_state (a : ExpertiseAnalysis) :
  snd (report a)
  = set_expertProfiles a (sort by_contributions_desc (expertProfiles a)).
Proof.
  unfold generateHTMLReport.
  rewrite <- generateAnalysisSummary_state.
  destruct (generateAnalysisSummary a). reflexivity.
Qed.

(** The report touches nothing but the order of the profiles. *)
Lemma generateHTMLReport_frame (a : ExpertiseAnalysis) :
  let a' := snd (report a) in
  repository a' = repository a /\
  totalFiles a' = totalFiles a /\
  fileExpertise a' = fileExpertise a /\
  managementInsights a' = managementInsights a /\
  teamHealthMetrics a' = teamHealthMetrics a /\
  Permutation (expertProfiles a) (expertProfiles a').
Proof.
  cbv zeta. rewrite generateHTMLReport_state. simpl.
  repeat split. apply (sort_perm contributions).
Qed.

(** The analysis survives a report unchanged exactly when its profiles were
    already in descending order of contributions. *)
Lemma generateHTMLReport_keeps_iff (a : ExpertiseAnalysis) :
  snd (report a) = a <->
  StronglySorted (fun x y => (contributions y <= contributions x)%Z) (expertProfiles a).
Proof.
  rewrite generateHTMLReport_state.
  assert (Hs : StronglySorted (fun x y => (contributions y <= contributions x)%Z)
                              (expertProfiles a)
               <-> StronglySorted (fun x y => (desc contributions x y <= 0)%Z)
                                  (expertProfiles a)).
  { split; intros H; (eapply StronglySorted_ind with (l := expertProfiles a);
      [constructor | | exact H]);
      intros x l Hl IH Hx; (constructor; [exact IH|]);
      (eapply Forall_impl; [|exact Hx]); unfold desc; simpl; intros; lia. }
  rewrite Hs, <- (sort_fixed_iff contributions).
  change (sort (desc contributions)) with (sort by_contributions_desc).
  split.
  - intros E. apply (f_equal expertProfiles) in E. exact E.
  - intros E. rewrite E. destruct a; reflexivity.
Qed.

(** C6 fails on the code: [generateAnalysisSummary] sorts
    [analysis.expertProfiles] itself, so after [generateHTMLReport] the
    analysis lists its profiles in another order than before. *)
Theorem report_reorders_expertProfiles :
  expertProfiles (Samples.analysis 85 30) = [Samples.junior; Samples.senior] /\
  expertProfiles (snd (report (Samples.analysis 85 30)))
  = [Samples.senior; Samples.junior] /\
  snd (report (Samples.analysis 85 30)) <> Samples.analysis 85 30.
Proof.
  split; [reflexivity|]. split.
  - rewrite generateHTMLReport_state. reflexivity.
  - rewrite generateHTMLReport_state. discriminate.
Qed.

End WithClock.

End ReportGeneratorFacts.

(* ================================================================== *)
(** * Strings *)
(* ================================================================== *)

Section StringFacts.

Lemma append_nil_r (s : string) : s ++ EmptyString = s.
Proof. induction s as [|c s IH]; simpl; [reflexivity | rewrite IH; reflexivity]. Qed.

Lemma append_assoc (s t u : string) : (s ++ t) ++ u = s ++ (t ++ u).
Proof. induction s as [|c s IH]; simpl; [reflexivity | rewrite IH; reflexivity]. Qed.

(** [startsWith s p] holds exactly when [s] is [p] followed by something. *)
Lemma startsWith_spec (s p : string) :
  startsWith s p = true <-> exists t, s = p ++ t.
Proof.
  unfold startsWith. revert s.
  induction p as [|c p IH]; intros s.
  - destruct s; simpl; split; eauto.
  - destruct s as [|d s]; simpl.
    + split; [discriminate | intros [t Ht]; discriminate].
    + destruct (ascii_dec c d) as [->|Hcd].
      * rewrite IH. split; intros [t Ht]; exists t; congruence.
      * split; [discriminate | intros [t Ht]; congruence].
Qed.

(** [endsWith s p] holds exactly when [s] is something followed by [p]. *)
Lemma endsWith_spec (s p : string) :
  endsWith s p = true <-> exists t, s = t ++ p.
Proof.
  induction s as [|c s IH].
  - simpl. rewrite orb_false_r. split.
    + intros H. destruct p; [|discriminate]. exists EmptyString. reflexivity.
    + intros [t Ht]. destruct t, p; try discriminate. reflexivity.
  - change (endsWith (String c s) p)
      with (String.eqb (String c s) p || endsWith s p).
    rewrite orb_true_iff, IH. split.
    + intros [H|[t Ht]].
      * apply String.eqb_eq in H. exists EmptyString. exact H.
      * exists (String c t). simpl. congruence.
    + intros [[|d t] Ht]; simpl in Ht.
      * left. apply String.eqb_eq. exact Ht.
      * right. exists t. congruence.
Qed.

(** [includes s k] holds exactly when [k] occurs somewhere in [s]. *)
Lemma includes_spec (s k : string) :
  includes s k = true <-> exists pre post, s = pre ++ k ++ post.
Proof.
  induction s as [|c s IH].
  - change (includes EmptyString k) with (startsWith EmptyString k || false).
    rewrite orb_false_r, startsWith_spec. split.
    + intros [t Ht]. exists EmptyString, t. exact Ht.
    + intros [pre [post H]]. destruct pre; [|discriminate]. exists post. exact H.
  - change (includes (String c s) k)
      with (startsWith (String c s) k || includes s k).
    rewrite orb_true_iff, startsWith_spec, IH. split.
    + intros [[t Ht]|[pre [post H]]].
      * exists EmptyString, t. exact Ht.
      * exists (String c pre), post. simpl. congruence.
    + intros [[|d pre] [post H]]; simpl in H.
      * left. exists post. exact H.
      * right. exists pre, post. congruence.
Qed.

Lemma startsWith_includes (s k : string) :
  startsWith s k = true -> includes s k = true.
Proof.
  intros H. destruct s as [|c s].
  - change (includes EmptyString k) with (startsWith EmptyString k || false).
    rewrite H. reflexivity.
  - change (includes (String c s) k)
      with (startsWith (String c s) k || includes s k).
    rewrite H. reflexivity.
Qed.

End StringFacts.

(* ================================================================== *)
(** * Collaboration detection *)
(* ================================================================== *)

Section CollaborationFacts.

Import RealAnalysisEval.

Lemma ratio_bounds (c m : Z) :
  (0 <= c <= m)%Z -> (0 < m)%Z ->
  le (of_Z 0) (div (of_Z c) (of_Z m)) = true /\
  le (div (of_Z c) (of_Z m)) (of_Z 1) = true.
Proof.
  intros Hc Hm. rewrite div_of_Z_pos by assumption.
  destruct (ratio_rounds Hc Hm) as [ratio [-> [H0 H1]]].
  unfold of_Z. split; apply le_Num; assumption.
Qed.

Lemma existsb_fst {B} (p : string -> bool) (entries : list (string * B)) :
  existsb p (map fst entries) = existsb (fun entry => p (fst entry)) entries.
Proof.
  induction entries as [|e entries IH]; simpl; [reflexivity | rewrite IH; reflexivity].
Qed.

(** The flag the inner loop ends with: some keyword occurred. *)
Lemma scan_flag (lower : string) (entries : list (string * string)) :
  forall found flag,
    snd (fold_left (fun st entry =>
                      if includes lower (fst entry)
                      then (set_add (fst st) (snd entry), true)
                      else st)
                   entries (found, flag))
    = flag || existsb (fun entry => includes lower (fst entry)) entries.
Proof.
  induction entries as [|e entries IH]; intros found flag; simpl.
  - rewrite orb_false_r. reflexivity.
  - destruct (includes lower (fst e)); rewrite IH; simpl.
    + rewrite orb_true_r. reflexivity.
    + reflexivity.
Qed.

Lemma scan_keywords_flag (msg : string) (found : StringSet) :
  snd (scan_keywords (toLowerCase msg) found)
  = Spec.mentions (map fst collaborationKeywords) msg.
Proof.
  unfold scan_keywords, Spec.mentions. rewrite scan_flag, existsb_fst. reflexivity.
Qed.

(** The counter the outer loop ends with: the messages that matched. *)
Lemma scan_commits_count (msgs : list string) :
  forall st,
    collaborativeCommits (fold_left scan_commit msgs st)
    = (collaborativeCommits st
       + List.length (filter (Spec.mentions (map fst collaborationKeywords)) msgs))%nat.
Proof.
  induction msgs as [|msg msgs IH]; intros st.
  - simpl. lia.
  - change (fold_left scan_commit (msg :: msgs) st)
      with (fold_left scan_commit msgs (scan_commit st msg)).
    rewrite IH. unfold scan_commit at 1. cbn [collaborativeCommits].
    rewrite scan_keywords_flag.
    cbn [filter].
    destruct (Spec.mentions (map fst collaborationKeywords) msg); simpl; lia.
Qed.

Lemma filter_length_le {B} (p : B -> bool) (l : list B) :
  (List.length (filter p l) <= List.length l)%nat.
Proof.
  induction l as [|x l IH]; simpl; [lia|]. destruct (p x); simpl; lia.
Qed.

(** What it is for a message to mention one of the keywords. *)
Lemma mentions_spec (keywords : list string) (msg : string) :
  Spec.mentions keywords msg = true <->
  exists keyword pre post,
    In keyword keywords /\ toLowerCase msg = pre ++ keyword ++ post.
Proof.
  unfold Spec.mentions. rewrite existsb_exists. split.
  - intros [k [Hk Hi]]. apply includes_spec in Hi. destruct Hi as [pre [post E]].
    exists k, pre, post. split; assumption.
  - intros [k [pre [post [Hk E]]]]. exists k. split; [exact Hk|].
    apply includes_spec. exists pre, post. exact E.
Qed.

(** C4, as the specification states it, fails on the code: for the three
    messages of the scenario the score is 0.6666666666666666, the double
    nearest to 2/3, which is not at least 66 (the specification's formula
    gives 67); and the keyword sets differ:
    a message that says [merge] but not [merged] counts for the
    specification and not for the code. *)
Lemma collaboration_score_not_scaled :
  collaborationScore (pattern_task Samples.threeMessages)
  = Num (6004799503160661 # 9007199254740992) /\
  le (of_Z 66) (collaborationScore (pattern_task Samples.threeMessages)) = false /\
  Spec.knowledgeSharing Samples.threeMessages = Num 67 /\
  collaborationScore (pattern_task ["merge branch"]) = Num 0 /\
  Spec.knowledgeSharing ["merge branch"] = Num 100.
Proof. vm_compute. repeat split. Qed.

(** C4 (amended): the collaboration score is the fraction of the messages
    whose lowercased text contains at least one of the keywords review,
    pair, thanks, helped, team, merged; it is a number between 0 and 1,
    neither scaled to 0-100 nor rounded to an integer.  For the three
    messages of the scenario it is 2/3 as a double, 0.6666666666666666.
    (The starter task, whose keywords are review, merge, pair, thanks,
    helped, only tells whether some message mentions one, and which
    keywords are mentioned.) *)
Theorem collaboration_score_is_fraction :
  (forall msgs : list string,
      let hits := List.length (filter (Spec.mentions (map fst collaborationKeywords)) msgs) in
      out_collaborativeCommits (pattern_task msgs) = hits /\
      totalCommits (pattern_task msgs) = List.length msgs /\
      collaborationScore (pattern_task msgs) = div (of_nat hits) (of_nat (List.length msgs)) /\
      (msgs <> [] ->
       le (of_Z 0) (collaborationScore (pattern_task msgs)) = true /\
       le (collaborationScore (pattern_task msgs)) (of_Z 1) = true)) /\
  map fst collaborationKeywords = ["review"; "pair"; "thanks"; "helped"; "team"; "merged"] /\
  (forall msg : string,
      Spec.mentions (map fst collaborationKeywords) msg = true <->
      exists keyword pre post,
        In keyword (map fst collaborationKeywords) /\
        toLowerCase msg = pre ++ keyword ++ post) /\
  collaborationScore (pattern_task Samples.threeMessages)
  = Num (6004799503160661 # 9007199254740992) /\
  (forall msgs : list string,
      StarterEval.hasCollaboration (StarterEval.collaboration_task msgs)
      = existsb (Spec.mentions StarterEval.collaborationKeywords) msgs) /\
  StarterEval.collaboration_task Samples.threeMessages
  = {| StarterEval.hasCollaboration := true;
       StarterEval.patterns := ["review"; "merge"] |}.
Proof.
  split; [|split; [reflexivity|split; [intros msg; apply mentions_spec|]]].
  2: { split; [vm_compute; reflexivity|]. split; [intros msgs|]; reflexivity. }
  intros msgs hits.
  assert (Hhits : out_collaborativeCommits (pattern_task msgs) = hits).
  { unfold pattern_task. cbn [out_collaborativeCommits].
    rewrite scan_commits_count. reflexivity. }
  assert (Hscore : collaborationScore (pattern_task msgs)
                   = div (of_nat hits) (of_nat (List.length msgs))).
  { unfold pattern_task. cbn [collaborationScore].
    rewrite scan_commits_count. reflexivity. }
  split; [exact Hhits|]. split; [reflexivity|]. split; [exact Hscore|].
  intros Hne. rewrite Hscore. unfold of_nat. apply ratio_bounds.
  - split; [lia|]. apply inj_le. apply filter_length_le.
  - destruct msgs; [congruence|]. simpl List.length. lia.
Qed.

Lemma collaboration_score_is_fraction_witness :
  Samples.threeMessages <> [] /\
  le (of_Z 0) (collaborationScore (pattern_task Samples.threeMessages)) = true /\
  le (collaborationScore (pattern_task Samples.threeMessages)) (of_Z 1) = true.
Proof.
  assert (Hne : Samples.threeMessages <> []) by discriminate.
  split; [exact Hne|].
  exact (proj2 (proj2 (proj2 (proj1 collaboration_score_is_fraction Samples.threeMessages)))
               Hne).
Defined.

End CollaborationFacts.

(* ================================================================== *)
(** * Specialization detection *)
(* ================================================================== *)

Section SpecializationFacts.

Import RealAnalysisEval.

Lemma set_has_In (s : StringSet) (x : string) : set_has s x = true <-> In x s.
Proof.
  unfold set_has. rewrite existsb_exists. split.
  - intros [y [Hy E]]. apply String.eqb_eq in E. subst. exact Hy.
  - intros H. exists x. split; [exact H | apply String.eqb_refl].
Qed.

Lemma remove_as_filter (x : string) (l : list string) :
  remove string_dec x l = filter (fun y => negb (String.eqb y x)) l.
Proof.
  induction l as [|y l IH]; simpl; [reflexivity|].
  destruct (string_dec x y) as [->|Hxy].
  - rewrite String.eqb_refl. simpl. exact IH.
  - destruct (String.eqb_spec y x) as [->|_]; [congruence|]. simpl. rewrite IH. reflexivity.
Qed.

Lemma filter_filter {B} (p q : B -> bool) (l : list B) :
  filter p (filter q l) = filter (fun y => q y && p y) l.
Proof.
  induction l as [|y l IH]; simpl; [reflexivity|].
  destruct (q y); simpl; [destruct (p y)|]; rewrite IH; reflexivity.
Qed.

(** Adding a run of labels to a set appends, in order, those that are new. *)
Lemma fold_set_add (labels : list string) :
  forall acc : StringSet,
    fold_left set_add labels acc
    = (acc ++ filter (fun y => negb (set_has acc y)) (Spec.first_occurrences labels))%list.
Proof.
  induction labels as [|x labels IH]; intros acc.
  - simpl. rewrite app_nil_r. reflexivity.
  - change (fold_left set_add (x :: labels) acc)
      with (fold_left set_add labels (set_add acc x)).
    rewrite IH. cbn [Spec.first_occurrences filter].
    rewrite remove_as_filter, filter_filter.
    unfold set_add. destruct (set_has acc x) eqn:Hx; cbn [negb].
    + f_equal. apply filter_ext_in. intros y _.
      destruct (String.eqb_spec y x) as [->|_]; [rewrite Hx|]; reflexivity.
    + rewrite <- app_assoc. cbn [app]. do 2 f_equal.
      apply filter_ext_in. intros y _.
      unfold set_has. rewrite existsb_app. cbn [existsb].
      rewrite orb_false_r, negb_orb, andb_comm. reflexivity.
Qed.

Lemma fold_set_add_nil (labels : list string) :
  fold_left set_add labels [] = Spec.first_occurrences labels.
Proof.
  rewrite fold_set_add. simpl.
  induction (Spec.first_occurrences labels) as [|y l IH]; simpl; congruence.
Qed.

(** One commit adds its labels in test order. *)
Lemma detect_commit_labels (commit : Commit) (specs : StringSet) :
  detect_commit specs commit = fold_left set_add (Spec.commit_labels commit) specs.
Proof.
  unfold detect_commit, Spec.commit_labels.
  generalize specializationTable as table. intros table. revert specs.
  induction table as [|rule table IH]; intros specs; simpl.
  - reflexivity.
  - destruct (includes (toLowerCase (message commit)) (fst rule)); simpl; apply IH.
Qed.

Lemma detect_all_labels (commits : list Commit) :
  forall specs,
    fold_left detect_commit commits specs
    = fold_left set_add (flat_map Spec.commit_labels commits) specs.
Proof.
  induction commits as [|c commits IH]; intros specs; simpl.
  - reflexivity.
  - rewrite fold_left_app, <- detect_commit_labels. apply IH.
Qed.

Lemma first_occurrences_In (labels : list string) (x : string) :
  In x (Spec.first_occurrences labels) <-> In x labels.
Proof.
  induction labels as [|y labels IH]; simpl; [tauto|].
  rewrite remove_as_filter, filter_In, IH.
  destruct (String.eqb_spec x y) as [->|Hxy]; simpl.
  - tauto.
  - split; [tauto|]. intros [E|H]; [congruence | right; split; [exact H | reflexivity]].
Qed.

Lemma first_occurrences_NoDup (labels : list string) :
  NoDup (Spec.first_occurrences labels).
Proof.
  induction labels as [|y labels IH]; simpl; constructor.
  - apply remove_In.
  - rewrite remove_as_filter. apply NoDup_filter. exact IH.
Qed.

Lemma commit_labels_In (commit : Commit) (label : string) :
  In label (Spec.commit_labels commit) <->
  exists keyword,
    In (keyword, label) specializationTable /\
    includes (toLowerCase (message commit)) keyword = true.
Proof.
  unfold Spec.commit_labels. rewrite in_map_iff. split.
  - intros [[k l] [E H]]. simpl in E. subst l.
    apply filter_In in H. exists k. exact H.
  - intros [k [Hin Hi]]. exists (k, label). split; [reflexivity|].
    apply filter_In. split; assumption.
Qed.

(** C7, as the specification states it, fails on the eval's own test case,
    whose commits are listed newest first: the labels come out in the order
    of the list, not oldest commit first. *)
Lemma specializations_not_by_timestamp :
  detectSpecializations evalCommits
  = ["Authentication"; "Security"; "React"; "TypeScript"] /\
  Spec.specializations_by_timestamp evalCommits
  = ["React"; "TypeScript"; "Authentication"; "Security"] /\
  detectSpecializations evalCommits <> Spec.specializations_by_timestamp evalCommits.
Proof.
  split; [reflexivity|]. split; [reflexivity|]. discriminate.
Qed.

(** C7 (amended): for every list of commits the detected labels hold each
    label at most once, in the order of first occurrence when the commits
    are scanned in the order of the list (no timestamp is read) and, within
    a commit, in the order Authentication, Security, React, TypeScript; a
    label is there exactly when some commit's lowercased message contains
    its keyword; and when no commit matches the result is the empty list. *)
Theorem specializations_in_list_order (commits : list Commit) :
  NoDup (detectSpecializations commits) /\
  detectSpecializations commits
  = Spec.first_occurrences (flat_map Spec.commit_labels commits) /\
  (forall label,
      In label (detectSpecializations commits) <->
      exists commit keyword,
        In commit commits /\
        In (keyword, label) specializationTable /\
        includes (toLowerCase (message commit)) keyword = true) /\
  ((forall commit keyword label,
       In commit commits -> In (keyword, label) specializationTable ->
       includes (toLowerCase (message commit)) keyword = false) ->
   detectSpecializations commits = []).
Proof.
  assert (E : detectSpecializations commits
              = Spec.first_occurrences (flat_map Spec.commit_labels commits)).
  { unfold detectSpecializations. rewrite detect_all_labels. apply fold_set_add_nil. }
  assert (Hin : forall label,
             In label (detectSpecializations commits) <->
             exists commit keyword,
               In commit commits /\
               In (keyword, label) specializationTable /\
               includes (toLowerCase (message commit)) keyword = true).
  { intros label. rewrite E, first_occurrences_In, in_flat_map. split.
    - intros [c [Hc Hl]]. apply commit_labels_In in Hl. destruct Hl as [k [Hk Hi]].
      exists c, k. auto.
    - intros [c [k [Hc [Hk Hi]]]]. exists c. split; [exact Hc|].
      apply commit_labels_In. exists k. auto. }
  split; [rewrite E; apply first_occurrences_NoDup|].
  split; [exact E|]. split; [exact Hin|].
  intros Hnone.
  destruct (detectSpecializations commits) as [|label rest] eqn:D; [reflexivity|].
  destruct (proj1 (Hin label) (or_introl eq_refl)) as [c [k [Hc [Hk Hi]]]].
  rewrite (Hnone c k label Hc Hk) in Hi. discriminate.
Qed.

Lemma specializations_in_list_order_witness :
  (forall commit keyword label,
      In commit [Samples.readmeCommit] -> In (keyword, label) specializationTable ->
      includes (toLowerCase (message commit)) keyword = false) /\
  detectSpecializations [Samples.readmeCommit] = [].
Proof.
  assert (H : forall commit keyword label,
             In commit [Samples.readmeCommit] ->
             In (keyword, label) specializationTable ->
             includes (toLowerCase (message commit)) keyword = false).
  { intros commit keyword label [<-|[]] Hk.
    simpl in Hk.
    destruct Hk as [E|[E|[E|[E|[]]]]]; injection E as <- <-; reflexivity. }
  split; [exact H|].
  exact (proj2 (proj2 (proj2 (specializations_in_list_order [Samples.readmeCommit]))) H).
Defined.

End SpecializationFacts.

(* ================================================================== *)
(** * File experts *)
(* ================================================================== *)

Section FileExpertFacts.

Import RealAnalysisEval.

(** C9, as the specification states it, fails on the code: two contributors
    with the same commit count stay in the order of the input, the one with
    the older last edit first, where the specification's ranking wants the
    more recent one (and, after that, the smaller identity) first. *)
Lemma file_ranking_ignores_recency :
  file_expert_sorted Samples.tiedContributors = Samples.tiedContributors /\
  Spec.ranked (file_expert_sorted Samples.tiedContributors) = false /\
  exists out,
    file_expert_task "src/auth/login.ts" Samples.tiedContributors = Return out /\
    expertName out = "Bob Martinez".
Proof.
  split; [reflexivity|]. split; [reflexivity|].
  eexists. split; reflexivity.
Qed.

(** C9 (amended): the contributors of a file are sorted non-increasing by
    commit count, and contributors with equal counts keep the order of the
    input (no timestamp or identity is compared); so the first element,
    which the task returns as the file's expert, has a count greater than
    or equal to every other contributor's.  The CSV export names as primary
    expert the first element of the [experts] it is given. *)
Theorem file_experts_sorted_by_commits (path : string)
  (contributors : list FileContributor) :
  let sorted := file_expert_sorted contributors in
  Permutation contributors sorted /\
  StronglySorted (fun a b => (fc_commits b <= fc_commits a)%Z) sorted /\
  (forall n, filter (fun c => (fc_commits c =? n)%Z) sorted
             = filter (fun c => (fc_commits c =? n)%Z) contributors) /\
  (forall top rest,
      sorted = top :: rest ->
      forall c, In c contributors -> (fc_commits c <= fc_commits top)%Z) /\
  (forall top second rest,
      sorted = top :: second :: rest ->
      exists out,
        file_expert_task path contributors = Return out /\
        expertName out = fc_name top /\
        totalContributions out = fc_commits top) /\
  (forall (file : ReportGenerator.FileExpertise) first others,
      ReportGenerator.experts file = first :: others ->
      ReportGenerator.name first <> EmptyString ->
      ReportGenerator.primaryExpertName file = ReportGenerator.name first).
Proof.
  cbv zeta. unfold file_expert_sorted.
  change (sort by_file_commits_desc contributors)
    with (sort (desc fc_commits) contributors).
  split; [apply sort_perm|].
  split; [apply sorted_desc_by_key|].
  split; [intros n; apply sort_keeps_key_class|].
  split; [|split].
  - intros top rest E c Hc.
    destruct (@sort_head_max _ fc_commits contributors top rest E) as [_ Hge].
    apply Hge. exact Hc.
  - intros top second rest E. unfold file_expert_task, file_expert_sorted.
    change (sort by_file_commits_desc contributors)
      with (sort (desc fc_commits) contributors).
    rewrite E. eexists. split; [reflexivity|]. split; reflexivity.
  - intros file first others E Hname. unfold ReportGenerator.primaryExpertName.
    rewrite E. destruct (String.eqb_spec (ReportGenerator.name first) EmptyString);
      [contradiction | reflexivity].
Qed.

Lemma file_experts_sorted_by_commits_witness :
  file_expert_sorted Samples.loginContributors = Samples.loginContributors /\
  exists out,
    file_expert_task "src/auth/login.ts" Samples.loginContributors = Return out /\
    expertName out = "Alice Chen" /\
    totalContributions out = 15%Z.
Proof.
  assert (E : file_expert_sorted Samples.loginContributors = Samples.loginContributors)
    by reflexivity.
  split; [exact E|].
  exact (proj1 (proj2 (proj2 (proj2 (proj2
           (file_experts_sorted_by_commits "src/auth/login.ts" Samples.loginContributors)))))
           _ _ _ E).
Defined.

(** With fewer than two contributors the task throws on [sorted[1]]. *)
Example file_expert_task_single :
  file_expert_task "src/auth/login.ts"
    [ {| fc_name := "Alice Chen"; fc_commits := 15; lastEdit := "2025-11-20" |} ]
  = Throw (TypeError_undefined "commits").
Proof. reflexivity. Qed.

End FileExpertFacts.

(* ================================================================== *)
(** * Path sanitizing *)
(* ================================================================== *)

Section PathFacts.

Import NodePath.

Lemma split_slash_app (x y : string) :
  forall cur,
    split_slash cur (x ++ String "/" y)
    = (split_slash cur x ++ split_slash EmptyString y)%list.
Proof.
  induction x as [|c x IH]; intros cur.
  - reflexivity.
  - simpl. destruct (Ascii.eqb c "/").
    + rewrite IH. reflexivity.
    + apply IH.
Qed.

Lemma segments_app (x y : string) :
  segments (x ++ String "/" y) = (segments x ++ segments y)%list.
Proof.
  unfold segments. rewrite split_slash_app, filter_app. reflexivity.
Qed.

Lemma segments_sep_r (x : string) : segments (x ++ "/") = segments x.
Proof.
  change "/" with (String "/" EmptyString).
  rewrite segments_app. apply app_nil_r.
Qed.

(** [withSep p] is a path through the same names as [p], and a separator. *)
Lemma withSep_shape (p : string) :
  exists p0, Validator.withSep sep p = p0 ++ "/" /\ segments p0 = segments p.
Proof.
  unfold Validator.withSep, sep.
  destruct (endsWith p "/") eqn:E.
  - apply endsWith_spec in E. destruct E as [t ->].
    exists t. split; [reflexivity|]. symmetry. apply segments_sep_r.
  - exists p. split; reflexivity.
Qed.

(** The test of [sanitizeFilePath]: the names of the root come first. *)
Lemma startsWith_withSep_names (root p : string) :
  startsWith (Validator.withSep sep p) (Validator.withSep sep root) = true ->
  exists rest, segments p = (segments root ++ rest)%list.
Proof.
  intros H. apply startsWith_spec in H. destruct H as [t Ht].
  destruct (withSep_shape p) as [p0 [Ep Sp]].
  destruct (withSep_shape root) as [r0 [Er Sr]].
  rewrite Ep, Er in Ht.
  exists (segments t).
  rewrite <- Sp, <- Sr, <- (segments_sep_r p0), Ht.
  rewrite append_assoc. apply segments_app.
Qed.

Lemma resolve_loop_absolute (paths : list string) :
  forall acc,
    (exists p, In p paths /\ isAbsolute p = true) ->
    snd (resolve_loop paths acc) = true.
Proof.
  induction paths as [|q paths IH]; intros acc [p [Hin Hp]].
  - destruct Hin.
  - simpl. destruct (String.eqb_spec q EmptyString) as [->|Hq].
    + apply IH. destruct Hin as [<-|Hin]; [discriminate|]. eauto.
    + destruct (isAbsolute q) eqn:Hqa; [reflexivity|].
      apply IH. destruct Hin as [<-|Hin]; [congruence|]. eauto.
Qed.

(** From an absolute working directory [path.resolve] gives absolute
    paths. *)
Lemma resolve_absolute (cwd : string) (args : list string) :
  isAbsolute cwd = true -> isAbsolute (resolve cwd args) = true.
Proof.
  intros Hcwd. unfold resolve.
  pose proof (@resolve_loop_absolute (rev args ++ [cwd]) EmptyString) as H.
  destruct (resolve_loop (rev args ++ [cwd]) EmptyString) as [resolvedPath abs].
  simpl in H. rewrite H.
  - apply startsWith_spec. eexists. reflexivity.
  - exists cwd. split; [apply in_or_app; right; left; reflexivity | exact Hcwd].
Qed.

End PathFacts.

(* ================================================================== *)
(** * More on the eval tasks *)
(* ================================================================== *)

Section FirstMaximum.

Variable A : Type.
Variable key : A -> Z.

Lemma filter_head_split (p : A -> bool) (l : list A) :
  forall x xs,
    filter p l = x :: xs ->
    exists pre post,
      l = (pre ++ x :: post)%list /\ forall y, In y pre -> p y = false.
Proof.
  induction l as [|a l IH]; intros x xs E; simpl in E.
  - discriminate.
  - destruct (p a) eqn:Pa.
    + injection E as <- _. exists [], l. split; [reflexivity|]. intros y [].
    + destruct (IH x xs E) as [pre [post [-> Hpre]]].
      exists (a :: pre), post. split; [reflexivity|].
      intros y [<-|Hy]; [exact Pa | apply Hpre; exact Hy].
Qed.

Lemma first_max_unique (l : list A) (t1 t2 : A) :
  first_max key l t1 -> first_max key l t2 -> t1 = t2.
Proof.
  intros [pre1 [post1 [E1 [Hlt1 Hle1]]]] [pre2 [post2 [E2 [Hlt2 Hle2]]]].
  subst l. revert pre2 E2 Hlt2.
  induction pre1 as [|a pre1 IH]; intros [|b pre2] E2 Hlt2; simpl in E2.
  - congruence.
  - injection E2 as Eh Et.
    assert (Hin : In t2 post1) by (rewrite Et; apply in_elt).
    specialize (Hle1 t2 Hin). specialize (Hlt2 b (or_introl eq_refl)).
    subst b. lia.
  - injection E2 as Eh Et.
    assert (Hin : In t1 post2) by (rewrite <- Et; apply in_elt).
    specialize (Hle2 t1 Hin). specialize (Hlt1 a (or_introl eq_refl)).
    subst a. lia.
  - injection E2 as Eh Et.
    apply (IH (fun y Hy => Hlt1 y (or_intror Hy)) pre2 Et).
    intros y Hy. apply Hlt2. right. exact Hy.
Qed.

(** Among the elements with the largest key, the sort puts first the one
    that came first. *)
Lemma sort_head_first_max (l : list A) (top : A) (rest : list A) :
  sort (desc key) l = top :: rest -> first_max key l top.
Proof.
  intros E.
  destruct (@sort_head_max _ key l top rest E) as [_ Hmax].
  pose proof (sort_keeps_key_class key (key top) l) as Hf.
  rewrite E in Hf. cbn [filter] in Hf. rewrite Z.eqb_refl in Hf.
  symmetry in Hf.
  destruct (filter_head_split _ _ Hf) as [pre [post [-> Hpre]]].
  exists pre, post. split; [reflexivity|]. split.
  - intros y Hy. specialize (Hpre y Hy). apply Z.eqb_neq in Hpre.
    assert (key y <= key top)%Z by (apply Hmax; apply in_or_app; left; exact Hy).
    lia.
  - intros y Hy. apply Hmax. apply in_or_app. right. right. exact Hy.
Qed.

Lemma first_max_sort_head (l : list A) (top : A) :
  first_max key l top -> exists rest, sort (desc key) l = top :: rest.
Proof.
  intros Hfm.
  assert (Hne : l <> []).
  { destruct Hfm as [pre [post [-> _]]]. destruct pre; discriminate. }
  destruct (@sort_nonempty _ key l Hne) as [top' [rest E]].
  rewrite (first_max_unique Hfm (@sort_head_first_max l top' rest E)).
  exists rest. exact E.
Qed.

End FirstMaximum.

Section DivisionFacts.

Lemma zero_over_zero_score :
  mul (div (of_Z 0) (of_Z 0)) (of_Z 100) = NaN.
Proof. reflexivity. Qed.

End DivisionFacts.

Section StarterTaskFacts.

Import StarterEval.

Lemma task_on_first_max (contributors : list Contributor) (top : Contributor) :
  first_max commits contributors top ->
  exists out,
    task contributors = Return out /\
    topExpert out = name top /\
    totalExperts out = List.length contributors.
Proof.
  intros Hfm.
  destruct (first_max_sort_head Hfm) as [rest E].
  unfold task, task_body.
  change (sort by_commits_desc contributors) with (sort (desc commits) contributors).
  rewrite E. eexists. split; [reflexivity|]. split; reflexivity.
Qed.

(** When several contributors share the largest commit count, the task
    names as top expert the one listed first in the input. *)
Theorem task_top_is_first_maximum (contributors : list Contributor)
  (pre post : list Contributor) (top : Contributor) :
  contributors = (pre ++ top :: post)%list ->
  (forall c, In c pre -> (commits c < commits top)%Z) ->
  (forall c, In c post -> (commits c <= commits top)%Z) ->
  exists out, task contributors = Return out /\ topExpert out = name top.
Proof.
  intros E Hpre Hpost.
  destruct (@task_on_first_max contributors top) as [out [Ht [Hn _]]].
  - exists pre, post. auto.
  - exists out. auto.
Qed.

Lemma task_top_is_first_maximum_witness :
  exists out,
    task [ {| name := "Bob Engineer"; commits := 85 |};
           {| name := "Alice Dev"; commits := 150 |};
           {| name := "Dana Ops"; commits := 150 |} ] = Return out /\
    topExpert out = "Alice Dev".
Proof.
  apply (@task_top_is_first_maximum _
           [ {| name := "Bob Engineer"; commits := 85 |} ]
           [ {| name := "Dana Ops"; commits := 150 |} ]
           {| name := "Alice Dev"; commits := 150 |} eq_refl).
  - intros c [<-|[]]. simpl. lia.
  - intros c [<-|[]]. simpl. lia.
Defined.

(** The two scorers of the eval, run on the task's output: "Expert Count"
    gives 1 exactly when the expected count is the number of contributors,
    "Top Expert Accuracy" exactly when the expected name is that of the
    first contributor with the largest commit count; otherwise they give
    0. *)
Theorem scorers_on_task_output (contributors : list Contributor)
  (top : Contributor) (expected : Expected) :
  first_max commits contributors top ->
  exists out,
    task contributors = Return out /\
    points (expertCount out expected)
    = (if Nat.eqb (List.length contributors) (exp_totalExperts expected)
       then of_Z 1 else of_Z 0) /\
    points (topExpertAccuracy out expected)
    = (if String.eqb (name top) (exp_topExpert expected) then of_Z 1 else of_Z 0) /\
    (points (topExpertAccuracy out expected) = of_Z 1 <->
     exp_topExpert expected = name top).
Proof.
  intros Hfm.
  destruct (task_on_first_max Hfm) as [out [Ht [Hn Hl]]].
  exists out. split; [exact Ht|].
  unfold expertCount, topExpertAccuracy. cbn [points]. rewrite Hn, Hl.
  split; [reflexivity|]. split; [reflexivity|].
  destruct (String.eqb_spec (name top) (exp_topExpert expected)) as [E|E].
  - split; [intros _; symmetry; exact E | reflexivity].
  - split; [discriminate | intros E'; symmetry in E'; contradiction].
Qed.

Lemma scorers_on_task_output_witness :
  first_max commits scenario {| name := "Alice Dev"; commits := 150 |} /\
  exists out,
    task scenario = Return out /\
    points (expertCount out {| exp_topExpert := "Alice Dev"; exp_totalExperts := 3 |})
    = of_Z 1 /\
    points (topExpertAccuracy out {| exp_topExpert := "Alice Dev"; exp_totalExperts := 3 |})
    = of_Z 1.
Proof.
  assert (Hfm : first_max commits scenario {| name := "Alice Dev"; commits := 150 |}).
  { exists [], [ {| name := "Bob Engineer"; commits := 85 |};
                 {| name := "Charlie Coder"; commits := 45 |} ].
    split; [reflexivity|]. split.
    - intros y [].
    - intros y [<-|[<-|[]]]; simpl; lia. }
  split; [exact Hfm|].
  destruct (@scorers_on_task_output scenario _
              {| exp_topExpert := "Alice Dev"; exp_totalExperts := 3 |} Hfm)
    as [out [Ht [Hc [Ha _]]]].
  exists out. split; [exact Ht|]. split; [exact Hc | exact Ha].
Defined.

(** When nobody has a commit, every score is [NaN]: the division is 0 / 0. *)
Theorem all_zero_commits_scores_NaN (contributors : list Contributor) :
  contributors <> [] ->
  (forall c, In c contributors -> commits c = 0%Z) ->
  exists out,
    task contributors = Return out /\
    List.length (expertiseScores out) = List.length contributors /\
    Forall (fun s => score s = NaN) (expertiseScores out).
Proof.
  intros Hne Hzero.
  destruct (task_returns Hne) as [top [rest [E Ht]]].
  assert (Hperm : Permutation contributors (top :: rest)).
  { rewrite <- E. apply (sort_perm commits). }
  eexists. split; [exact Ht|]. cbn [expertiseScores]. split.
  - rewrite length_map. symmetry. apply Permutation_length. exact Hperm.
  - apply Forall_forall. intros s Hs.
    apply in_map_iff in Hs. destruct Hs as [c [<- Hc]]. cbn [score].
    rewrite (Hzero c), (Hzero top).
    + reflexivity.
    + apply (Permutation_in top (Permutation_sym Hperm)). left. reflexivity.
    + apply (Permutation_in c (Permutation_sym Hperm)). exact Hc.
Qed.

Lemma all_zero_commits_scores_NaN_witness :
  [ {| name := "Nobody"; commits := 0 |}; {| name := "Noone"; commits := 0 |} ] <> [] /\
  exists out,
    task [ {| name := "Nobody"; commits := 0 |}; {| name := "Noone"; commits := 0 |} ]
    = Return out /\
    List.length (expertiseScores out) = 2%nat /\
    Forall (fun s => score s = NaN) (expertiseScores out).
Proof.
  assert (Hne : [ {| name := "Nobody"; commits := 0 |};
                  {| name := "Noone"; commits := 0 |} ] <> []) by discriminate.
  split; [exact Hne|].
  apply (all_zero_commits_scores_NaN Hne).
  intros c [<-|[<-|[]]]; reflexivity.
Defined.

Lemma existsb_swap {B C} (p : B -> C -> bool) (l : list B) (m : list C) :
  existsb (fun x => existsb (p x) m) l = existsb (fun y => existsb (fun x => p x y) l) m.
Proof.
  apply eq_true_iff_eq. rewrite !existsb_exists. split.
  - intros [x [Hx H]]. apply existsb_exists in H. destruct H as [y [Hy H]].
    exists y. split; [exact Hy|]. apply existsb_exists. eauto.
  - intros [y [Hy H]]. apply existsb_exists in H. destruct H as [x [Hx H]].
    exists x. split; [exact Hx|]. apply existsb_exists. eauto.
Qed.

Lemma existsb_filter_nonempty {B} (p : B -> bool) (l : list B) :
  existsb p l = negb (Nat.eqb (List.length (filter p l)) 0).
Proof.
  induction l as [|x l IH]; simpl; [reflexivity|].
  destruct (p x); simpl; [reflexivity | exact IH].
Qed.

(** The two fields of the collaboration task agree: [hasCollaboration] is
    true exactly when [patterns] is not empty; and [patterns] lists, in the
    order of the keyword list and without repeats, the keywords that some
    message contains. *)
Theorem collaboration_task_consistent (msgs : list string) :
  let out := collaboration_task msgs in
  (hasCollaboration out = true <-> patterns out <> []) /\
  NoDup (patterns out) /\
  (forall keyword,
      In keyword (patterns out) <->
      In keyword collaborationKeywords /\
      exists msg, In msg msgs /\ includes (toLowerCase msg) keyword = true) /\
  patterns out
  = filter (fun keyword => existsb (fun msg => includes (toLowerCase msg) keyword) msgs)
           ["review"; "merge"; "pair"; "thanks"; "helped"].
Proof.
  cbv zeta. unfold collaboration_task, some. cbn [hasCollaboration patterns].
  split; [|split; [|split]].
  - rewrite existsb_swap, existsb_filter_nonempty.
    destruct (filter _ collaborationKeywords); simpl; split;
      congruence || discriminate.
  - apply NoDup_filter. unfold collaborationKeywords.
    repeat constructor; simpl; intuition discriminate.
  - intros keyword. rewrite filter_In, existsb_exists. reflexivity.
  - reflexivity.
Qed.

End StarterTaskFacts.

Section RealAnalysisTaskFacts.

Import RealAnalysisEval.

Lemma file_expert_sorted_length (contributors : list FileContributor) :
  List.length (file_expert_sorted contributors) = List.length contributors.
Proof. apply (sort_length fc_commits). Qed.

(** The task needs two contributors: with fewer it throws the [TypeError]
    of reading [commits] of [undefined], with two or more it returns. *)
Theorem file_expert_task_needs_two (path : string)
  (contributors : list FileContributor) :
  ((List.length contributors < 2)%nat ->
   file_expert_task path contributors = Throw (TypeError_undefined "commits")) /\
  ((2 <= List.length contributors)%nat ->
   exists out top,
     file_expert_task path contributors = Return out /\
     first_max fc_commits contributors top /\
     expertName out = fc_name top /\
     filePath out = path).
Proof.
  pose proof (file_expert_sorted_length contributors) as Hl.
  unfold file_expert_task. split; intros Hn.
  - destruct (file_expert_sorted contributors) as [|a [|b rest]]; simpl in Hl;
      try reflexivity; lia.
  - destruct (file_expert_sorted contributors) as [|a [|b rest]] eqn:E;
      simpl in Hl; try lia.
    eexists. exists a. split; [reflexivity|]. split; [|split; reflexivity].
    apply (@sort_head_first_max _ fc_commits contributors a (b :: rest)). exact E.
Qed.

Lemma file_expert_task_needs_two_witness :
  (2 <= List.length Samples.tiedContributors)%nat /\
  exists out top,
    file_expert_task "src/auth/login.ts" Samples.tiedContributors = Return out /\
    first_max fc_commits Samples.tiedContributors top /\
    expertName out = fc_name top /\
    filePath out = "src/auth/login.ts".
Proof.
  assert (H : (2 <= List.length Samples.tiedContributors)%nat) by (simpl; lia).
  split; [exact H|].
  exact (proj2 (file_expert_task_needs_two "src/auth/login.ts" Samples.tiedContributors) H).
Defined.

(** With commit counts from 1 to [2^52] the confidence lies between one
    half and one: the top contributor has at least half of the two leading
    counts, and never all of them.  With larger counts the sum is rounded
    and the confidence can be one: counts [2^53] and 1. *)
Theorem file_expert_confidence_bounds :
  (forall (path : string) (contributors : list FileContributor),
      (2 <= List.length contributors)%nat ->
      Forall (fun c => (1 <= fc_commits c <= 2 ^ 52)%Z) contributors ->
      exists out,
        file_expert_task path contributors = Return out /\
        le (Num (1 # 2)) (confidence out) = true /\
        lt (confidence out) (of_Z 1) = true)
  /\ (forall path : string,
         exists out,
           file_expert_task path Samples.hugeContributors = Return out /\
           confidence out = of_Z 1).
Proof.
  split; [|intros path; eexists; split; [reflexivity | vm_compute; reflexivity]].
  intros path contributors Hn Hpos.
  pose proof (file_expert_sorted_length contributors) as Hl.
  pose proof (sorted_desc_by_key fc_commits contributors) as Hs.
  pose proof (sort_perm fc_commits contributors) as Hp.
  unfold file_expert_task, file_expert_sorted in *.
  change (sort by_file_commits_desc contributors)
    with (sort (desc fc_commits) contributors) in *.
  destruct (sort (desc fc_commits) contributors) as [|a [|b rest]];
    simpl in Hl; try lia.
  assert (Hab : (fc_commits b <= fc_commits a)%Z).
  { inversion Hs as [|? ? _ Hall]; subst. inversion Hall; subst. assumption. }
  rewrite Forall_forall in Hpos.
  assert (Ha : (1 <= fc_commits a <= 2 ^ 52)%Z).
  { apply Hpos. apply (Permutation_in a (Permutation_sym Hp)). left. reflexivity. }
  assert (Hb : (1 <= fc_commits b <= 2 ^ 52)%Z).
  { apply Hpos. apply (Permutation_in b (Permutation_sym Hp)). right. left. reflexivity. }
  eexists. split; [reflexivity|]. cbn [confidence].
  set (t := fc_commits a) in *. set (s := fc_commits b) in *.
  assert (Hsum : add (of_Z t) (of_Z s) = Num (inject_Z (t + s))).
  { unfold add, of_Z.
    assert (E : (inject_Z t + inject_Z s == inject_Z (t + s))%Q)
      by (rewrite inject_Z_plus; reflexivity).
    rewrite (round64_comp E). apply round64_int.
    change (2 ^ 53)%Z with (2 ^ 52 + 2 ^ 52)%Z. lia. }
  assert (Hbpos : (0 < inject_Z (t + s))%Q).
  { change (inject_Z 0 < inject_Z (t + s))%Q. rewrite <- Zlt_Qlt. lia. }
  rewrite Hsum. unfold of_Z. rewrite (div_Num_pos _ Hbpos).
  assert (H : exists d, round64 (inject_Z t / inject_Z (t + s)) = Num d
                        /\ ((1 # 2) <= d <= (9007199254740991 # 9007199254740992))%Q).
  { apply (@round64_between (1 # 2) (9007199254740991 # 9007199254740992));
      try (vm_compute; reflexivity).
    - apply Qle_shift_div_l; [exact Hbpos|].
      unfold Qle, Qmult, inject_Z. cbn [Qnum Qden]. lia.
    - apply Qle_shift_div_r; [exact Hbpos|].
      unfold Qle, Qmult, inject_Z. cbn [Qnum Qden].
      change (2 ^ 52)%Z with 4503599627370496%Z in Ha, Hb. lia. }
  destruct H as [d [-> [D1 D2]]]. split.
  - apply le_Num. exact D1.
  - apply lt_Num.
    apply Qle_lt_trans with (9007199254740991 # 9007199254740992); [exact D2|].
    reflexivity.
Qed.

Lemma file_expert_confidence_bounds_witness :
  (2 <= List.length Samples.loginContributors)%nat /\
  Forall (fun c => (1 <= fc_commits c <= 2 ^ 52)%Z) Samples.loginContributors /\
  exists out,
    file_expert_task "src/auth/login.ts" Samples.loginContributors = Return out /\
    le (Num (1 # 2)) (confidence out) = true /\
    lt (confidence out) (of_Z 1) = true.
Proof.
  assert (H : (2 <= List.length Samples.loginContributors)%nat) by (simpl; lia).
  assert (Hpos : Forall (fun c => (1 <= fc_commits c <= 2 ^ 52)%Z)
                        Samples.loginContributors).
  { repeat constructor; simpl; lia. }
  split; [exact H|]. split; [exact Hpos|].
  exact (proj1 file_expert_confidence_bounds "src/auth/login.ts"
               Samples.loginContributors H Hpos).
Defined.

(** The set the inner loop ends with: the message's patterns added in
    entry order. *)
Lemma scan_found (lower : string) (entries : list (string * string)) :
  forall found flag,
    fst (fold_left (fun st entry =>
                      if includes lower (fst entry)
                      then (set_add (fst st) (snd entry), true)
                      else st)
                   entries (found, flag))
    = fold_left set_add
                (map snd (filter (fun entry => includes lower (fst entry)) entries))
                found.
Proof.
  induction entries as [|e entries IH]; intros found flag; simpl.
  - reflexivity.
  - destruct (includes lower (fst e)); simpl; apply IH.
Qed.

Lemma scan_commits_found (msgs : list string) :
  forall st,
    foundPatterns (fold_left scan_commit msgs st)
    = fold_left set_add (flat_map Spec.message_patterns msgs) (foundPatterns st).
Proof.
  induction msgs as [|msg msgs IH]; intros st.
  - reflexivity.
  - change (fold_left scan_commit (msg :: msgs) st)
      with (fold_left scan_commit msgs (scan_commit st msg)).
    rewrite IH. cbn [flat_map]. rewrite fold_left_app. f_equal.
    unfold scan_commit. cbn [foundPatterns]. unfold scan_keywords.
    apply scan_found.
Qed.

Lemma message_patterns_In (msg pattern : string) :
  In pattern (Spec.message_patterns msg) <->
  exists keyword,
    In (keyword, pattern) collaborationKeywords /\
    includes (toLowerCase msg) keyword = true.
Proof.
  unfold Spec.message_patterns. rewrite in_map_iff. split.
  - intros [[k q] [E H]]. simpl in E. subst q.
    apply filter_In in H. exists k. exact H.
  - intros [k [Hin Hi]]. exists (k, pattern). split; [reflexivity|].
    apply filter_In. split; assumption.
Qed.

(** The fields of the pattern task agree with each other: the collaborative
    commits are never more than the commits, the patterns hold no repeats,
    a pattern is listed exactly when some message contains its keyword, and
    no pattern is listed exactly when no commit was counted. *)
Theorem pattern_task_consistent (msgs : list string) :
  let out := pattern_task msgs in
  (out_collaborativeCommits out <= totalCommits out)%nat /\
  NoDup (patterns out) /\
  (forall pattern,
      In pattern (patterns out) <->
      exists keyword msg,
        In (keyword, pattern) collaborationKeywords /\
        In msg msgs /\
        includes (toLowerCase msg) keyword = true) /\
  (patterns out = [] <-> out_collaborativeCommits out = 0%nat).
Proof.
  cbv zeta.
  assert (Hp : patterns (pattern_task msgs)
               = Spec.first_occurrences (flat_map Spec.message_patterns msgs)).
  { unfold pattern_task. cbn [patterns]. rewrite scan_commits_found.
    apply fold_set_add_nil. }
  assert (Hc : out_collaborativeCommits (pattern_task msgs)
               = List.length (filter (Spec.mentions (map fst collaborationKeywords)) msgs)).
  { unfold pattern_task. cbn [out_collaborativeCommits].
    rewrite scan_commits_count. reflexivity. }
  assert (Hin : forall pattern,
             In pattern (patterns (pattern_task msgs)) <->
             exists keyword msg,
               In (keyword, pattern) collaborationKeywords /\
               In msg msgs /\
               includes (toLowerCase msg) keyword = true).
  { intros pattern. rewrite Hp, first_occurrences_In, in_flat_map. split.
    - intros [msg [Hm H]]. apply message_patterns_In in H.
      destruct H as [k [Hk Hi]]. exists k, msg. auto.
    - intros [k [msg [Hk [Hm Hi]]]]. exists msg. split; [exact Hm|].
      apply message_patterns_In. exists k. auto. }
  split; [|split; [|split]].
  - rewrite Hc. cbn [totalCommits pattern_task]. apply filter_length_le.
  - rewrite Hp. apply first_occurrences_NoDup.
  - exact Hin.
  - rewrite Hc. split.
    + intros E.
      destruct (filter (Spec.mentions (map fst collaborationKeywords)) msgs)
        as [|msg rest] eqn:F; [reflexivity|].
      exfalso.
      assert (Hm : In msg (filter (Spec.mentions (map fst collaborationKeywords)) msgs))
        by (rewrite F; left; reflexivity).
      apply filter_In in Hm. destruct Hm as [Hm Hmen].
      unfold Spec.mentions in Hmen. apply existsb_exists in Hmen.
      destruct Hmen as [k [Hk Hi]].
      apply in_map_iff in Hk. destruct Hk as [[k' pattern] [Ek Hk]].
      simpl in Ek. subst k'.
      assert (Hpat : In pattern (patterns (pattern_task msgs))).
      { apply Hin. exists k, msg. auto. }
      rewrite E in Hpat. destruct Hpat.
    + intros E.
      destruct (patterns (pattern_task msgs)) as [|pattern rest] eqn:P; [reflexivity|].
      exfalso.
      destruct (proj1 (Hin pattern) (or_introl eq_refl)) as [k [msg [Hk [Hm Hi]]]].
      assert (Hf : In msg (filter (Spec.mentions (map fst collaborationKeywords)) msgs)).
      { apply filter_In. split; [exact Hm|].
        unfold Spec.mentions. apply existsb_exists. exists k. split; [|exact Hi].
        apply in_map_iff. exists (k, pattern). auto. }
      destruct (filter (Spec.mentions (map fst collaborationKeywords)) msgs);
        [destruct Hf | discriminate].
Qed.

(** The quality task fails exactly on an empty contributor list, whatever
    the commits; when it returns, it always carries at least one insight,
    and its three collaboration signals agree: mentoring is reported
    exactly when some commit message mentions review, helped or mentoring,
    exactly then the style is "Collaborative and supportive", and exactly
    then there are two insights instead of one. *)
Theorem quality_task_consistent (contributors : list Contributor)
  (commitLog : list Commit) :
  (contributors = [] ->
   quality_task contributors commitLog = Throw (TypeError_undefined "name")) /\
  (contributors <> [] ->
   exists out top,
     quality_task contributors commitLog = Return out /\
     first_max commits contributors top /\
     topExpert out = name top /\
     totalContributors out = List.length contributors /\
     specializations out = detectSpecializations commitLog /\
     (hasMentoringBehavior out = true <->
      exists c, In c commitLog /\ isMentoring c = true) /\
     (hasMentoringBehavior out = true <->
      communicationStyle out = "Collaborative and supportive") /\
     List.length (humanInsights out)
     = (if hasMentoringBehavior out then 2 else 1)%nat).
Proof.
  split.
  - intros ->. reflexivity.
  - intros Hne.
    destruct (@sort_nonempty _ commits contributors Hne) as [top [rest E]].
    unfold quality_task.
    change (sort by_commits_desc contributors) with (sort (desc commits) contributors).
    rewrite E. eexists. exists top. split; [reflexivity|].
    cbn [topExpert totalContributors specializations hasMentoringBehavior
         communicationStyle humanInsights].
    split; [exact (@sort_head_first_max _ commits contributors top rest E)|].
    split; [reflexivity|]. split; [reflexivity|]. split; [reflexivity|].
    rewrite <- existsb_filter_nonempty.
    split; [|split].
    + rewrite existsb_exists. reflexivity.
    + destruct (existsb isMentoring commitLog); split; intros; try reflexivity;
        discriminate.
    + rewrite existsb_filter_nonempty.
      destruct (filter isMentoring commitLog); reflexivity.
Qed.

Lemma quality_task_consistent_witness :
  [ {| name := "Alice Chen"; email := "alice@example.com";
       commits := 245; additions := 15230; deletions := 8420 |} ] <> [] /\
  exists out,
    quality_task
      [ {| name := "Alice Chen"; email := "alice@example.com";
           commits := 245; additions := 15230; deletions := 8420 |} ]
      evalCommits = Return out /\
    topExpert out = "Alice Chen" /\
    hasMentoringBehavior out = true.
Proof.
  assert (Hne : [ {| name := "Alice Chen"; email := "alice@example.com";
                     commits := 245; additions := 15230; deletions := 8420 |} ]
                <> []) by discriminate.
  split; [exact Hne|].
  destruct (proj2 (quality_task_consistent
                     [ {| name := "Alice Chen"; email := "alice@example.com";
                          commits := 245; additions := 15230; deletions := 8420 |} ]
                     evalCommits) Hne)
    as [out [top [Ht _]]].
  exists out. split; [exact Ht|].
  injection Ht as <-. split; reflexivity.
Defined.

End RealAnalysisTaskFacts.

(* ================================================================== *)
(** * More on the report generator *)
(* ================================================================== *)

Section SplitFacts.

Lemma all_chars_app (p : ascii -> bool) (a b : string) :
  all_chars p (a ++ b) = all_chars p a && all_chars p b.
Proof.
  induction a as [|c a IH]; simpl; [reflexivity|].
  rewrite IH. apply andb_assoc.
Qed.

Lemma all_chars_impl (p q : ascii -> bool) (s : string) :
  (forall c, p c = true -> q c = true) ->
  all_chars p s = true -> all_chars q s = true.
Proof.
  intros Hpq. induction s as [|c s IH]; simpl; [reflexivity|].
  rewrite !andb_true_iff. intros [Hc Hs]. auto.
Qed.

(** A piece without the separator is not cut. *)
Lemma split_on_piece (sep : ascii) (a : string) :
  forall cur b,
    all_chars (fun c => negb (Ascii.eqb c sep)) a = true ->
    split_on sep cur (a ++ String sep b)
    = (cur ++ a) :: split_on sep EmptyString b.
Proof.
  induction a as [|c a IH]; intros cur b Ha; simpl in *.
  - rewrite Ascii.eqb_refl, append_nil_r. reflexivity.
  - apply andb_true_iff in Ha. destruct Ha as [Hc Ha].
    apply negb_true_iff in Hc. rewrite Hc, IH by exact Ha.
    rewrite append_assoc. reflexivity.
Qed.

Lemma split_on_last (sep : ascii) (a : string) :
  forall cur,
    all_chars (fun c => negb (Ascii.eqb c sep)) a = true ->
    split_on sep cur a = [cur ++ a].
Proof.
  induction a as [|c a IH]; intros cur Ha; simpl in *.
  - rewrite append_nil_r. reflexivity.
  - apply andb_true_iff in Ha. destruct Ha as [Hc Ha].
    apply negb_true_iff in Hc. rewrite Hc, IH by exact Ha.
    rewrite append_assoc. reflexivity.
Qed.

(** Splitting undoes joining, for pieces that do not hold the separator. *)
Lemma split_on_join (sep : ascii) (parts : list string) :
  parts <> [] ->
  Forall (fun part => all_chars (fun c => negb (Ascii.eqb c sep)) part = true) parts ->
  split_on sep EmptyString (join (String sep EmptyString) parts) = parts.
Proof.
  intros Hne Hall. induction Hall as [|part parts Hp Hall IH]; [congruence|].
  unfold join in *. destruct parts as [|next parts].
  - simpl. rewrite split_on_last by exact Hp. reflexivity.
  - change (concat (String sep EmptyString) (part :: next :: parts))
      with (part ++ String sep (concat (String sep EmptyString) (next :: parts))).
    rewrite split_on_piece by exact Hp. simpl append. f_equal.
    apply IH. discriminate.
Qed.

Lemma uint_digits (d : Decimal.uint) :
  all_chars (fun c => (48 <=? nat_of_ascii c)%nat && (nat_of_ascii c <=? 57)%nat)
            (NilEmpty.string_of_uint d) = true.
Proof. induction d; simpl; try reflexivity; exact IHd. Qed.

(** A printed count is made of digits. *)
Lemma show_nat_digits (n : nat) :
  all_chars (fun c => (48 <=? nat_of_ascii c)%nat && (nat_of_ascii c <=? 57)%nat)
            (show_nat n) = true.
Proof.
  unfold show_nat, show_Z, NilZero.string_of_int.
  destruct (Z.of_nat n) as [|q|q] eqn:E; simpl.
  - reflexivity.
  - unfold NilZero.string_of_uint. destruct (Pos.to_uint q) eqn:U;
      try (rewrite <- U); try apply uint_digits. reflexivity.
  - lia.
Qed.

End SplitFacts.

Section ReportGeneratorMore.

Import ReportGenerator.

Lemma csv_safe_no_comma (s : string) :
  csv_safe s = true -> all_chars (fun c => negb (Ascii.eqb c ",")) s = true.
Proof.
  apply all_chars_impl. intros c H. apply andb_true_iff in H. tauto.
Qed.

Lemma csv_safe_no_newline (s : string) :
  csv_safe s = true ->
  all_chars (fun c => negb (Ascii.eqb c (ascii_of_nat 10))) s = true.
Proof.
  apply all_chars_impl. intros c H. apply andb_true_iff in H. tauto.
Qed.

Lemma csv_safe_app (a b : string) :
  csv_safe (a ++ b) = csv_safe a && csv_safe b.
Proof. apply all_chars_app. Qed.

Lemma csv_safe_quoted (s : string) : csv_safe s = true -> csv_safe (quoted s) = true.
Proof.
  intros H. unfold quoted. rewrite !csv_safe_app, H. reflexivity.
Qed.

Lemma csv_safe_show_nat (n : nat) : csv_safe (show_nat n) = true.
Proof.
  apply (all_chars_impl _ _ (show_nat n)) with (2 := show_nat_digits n).
  intros c H. apply andb_true_iff in H. destruct H as [H1 H2].
  apply andb_true_iff. split; apply negb_true_iff; apply Ascii.eqb_neq;
    intros ->; vm_compute in H1; discriminate.
Qed.

Lemma fileRow_cells (file : FileExpertise) :
  csv_safe (fileName file) = true ->
  csv_safe (filePath file) = true ->
  csv_safe (primaryExpertName file) = true ->
  csv_safe (changeFrequency file) = true ->
  split_on "," EmptyString (fileRow file) = fileCells file /\
  all_chars (fun c => negb (Ascii.eqb c (ascii_of_nat 10))) (fileRow file) = true.
Proof.
  intros H1 H2 H3 H4.
  assert (Hcells : Forall (fun part => csv_safe part = true) (fileCells file)).
  { unfold fileCells. repeat constructor;
      auto using csv_safe_quoted, csv_safe_show_nat. }
  split.
  - unfold fileRow. apply split_on_join; [discriminate|].
    eapply Forall_impl; [|exact Hcells]. intros part. apply csv_safe_no_comma.
  - unfold fileRow, join, fileCells in *. cbn [concat].
    rewrite !all_chars_app.
    repeat match goal with
           | H : Forall _ (_ :: _) |- _ => inversion H; subst; clear H
           end.
    repeat (apply andb_true_iff; split);
      try reflexivity; apply csv_safe_no_newline; assumption.
Qed.

(** The files sheet reads back: when no cell holds a comma or a line end,
    splitting the sheet at line ends and commas gives the header cells and
    then, for each file in order, its five cells.  Nothing is escaped, so
    the condition is needed.  Without any file the sheet is the header
    line alone. *)
Theorem files_sheet_reads_back (analysis : ExpertiseAnalysis) :
  (fileExpertise analysis = [] -> generateCSV_files analysis = filesHeader) /\
  (fileExpertise analysis <> [] ->
   Forall (fun file =>
             csv_safe (fileName file) = true /\
             csv_safe (filePath file) = true /\
             csv_safe (primaryExpertName file) = true /\
             csv_safe (changeFrequency file) = true)
          (fileExpertise analysis) ->
   read_sheet (generateCSV_files analysis)
   = ["File Name"; "File Path"; "Expert Count"; "Primary Expert"; "Change Frequency"]
       :: map fileCells (fileExpertise analysis)).
Proof.
  unfold generateCSV_files. split.
  - intros ->. cbn [map]. unfold join. cbn [concat]. apply append_nil_r.
  - intros Hne Hsafe. unfold read_sheet, filesHeader.
    rewrite append_assoc.
    change (String (ascii_of_nat 10) EmptyString
              ++ join (String (ascii_of_nat 10) EmptyString)
                      (map fileRow (fileExpertise analysis)))
      with (String (ascii_of_nat 10)
                   (join (String (ascii_of_nat 10) EmptyString)
                         (map fileRow (fileExpertise analysis)))).
    rewrite split_on_piece by reflexivity.
    rewrite split_on_join.
    + cbn [map]. f_equal. rewrite map_map. apply map_ext_in.
      intros file Hf. rewrite Forall_forall in Hsafe.
      destruct (Hsafe file Hf) as [H1 [H2 [H3 H4]]].
      apply (fileRow_cells file H1 H2 H3 H4).
    + destruct (fileExpertise analysis); [congruence | discriminate].
    + apply Forall_forall. intros row Hrow. apply in_map_iff in Hrow.
      destruct Hrow as [file [<- Hf]]. rewrite Forall_forall in Hsafe.
      destruct (Hsafe file Hf) as [H1 [H2 [H3 H4]]].
      apply (fileRow_cells file H1 H2 H3 H4).
Qed.

Lemma files_sheet_reads_back_witness :
  fileExpertise (Samples.analysis 85 30) <> [] /\
  read_sheet (generateCSV_files (Samples.analysis 85 30))
  = ["File Name"; "File Path"; "Expert Count"; "Primary Expert"; "Change Frequency"]
      :: map fileCells (fileExpertise (Samples.analysis 85 30)).
Proof.
  assert (Hne : fileExpertise (Samples.analysis 85 30) <> []) by discriminate.
  split; [exact Hne|].
  apply (proj2 (files_sheet_reads_back (Samples.analysis 85 30)) Hne).
  repeat constructor.
Defined.

Lemma lastSegment_no_slash (s : string) :
  forall acc,
    all_chars (fun c => negb (Ascii.eqb c "/")) acc = true ->
    all_chars (fun c => negb (Ascii.eqb c "/")) (lastSegment acc s) = true.
Proof.
  induction s as [|c s IH]; intros acc Hacc; simpl.
  - exact Hacc.
  - destruct (Ascii.eqb c "/") eqn:E.
    + apply IH. reflexivity.
    + apply IH. rewrite all_chars_app, Hacc. simpl. rewrite E. reflexivity.
Qed.

Lemma lastSegment_free (name : string) :
  forall cur,
    all_chars (fun c => negb (Ascii.eqb c "/")) name = true ->
    lastSegment cur name = cur ++ name.
Proof.
  induction name as [|d name IH]; intros cur Hname; simpl in *.
  - symmetry. apply append_nil_r.
  - apply andb_true_iff in Hname. destruct Hname as [Hd Hn].
    apply negb_true_iff in Hd. rewrite Hd, IH by exact Hn.
    apply append_assoc.
Qed.

Lemma lastSegment_after_slash (prefix name : string) :
  forall acc,
    all_chars (fun c => negb (Ascii.eqb c "/")) name = true ->
    lastSegment acc (prefix ++ "/" ++ name) = name.
Proof.
  induction prefix as [|c prefix IH]; intros acc Hname.
  - simpl. apply lastSegment_free. exact Hname.
  - simpl. destruct (Ascii.eqb c "/"); apply IH; exact Hname.
Qed.

(** The repository name shown in the report is never empty and never
    holds a slash: it is what follows the last slash of
    [analysis.repository], or "analysis" when nothing follows it. *)
Theorem repoName_is_last_segment (analysis : ExpertiseAnalysis) :
  repoName analysis <> EmptyString /\
  all_chars (fun c => negb (Ascii.eqb c "/")) (repoName analysis) = true /\
  (forall prefix name,
      repository analysis = prefix ++ "/" ++ name ->
      all_chars (fun c => negb (Ascii.eqb c "/")) name = true ->
      repoName analysis = if String.eqb name EmptyString then "analysis" else name).
Proof.
  unfold repoName. split; [|split].
  - destruct (String.eqb_spec (lastSegment EmptyString (repository analysis)) EmptyString);
      [discriminate | assumption].
  - destruct (String.eqb (lastSegment EmptyString (repository analysis)) EmptyString);
      [reflexivity | apply lastSegment_no_slash; reflexivity].
  - intros prefix name -> Hname.
    rewrite lastSegment_after_slash by exact Hname. reflexivity.
Qed.

Lemma repoName_is_last_segment_witness :
  repository (Samples.analysis 85 30) = "octo" ++ "/" ++ "teamxray" /\
  repoName (Samples.analysis 85 30) = "teamxray".
Proof.
  assert (E : repository (Samples.analysis 85 30) = "octo" ++ "/" ++ "teamxray")
    by reflexivity.
  split; [exact E|].
  exact (proj2 (proj2 (repoName_is_last_segment (Samples.analysis 85 30)))
               "octo" "teamxray" E eq_refl).
Defined.

(** The summary names the profile with the most contributions, the first
    listed among equals; an analysis without profiles gets the fallback
    sentence. *)
Theorem summary_names_first_maximum (analysis : ExpertiseAnalysis) :
  (expertProfiles analysis = [] ->
   fst (generateAnalysisSummary analysis) = "No team analysis available.") /\
  (forall top,
      first_max contributions (expertProfiles analysis) top ->
      fst (generateAnalysisSummary analysis)
      = name top
          ++ " is the primary contributor and a potential bottleneck for CI/CD expertise.").
Proof.
  unfold generateAnalysisSummary. split.
  - intros ->. reflexivity.
  - intros top Hfm. destruct (first_max_sort_head Hfm) as [rest E].
    change (sort by_contributions_desc (expertProfiles analysis))
      with (sort (desc contributions) (expertProfiles analysis)).
    rewrite E. reflexivity.
Qed.

Lemma summary_names_first_maximum_witness :
  first_max contributions (expertProfiles (Samples.analysis 85 30)) Samples.senior /\
  fst (generateAnalysisSummary (Samples.analysis 85 30))
  = "Alice Chen is the primary contributor and a potential bottleneck for CI/CD expertise.".
Proof.
  assert (Hfm : first_max contributions (expertProfiles (Samples.analysis 85 30))
                          Samples.senior).
  { exists [Samples.junior], []. split; [reflexivity|]. split.
    - intros y [<-|[]]. simpl. lia.
    - intros y []. }
  split; [exact Hfm|].
  exact (proj2 (summary_names_first_maximum (Samples.analysis 85 30)) _ Hfm).
Defined.

Section Clock.

Variables (today now : string) (daysAgo : string -> string).

Local Abbreviation report := (generateHTMLReport today now daysAgo).



End Clock.

Section DaysAgoFacts.

Variable nowMs : Z.
Variable parseDate : string -> option Z.

Local Abbreviation days := (calculateDaysAgo nowMs parseDate).

(** A timestamp is read the same whether it comes in seconds, in
    milliseconds or as a [Date], as long as the seconds lie between 10^7
    and 9999999999: the answer is the whole days from then to now.  Below
    10^7 seconds the millisecond form is itself taken for seconds. *)
Theorem daysAgo_units_agree (seconds : Z) :
  (10000000 <= seconds <= 9999999999)%Z ->
  days (DateNumber seconds) = show_Z ((nowMs - seconds * 1000) / 86400000) /\
  days (DateNumber (seconds * 1000)%Z) = days (DateNumber seconds) /\
  days (DateObject (Some (seconds * 1000)%Z)) = days (DateNumber seconds).
Proof.
  intros H. unfold calculateDaysAgo, timeClip.
  destruct (Z.eqb_spec seconds 0) as [E0|_]; [lia|].
  destruct (Z.eqb_spec (seconds * 1000) 0) as [E0|_]; [lia|].
  destruct (Z.ltb_spec 9999999999 seconds) as [E1|_]; [lia|].
  destruct (Z.ltb_spec 9999999999 (seconds * 1000)) as [_|E2]; [|lia].
  rewrite Z.mul_1_r.
  destruct (Z.leb_spec (Z.abs (seconds * 1000)) 8640000000000000) as [_|E3]; [|lia].
  repeat split.
Qed.

(** What gives "N/A": no date, the timestamp 0, the empty string, a string
    that does not parse, an invalid [Date], a number beyond the range of
    dates, a value of another type; everything else gives a whole number
    of days. *)
Theorem daysAgo_not_available (input : DateInput) :
  days input = "N/A" \/
  exists t,
    (input = DateObject (Some t) \/
     (exists s, input = DateString s /\ s <> EmptyString /\ parseDate s = Some t) \/
     (exists n, input = DateNumber n /\ n <> 0%Z /\
                t = (if (9999999999 <? n)%Z then n else n * 1000)%Z /\
                (Z.abs t <= 8640000000000000)%Z)) /\
    days input = show_Z ((nowMs - t) / 86400000).
Proof.
  destruct input as [|[t|]|s|n|]; simpl; auto.
  - right. exists t. split; [left; reflexivity | reflexivity].
  - destruct (String.eqb_spec s EmptyString) as [->|Hs]; [left; reflexivity|].
    unfold calculateDaysAgo. destruct (String.eqb_spec s EmptyString); [contradiction|].
    destruct (parseDate s) as [t|] eqn:P; [|left; reflexivity].
    right. exists t. split; [|reflexivity].
    right. left. exists s. auto.
  - unfold calculateDaysAgo, timeClip.
    destruct (Z.eqb_spec n 0) as [->|Hn]; [left; reflexivity|].
    destruct (Z.ltb_spec 9999999999 n) as [Hbig|Hsmall].
    + rewrite Z.mul_1_r.
      destruct (Z.leb_spec (Z.abs n) 8640000000000000) as [Hr|Hr]; [|left; reflexivity].
      right. exists n. split; [|reflexivity].
      right. right. exists n.
      apply Z.ltb_lt in Hbig. rewrite Hbig. auto.
    + destruct (Z.leb_spec (Z.abs (n * 1000)) 8640000000000000) as [Hr|Hr];
        [|left; reflexivity].
      right. exists (n * 1000)%Z. split; [|reflexivity].
      right. right. exists n.
      apply Z.ltb_ge in Hsmall. rewrite Hsmall. auto.
Qed.

End DaysAgoFacts.

End ReportGeneratorMore.

Lemma daysAgo_units_agree_witness :
  (10000000 <= 1763596800 <= 9999999999)%Z /\
  ReportGenerator.calculateDaysAgo 1764547200000 (fun _ => None)
    (ReportGenerator.DateNumber 1763596800)
  = show_Z ((1764547200000 - 1763596800 * 1000) / 86400000) /\
  ReportGenerator.calculateDaysAgo 1764547200000 (fun _ => None)
    (ReportGenerator.DateNumber (1763596800 * 1000)%Z)
  = ReportGenerator.calculateDaysAgo 1764547200000 (fun _ => None)
      (ReportGenerator.DateNumber 1763596800) /\
  ReportGenerator.calculateDaysAgo 1764547200000 (fun _ => None)
    (ReportGenerator.DateObject (Some (1763596800 * 1000)%Z))
  = ReportGenerator.calculateDaysAgo 1764547200000 (fun _ => None)
      (ReportGenerator.DateNumber 1763596800).
Proof.
  assert (H : (10000000 <= 1763596800 <= 9999999999)%Z) by lia.
  split; [exact H|].
  exact (@daysAgo_units_agree 1764547200000 (fun _ => None) 1763596800 H).
Defined.

(* ================================================================== *)
(** * Regular expressions: the matcher is right *)
(* ================================================================== *)

Section RegExpFacts.

Import RegExp.

Lemma append_eq_nil (a b : string) :
  a ++ b = EmptyString -> a = EmptyString /\ b = EmptyString.
Proof. destruct a; simpl; [auto | discriminate]. Qed.

Lemma Matches_nil_nullable (r : re) (s : string) :
  Matches r s -> s = EmptyString -> nullable r = true.
Proof.
  induction 1 as [ | | r1 r2 s1 s2 _ IH1 _ IH2 | r1 r2 s _ IH | r1 r2 s _ IH | | ];
    intros E; simpl; try reflexivity; try discriminate.
  - apply append_eq_nil in E. destruct E as [E1 E2].
    rewrite (IH1 E1), (IH2 E2). reflexivity.
  - rewrite (IH E). reflexivity.
  - rewrite (IH E). apply orb_true_r.
Qed.

Lemma nullable_Matches_nil (r : re) : nullable r = true -> Matches r EmptyString.
Proof.
  induction r as [ | | p | r1 IH1 r2 IH2 | r1 IH1 r2 IH2 | r IH]; simpl; intros H;
    try discriminate.
  - constructor.
  - apply andb_true_iff in H. destruct H as [H1 H2].
    change EmptyString with (EmptyString ++ EmptyString). constructor; auto.
  - apply orb_true_iff in H. destruct H as [H|H];
      [apply MAltL | apply MAltR]; auto.
  - constructor.
Qed.

Lemma Matches_deriv (r : re) (t : string) :
  Matches r t -> forall c s, t = String c s -> Matches (deriv c r) s.
Proof.
  induction 1 as [ | p d Hp | r1 r2 s1 s2 H1 IH1 H2 IH2 | r1 r2 s0 _ IH
                   | r1 r2 s0 _ IH | | r s1 s2 H1 IH1 H2 IH2 ];
    intros c s E; simpl.
  - discriminate.
  - injection E as -> <-. rewrite Hp. constructor.
  - destruct s1 as [|d s1]; simpl in E.
    + apply MAltR. rewrite (Matches_nil_nullable H1 eq_refl). apply IH2. exact E.
    + injection E as -> <-. apply MAltL. constructor; [|exact H2].
      apply IH1. reflexivity.
  - apply MAltL. apply IH. exact E.
  - apply MAltR. apply IH. exact E.
  - discriminate.
  - destruct s1 as [|d s1]; simpl in E.
    + apply IH2. exact E.
    + injection E as -> <-. constructor; [|exact H2]. apply IH1. reflexivity.
Qed.

Lemma deriv_Matches (r : re) :
  forall c s, Matches (deriv c r) s -> Matches r (String c s).
Proof.
  induction r as [ | | p | r1 IH1 r2 IH2 | r1 IH1 r2 IH2 | r IH]; intros c s H;
    simpl in H.
  - inversion H.
  - inversion H.
  - destruct (p c) eqn:Hp; inversion H; subst. constructor. exact Hp.
  - inversion H as [ | | | ? ? ? HL | ? ? ? HR | | ]; subst.
    + inversion HL as [ | | ? ? s1 s2 Ha Hb | | | | ]; subst.
      change (String c (s1 ++ s2)) with (String c s1 ++ s2).
      constructor; [apply IH1; exact Ha | exact Hb].
    + destruct (nullable r1) eqn:N; [|inversion HR].
      change (String c s) with (EmptyString ++ String c s).
      constructor; [apply nullable_Matches_nil; exact N | apply IH2; exact HR].
  - inversion H; subst; [apply MAltL; apply IH1 | apply MAltR; apply IH2]; assumption.
  - inversion H as [ | | ? ? s1 s2 Ha Hb | | | | ]; subst.
    change (String c (s1 ++ s2)) with (String c s1 ++ s2).
    constructor; [apply IH; exact Ha | exact Hb].
Qed.

(** The matcher accepts exactly the strings the pattern stands for. *)
Lemma matches_spec (s : string) :
  forall r, matches r s = true <-> Matches r s.
Proof.
  induction s as [|c s IH]; intros r; simpl.
  - split; [apply nullable_Matches_nil | intros H; apply (Matches_nil_nullable H eq_refl)].
  - rewrite IH. split; [apply deriv_Matches | intros H; apply (Matches_deriv H eq_refl)].
Qed.

Lemma Matches_Lit (k s : string) : Matches (Lit k) s <-> s = k.
Proof.
  revert s. induction k as [|c k IH]; intros s; simpl.
  - split; [intros H; inversion H; reflexivity | intros ->; constructor].
  - split.
    + intros H. inversion H as [ | | ? ? s1 s2 Ha Hb | | | | ]; subst.
      inversion Ha as [ | ? d Hd | | | | | ]; subst.
      apply Ascii.eqb_eq in Hd. subst d. apply IH in Hb. subst s2. reflexivity.
    + intros ->. change (String c k) with (String c EmptyString ++ k).
      constructor; [constructor; apply Ascii.eqb_refl | apply IH; reflexivity].
Qed.

Lemma Matches_Star_Class (p : ascii -> bool) (s : string) :
  Matches (Star (Class p)) s <-> all_chars p s = true.
Proof.
  split.
  - intros H. remember (Star (Class p)) as r eqn:R.
    induction H as [ | | | | | | r0 s1 s2 H1 _ H2 IH2 ]; try discriminate.
    + reflexivity.
    + injection R as ->. inversion H1; subst. simpl.
      rewrite IH2 by reflexivity. rewrite andb_true_r. assumption.
  - induction s as [|c s IH]; simpl; intros H.
    + constructor.
    + apply andb_true_iff in H. destruct H as [Hc Hs].
      change (String c s) with (String c EmptyString ++ s).
      constructor; [constructor; exact Hc | apply IH; exact Hs].
Qed.

Lemma Matches_Plus_Class (p : ascii -> bool) (s : string) :
  Matches (Plus (Class p)) s <-> s <> EmptyString /\ all_chars p s = true.
Proof.
  unfold Plus. split.
  - intros H. inversion H as [ | | ? ? s1 s2 Ha Hb | | | | ]; subst.
    inversion Ha; subst. apply Matches_Star_Class in Hb. simpl.
    split; [discriminate|]. rewrite Hb, andb_true_r. assumption.
  - intros [Hne H]. destruct s as [|c s]; [congruence|]. simpl in H.
    apply andb_true_iff in H. destruct H as [Hc Hs].
    change (String c s) with (String c EmptyString ++ s).
    constructor; [constructor; exact Hc | apply Matches_Star_Class; exact Hs].
Qed.

Lemma Matches_Cat (r1 r2 : re) (s : string) :
  Matches (Cat r1 r2) s <-> exists s1 s2, s = s1 ++ s2 /\ Matches r1 s1 /\ Matches r2 s2.
Proof.
  split.
  - intros H. inversion H; subst. eauto.
  - intros [s1 [s2 [-> [H1 H2]]]]. constructor; assumption.
Qed.

Lemma Matches_Alt (r1 r2 : re) (s : string) :
  Matches (Alt r1 r2) s <-> Matches r1 s \/ Matches r2 s.
Proof.
  split.
  - intros H. inversion H; subst; auto.
  - intros [H|H]; [apply MAltL | apply MAltR]; exact H.
Qed.

Lemma Matches_Any_star (s : string) : Matches (Star Any) s.
Proof.
  apply Matches_Star_Class. induction s; simpl; auto.
Qed.

(** An unanchored [test] finds the pattern somewhere in the string. *)
Lemma test_spec (r : re) (s : string) :
  test r s = true <-> exists pre mid post, s = pre ++ mid ++ post /\ Matches r mid.
Proof.
  unfold test. rewrite matches_spec, Matches_Cat. split.
  - intros [pre [rest [-> [_ H]]]]. apply Matches_Cat in H.
    destruct H as [mid [post [-> [H _]]]]. eauto.
  - intros [pre [mid [post [-> H]]]]. exists pre, (mid ++ post).
    split; [reflexivity|]. split; [apply Matches_Any_star|].
    constructor; [exact H | apply Matches_Any_star].
Qed.

End RegExpFacts.

(* ================================================================== *)
(** * The validators *)
(* ================================================================== *)

Section ValidatorFacts.

Import RegExp Validator.

Lemma rejected_consistent (msg : string) : consistent (rejected msg).
Proof.
  unfold consistent, rejected. simpl. repeat split; try discriminate. lia.
Qed.

Lemma accepted_consistent : consistent accepted.
Proof.
  unfold consistent, accepted. simpl. repeat split. lia.
Qed.

Create HintDb validators.

Local Hint Resolve rejected_consistent accepted_consistent : validators.

Ltac by_cases :=
  repeat match goal with
         | |- context [if ?b then _ else _] => destruct b
         end;
  auto with validators.

(** Every validator that answers at once keeps its result in order: it is
    valid exactly when no error is listed, it lists at most one error, and
    never a warning.  ([validateApiResponse], when it returns;
    [validateAndParseJSON] also hands out the parsed value exactly when
    the result is valid.) *)
Theorem validators_results_consistent :
  (forall email, consistent (validateEmail email)) /\
  (forall repository, consistent (validateRepository repository)) /\
  (forall input, consistent (validateShellInput input)) /\
  (forall output, consistent (validateGitOutput output)) /\
  (forall statThrows filePath, consistent (validateFilePath statThrows filePath)) /\
  (forall show value min max fieldName,
      consistent (validateNumericRange show value min max fieldName)) /\
  (forall parseURL url, consistent (validateURL parseURL url)) /\
  (forall parse jsonString,
      consistent (fst (validateAndParseJSON parse jsonString)) /\
      (isValid (fst (validateAndParseJSON parse jsonString)) = true <->
       exists parsed, snd (validateAndParseJSON parse jsonString) = Some parsed)) /\
  (forall response requiredFields r,
      validateApiResponse response requiredFields = Return r -> consistent r).
Proof.
  split; [|split; [|split; [|split; [|split; [|split; [|split; [|split]]]]]]].
  - intros email. unfold validateEmail. by_cases.
  - intros repository. unfold validateRepository. by_cases.
  - intros input. unfold validateShellInput. by_cases.
  - intros output. unfold validateGitOutput. by_cases.
  - intros statThrows filePath. unfold validateFilePath. by_cases.
  - intros show value min max fieldName. unfold validateNumericRange.
    destruct value; by_cases.
  - intros parseURL url. unfold validateURL.
    destruct (String.eqb url EmptyString); [auto with validators|].
    destruct (parseURL url) as [[protocol hostname]|]; by_cases.
  - intros parse jsonString. unfold validateAndParseJSON.
    destruct (String.eqb jsonString EmptyString || String.eqb (trim jsonString) EmptyString);
      [|destruct (parse jsonString)]; cbn [fst snd];
      (split; [auto with validators|]); simpl;
      (split; [try discriminate; eauto | intros [parsed H]; try discriminate; reflexivity]).
  - intros response requiredFields r. unfold validateApiResponse.
    destruct (negb (truthy response)).
    + intros [= <-]. auto with validators.
    + destruct response; try (intros [= <-]; auto with validators).
      destruct requiredFields; [|destruct (property fields "hasOwnProperty")];
        try discriminate; by_cases; intros [= <-]; auto with validators.
Qed.

Lemma Matches_Char (c : ascii) (s : string) :
  Matches (Char c) s <-> s = String c EmptyString.
Proof.
  unfold Char. split.
  - intros H. inversion H as [ | ? d Hd | | | | | ]; subst.
    apply Ascii.eqb_eq in Hd. subst. reflexivity.
  - intros ->. constructor. apply Ascii.eqb_refl.
Qed.

Lemma emailRegex_spec (email : string) :
  test_whole emailRegex email = true <->
  exists local domain tld,
    email = local ++ "@" ++ domain ++ "." ++ tld /\
    local <> EmptyString /\ domain <> EmptyString /\ tld <> EmptyString /\
    all_chars notSpaceAt local = true /\
    all_chars notSpaceAt domain = true /\
    all_chars notSpaceAt tld = true.
Proof.
  unfold test_whole, emailRegex. rewrite matches_spec. split.
  - intros H.
    apply Matches_Cat in H. destruct H as [l [r1 [-> [Hl H]]]].
    apply Matches_Cat in H. destruct H as [a [r2 [-> [Ha H]]]].
    apply Matches_Cat in H. destruct H as [d [r3 [-> [Hd H]]]].
    apply Matches_Cat in H. destruct H as [dot [t [-> [Hdot Ht]]]].
    apply Matches_Char in Ha. apply Matches_Char in Hdot. subst a dot.
    apply Matches_Plus_Class in Hl. apply Matches_Plus_Class in Hd.
    apply Matches_Plus_Class in Ht.
    exists l, d, t. tauto.
  - intros [l [d [t [-> [Hl [Hd [Ht [Al [Ad At']]]]]]]]].
    constructor; [apply Matches_Plus_Class; auto|].
    constructor; [apply Matches_Char; reflexivity|].
    constructor; [apply Matches_Plus_Class; auto|].
    constructor; [apply Matches_Char; reflexivity|].
    apply Matches_Plus_Class; auto.
Qed.

Lemma validateEmail_valid_iff (email : string) :
  isValid (validateEmail email) = true <->
  email <> EmptyString /\ test_whole emailRegex email = true.
Proof.
  unfold validateEmail.
  destruct (String.eqb_spec email EmptyString) as [->|Hne]; simpl.
  - split; [discriminate | intros [H _]; congruence].
  - destruct (test_whole emailRegex email); simpl; split; auto;
      try discriminate; intros [_ H]; discriminate.
Qed.

(** What the simple email pattern accepts.  An accepted address is a local
    part, an at sign, and a domain with a dot inside, none of them empty or
    holding a white-space character of ASCII or another at sign; and every
    address of that shape written in ASCII is accepted.  (Beyond ASCII the
    white-space class of the pattern has more characters than are told
    apart here, so nothing is said of such addresses being accepted.) *)
Theorem validateEmail_shape (email : string) :
  (isValid (validateEmail email) = true ->
   exists local domain tld,
     email = local ++ "@" ++ domain ++ "." ++ tld /\
     local <> EmptyString /\ domain <> EmptyString /\ tld <> EmptyString /\
     all_chars notSpaceAt local = true /\
     all_chars notSpaceAt domain = true /\
     all_chars notSpaceAt tld = true) /\
  (all_chars (fun c => (nat_of_ascii c <? 128)%nat) email = true ->
   (exists local domain tld,
       email = local ++ "@" ++ domain ++ "." ++ tld /\
       local <> EmptyString /\ domain <> EmptyString /\ tld <> EmptyString /\
       all_chars notSpaceAt local = true /\
       all_chars notSpaceAt domain = true /\
       all_chars notSpaceAt tld = true) ->
   isValid (validateEmail email) = true).
Proof.
  rewrite validateEmail_valid_iff, emailRegex_spec. split.
  - intros [_ H]. exact H.
  - intros _ H. split; [|exact H].
    destruct H as [l [d [t [-> _]]]]. destruct l; discriminate.
Qed.

Lemma validateEmail_shape_witness :
  all_chars (fun c => (nat_of_ascii c <? 128)%nat) "andrea@mainbranch.dev" = true /\
  isValid (validateEmail "andrea@mainbranch.dev") = true.
Proof.
  assert (H : all_chars (fun c => (nat_of_ascii c <? 128)%nat)
                        "andrea@mainbranch.dev" = true) by reflexivity.
  split; [exact H|].
  apply (proj2 (validateEmail_shape "andrea@mainbranch.dev") H).
  exists "andrea", "mainbranch", "dev". repeat split; discriminate.
Defined.

Ltac ascii_cases c :=
  destruct c as [[] [] [] [] [] [] [] []]; vm_compute; intros;
  try discriminate; repeat split.

Lemma remove_chars_clean (p : ascii -> bool) (s : string) :
  all_chars (fun c => negb (p c)) (remove_chars p s) = true.
Proof.
  induction s as [|c s IH]; simpl; [reflexivity|].
  destruct (p c) eqn:E; simpl; [exact IH | rewrite E, IH; reflexivity].
Qed.

Lemma remove_chars_length (p : ascii -> bool) (s : string) :
  (String.length (remove_chars p s) <= String.length s)%nat.
Proof.
  induction s as [|c s IH]; simpl; [lia|]. destruct (p c); simpl; lia.
Qed.

(** Nothing is dropped exactly when nothing is in the class. *)
Lemma remove_chars_fixed (p : ascii -> bool) (s : string) :
  remove_chars p s = s <-> all_chars (fun c => negb (p c)) s = true.
Proof.
  induction s as [|c s IH]; simpl; [tauto|].
  destruct (p c) eqn:E; simpl.
  - split; [|discriminate]. intros H.
    pose proof (remove_chars_length p s) as L. rewrite H in L. simpl in L. lia.
  - rewrite <- IH. split; [intros [= H]; exact H | intros ->; reflexivity].
Qed.

Lemma remove_chars_ext (p q : ascii -> bool) (s : string) :
  all_chars (fun c => Bool.eqb (p c) (q c)) s = true ->
  remove_chars p s = remove_chars q s.
Proof.
  induction s as [|c s IH]; simpl; [reflexivity|].
  rewrite andb_true_iff. intros [Hc Hs]. apply Bool.eqb_prop in Hc.
  rewrite Hc, (IH Hs). reflexivity.
Qed.

Lemma trimEnd_fixed (s : string) :
  all_chars (fun c => negb (is_space c)) s = true -> trimEnd s = s.
Proof.
  induction s as [|c s IH]; simpl; [reflexivity|].
  rewrite andb_true_iff. intros [Hc Hs]. apply negb_true_iff in Hc.
  rewrite Hc, (IH Hs). reflexivity.
Qed.

Lemma trim_fixed (s : string) :
  all_chars (fun c => negb (is_space c)) s = true -> trim s = s.
Proof.
  intros H. unfold trim.
  assert (E : trimStart s = s).
  { destruct s as [|c s]; [reflexivity|]. simpl in *.
    apply andb_true_iff in H. destruct H as [Hc _].
    apply negb_true_iff in Hc. rewrite Hc. reflexivity. }
  rewrite E. apply trimEnd_fixed. exact H.
Qed.

Lemma Matches_AtLeast2_Class (p : ascii -> bool) (s : string) :
  Matches (AtLeast2 (Class p)) s <->
  (2 <= String.length s)%nat /\ all_chars p s = true.
Proof.
  unfold AtLeast2. split.
  - intros H. apply Matches_Cat in H. destruct H as [a [r [-> [Ha H]]]].
    apply Matches_Cat in H. destruct H as [b [t [-> [Hb Ht]]]].
    inversion Ha; subst. inversion Hb; subst.
    apply Matches_Star_Class in Ht. simpl.
    repeat match goal with H : _ = true |- _ => rewrite H end.
    split; [lia | reflexivity].
  - intros [Hl H]. destruct s as [|a [|b t]]; simpl in Hl; try lia.
    simpl in H. apply andb_true_iff in H. destruct H as [Ha H].
    apply andb_true_iff in H. destruct H as [Hb Ht].
    change (String a (String b t))
      with (String a EmptyString ++ String b EmptyString ++ t).
    constructor; [constructor; exact Ha|].
    constructor; [constructor; exact Hb|].
    apply Matches_Star_Class. exact Ht.
Qed.

Lemma strictEmailRegex_spec (email : string) :
  test_whole strictEmailRegex email = true <->
  exists local domain tld,
    email = local ++ "@" ++ domain ++ "." ++ tld /\
    local <> EmptyString /\ domain <> EmptyString /\
    (2 <= String.length tld)%nat /\
    all_chars localChar local = true /\
    all_chars domainChar domain = true /\
    all_chars is_alpha tld = true.
Proof.
  unfold test_whole, strictEmailRegex. rewrite matches_spec. split.
  - intros H.
    apply Matches_Cat in H. destruct H as [l [r1 [-> [Hl H]]]].
    apply Matches_Cat in H. destruct H as [a [r2 [-> [Ha H]]]].
    apply Matches_Cat in H. destruct H as [d [r3 [-> [Hd H]]]].
    apply Matches_Cat in H. destruct H as [dot [t [-> [Hdot Ht]]]].
    apply Matches_Char in Ha. apply Matches_Char in Hdot. subst a dot.
    apply Matches_Plus_Class in Hl. apply Matches_Plus_Class in Hd.
    apply Matches_AtLeast2_Class in Ht.
    exists l, d, t. tauto.
  - intros [l [d [t [-> [Hl [Hd [Ht [Al [Ad At']]]]]]]]].
    constructor; [apply Matches_Plus_Class; auto|].
    constructor; [apply Matches_Char; reflexivity|].
    constructor; [apply Matches_Plus_Class; auto|].
    constructor; [apply Matches_Char; reflexivity|].
    apply Matches_AtLeast2_Class; auto.
Qed.

Lemma localChar_plain (c : ascii) :
  localChar c = true ->
  notSpaceAt c = true /\ emailMeta c = false /\ is_space c = false.
Proof. ascii_cases c. Qed.

Lemma domainChar_plain (c : ascii) :
  domainChar c = true ->
  notSpaceAt c = true /\ emailMeta c = false /\ is_space c = false.
Proof. ascii_cases c. Qed.

Lemma is_alpha_plain (c : ascii) :
  is_alpha c = true ->
  notSpaceAt c = true /\ emailMeta c = false /\ is_space c = false.
Proof. ascii_cases c. Qed.

Lemma is_newline_space (c : ascii) : is_space c = false -> is_newline c = false.
Proof. ascii_cases c. Qed.

Lemma strict_email_plain (email : string) :
  test_whole strictEmailRegex email = true ->
  test_whole emailRegex email = true /\
  all_chars (fun c => negb (emailMeta c) && negb (is_space c)) email = true.
Proof.
  intros H. apply strictEmailRegex_spec in H.
  destruct H as [l [d [t [-> [Hl [Hd [Ht [Al [Ad At']]]]]]]]].
  assert (Pl : all_chars (fun c => notSpaceAt c && (negb (emailMeta c) && negb (is_space c))) l
               = true).
  { apply (all_chars_impl localChar); [|exact Al].
    intros c Hc. destruct (localChar_plain c Hc) as [-> [-> ->]]. reflexivity. }
  assert (Pd : all_chars (fun c => notSpaceAt c && (negb (emailMeta c) && negb (is_space c))) d
               = true).
  { apply (all_chars_impl domainChar); [|exact Ad].
    intros c Hc. destruct (domainChar_plain c Hc) as [-> [-> ->]]. reflexivity. }
  assert (Pt : all_chars (fun c => notSpaceAt c && (negb (emailMeta c) && negb (is_space c))) t
               = true).
  { apply (all_chars_impl is_alpha); [|exact At'].
    intros c Hc. destruct (is_alpha_plain c Hc) as [-> [-> ->]]. reflexivity. }
  split.
  - apply emailRegex_spec. exists l, d, t.
    split; [reflexivity|]. split; [exact Hl|]. split; [exact Hd|].
    split; [destruct t; [simpl in Ht; lia | discriminate]|].
    repeat split;
      (eapply all_chars_impl; [|eassumption]);
      intros c Hc; apply andb_true_iff in Hc; tauto.
  - rewrite !all_chars_app.
    repeat (apply andb_true_iff; split); try reflexivity;
      (eapply all_chars_impl; [|eassumption]);
      intros c Hc; apply andb_true_iff in Hc; tauto.
Qed.

(** An address that [sanitizeEmail] returns holds no shell metacharacter
    and no white space, passes [validateEmail], and is left as it is when
    sanitized again. *)
Theorem sanitizeEmail_result (email result : string) :
  sanitizeEmail email = Return result ->
  all_chars (fun c => negb (emailMeta c) && negb (is_space c)) result = true /\
  isValid (validateEmail result) = true /\
  sanitizeEmail result = Return result.
Proof.
  unfold sanitizeEmail at 1.
  set (sanitized := trim _).
  destruct (test_whole strictEmailRegex sanitized) eqn:T; simpl; [|discriminate].
  intros [= <-].
  destruct (strict_email_plain _ T) as [Hsimple Hplain].
  split; [exact Hplain|]. split.
  - apply validateEmail_valid_iff. split; [|exact Hsimple].
    apply strictEmailRegex_spec in T. destruct T as [l [d [t [E [Hl _]]]]].
    rewrite E. destruct l; [congruence | discriminate].
  - assert (Hmeta : remove_chars emailMeta sanitized = sanitized).
    { apply remove_chars_fixed. eapply all_chars_impl; [|exact Hplain].
      intros c Hc. apply andb_true_iff in Hc. tauto. }
    assert (Hspace : all_chars (fun c => negb (is_space c)) sanitized = true).
    { eapply all_chars_impl; [|exact Hplain].
      intros c Hc. apply andb_true_iff in Hc. tauto. }
    assert (Hnl : remove_chars is_newline sanitized = sanitized).
    { apply remove_chars_fixed. eapply all_chars_impl; [|exact Hspace].
      intros c Hc. apply negb_true_iff in Hc. apply negb_true_iff.
      apply is_newline_space. exact Hc. }
    assert (Hsp : remove_chars is_space sanitized = sanitized).
    { apply remove_chars_fixed. exact Hspace. }
    unfold sanitizeEmail.
    rewrite Hmeta, Hnl, Hsp, (trim_fixed _ Hspace), T. reflexivity.
Qed.

Lemma sanitizeEmail_result_witness :
  sanitizeEmail "alice chen@example.com;" = Return "alicechen@example.com" /\
  isValid (validateEmail "alicechen@example.com") = true /\
  sanitizeEmail "alicechen@example.com" = Return "alicechen@example.com".
Proof.
  assert (H : sanitizeEmail "alice chen@example.com;" = Return "alicechen@example.com")
    by reflexivity.
  split; [exact H|]. exact (proj2 (sanitizeEmail_result _ H)).
Defined.

Lemma notSlash_app (a b : string) :
  all_chars notSlash (a ++ b) = all_chars notSlash a && all_chars notSlash b.
Proof. apply all_chars_app. Qed.

(** What [validateRepository] accepts: [owner/repo], or that behind
    [https://github.com/], with owner and repository name not empty and
    free of slashes; nothing else.  The optional [.git] of the pattern adds
    nothing, a name may end in [.git] anyway. *)
Theorem validateRepository_shape (repository : string) :
  isValid (validateRepository repository) = true <->
  exists owner repo,
    (repository = owner ++ "/" ++ repo \/
     repository = "https://github.com/" ++ owner ++ "/" ++ repo) /\
    owner <> EmptyString /\ repo <> EmptyString /\
    all_chars notSlash owner = true /\ all_chars notSlash repo = true.
Proof.
  assert (Hname : forall s,
             test_whole githubNameRegex s = true <->
             exists owner repo,
               s = owner ++ "/" ++ repo /\
               owner <> EmptyString /\ repo <> EmptyString /\
               all_chars notSlash owner = true /\ all_chars notSlash repo = true).
  { intros s. unfold test_whole, githubNameRegex. rewrite matches_spec. split.
    - intros H.
      apply Matches_Cat in H. destruct H as [o [r1 [-> [Ho H]]]].
      apply Matches_Cat in H. destruct H as [sl [r [-> [Hs Hr]]]].
      apply Matches_Char in Hs. subst sl.
      apply Matches_Plus_Class in Ho. apply Matches_Plus_Class in Hr.
      exists o, r. tauto.
    - intros [o [r [-> [Ho [Hr [Ao Ar]]]]]].
      constructor; [apply Matches_Plus_Class; auto|].
      constructor; [apply Matches_Char; reflexivity|].
      apply Matches_Plus_Class; auto. }
  assert (Hurl : forall s,
             test_whole githubUrlRegex s = true <->
             exists owner repo,
               s = "https://github.com/" ++ owner ++ "/" ++ repo /\
               owner <> EmptyString /\ repo <> EmptyString /\
               all_chars notSlash owner = true /\ all_chars notSlash repo = true).
  { intros s. unfold test_whole, githubUrlRegex. rewrite matches_spec. split.
    - intros H.
      apply Matches_Cat in H. destruct H as [pre [r0 [-> [Hp H]]]].
      apply Matches_Lit in Hp. subst pre.
      apply Matches_Cat in H. destruct H as [o [r1 [-> [Ho H]]]].
      apply Matches_Cat in H. destruct H as [sl [r2 [-> [Hs H]]]].
      apply Matches_Char in Hs. subst sl.
      apply Matches_Cat in H. destruct H as [r [g [-> [Hr Hg]]]].
      apply Matches_Plus_Class in Ho. apply Matches_Plus_Class in Hr.
      exists o, (r ++ g). split; [reflexivity|]. split; [tauto|].
      split; [destruct r; [tauto | discriminate]|]. split; [tauto|].
      rewrite notSlash_app. destruct Hr as [_ ->].
      apply Matches_Alt in Hg. destruct Hg as [Hg|Hg].
      + inversion Hg. reflexivity.
      + apply Matches_Lit in Hg. subst g. reflexivity.
    - intros [o [r [-> [Ho [Hr [Ao Ar]]]]]].
      constructor; [apply Matches_Lit; reflexivity|].
      constructor; [apply Matches_Plus_Class; auto|].
      constructor; [apply Matches_Char; reflexivity|].
      rewrite <- (append_nil_r r).
      constructor; [apply Matches_Plus_Class; auto|].
      apply MAltL. constructor. }
  unfold validateRepository.
  destruct (String.eqb_spec repository EmptyString) as [->|Hne]; simpl.
  - split; [discriminate|].
    intros [o [r [[E|E] [Ho _]]]]; [destruct o; [congruence|] |]; discriminate.
  - destruct (test_whole githubUrlRegex repository) eqn:U; simpl.
    + split; [intros _|reflexivity].
      apply Hurl in U. destruct U as [o [r [E H]]]. exists o, r. tauto.
    + destruct (test_whole githubNameRegex repository) eqn:N; simpl.
      * split; [intros _|reflexivity].
        apply Hname in N. destruct N as [o [r [E H]]]. exists o, r. tauto.
      * split; [discriminate|].
        intros [o [r [[E|E] H]]].
        -- assert (T : test_whole githubNameRegex repository = true)
             by (apply Hname; exists o, r; tauto).
           congruence.
        -- assert (T : test_whole githubUrlRegex repository = true)
             by (apply Hurl; exists o, r; tauto).
           congruence.
Qed.

(** What [sanitizeShellInput] gives holds none of the characters of its
    class; sanitizing again changes nothing; and an input comes back
    untouched exactly when it held none of them. *)
Theorem sanitizeShellInput_clean (input : string) :
  all_chars (fun c => negb (shellMeta c)) (sanitizeShellInput input) = true /\
  sanitizeShellInput (sanitizeShellInput input) = sanitizeShellInput input /\
  (sanitizeShellInput input = input <->
   all_chars (fun c => negb (shellMeta c)) input = true) /\
  (String.length (sanitizeShellInput input) <= String.length input)%nat.
Proof.
  unfold sanitizeShellInput. split; [apply remove_chars_clean|].
  split; [apply remove_chars_fixed; apply remove_chars_clean|].
  split; [apply remove_chars_fixed | apply remove_chars_length].
Qed.

(** Looking for a one-character text is looking for the character. *)
Lemma includes_char (c : ascii) (s : string) :
  includes s (String c EmptyString)
  = negb (all_chars (fun d => negb (Ascii.eqb d c)) s).
Proof.
  induction s as [|d s IH].
  - reflexivity.
  - change (includes (String d s) (String c EmptyString))
      with (startsWith (String d s) (String c EmptyString)
            || includes s (String c EmptyString)).
    rewrite IH. simpl all_chars. unfold startsWith. simpl.
    destruct (ascii_dec c d) as [->|Hcd].
    + rewrite Ascii.eqb_refl. destruct s; reflexivity.
    + destruct (Ascii.eqb_spec d c) as [->|_]; [congruence|]. reflexivity.
Qed.

(** A text can only be found where its first character is. *)
Lemma includes_first_char (c : ascii) (k s : string) :
  includes s (String c k) = true ->
  all_chars (fun d => negb (Ascii.eqb d c)) s = false.
Proof.
  intros H. apply includes_spec in H. destruct H as [pre [post ->]].
  rewrite all_chars_app. simpl. rewrite Ascii.eqb_refl. simpl.
  apply andb_false_r.
Qed.

Lemma valid_shell_input_no_listed_char (input : string) :
  isValid (validateShellInput input) = true ->
  forall char, In char dangerousChars -> includes input char = false.
Proof.
  unfold validateShellInput.
  destruct (String.eqb input EmptyString); [discriminate|].
  destruct (filter (fun char => includes input char) dangerousChars) as [|x l] eqn:F;
    [|discriminate].
  intros _ char Hin.
  destruct (includes input char) eqn:I; [|reflexivity].
  assert (Hf : In char (filter (fun char => includes input char) dangerousChars))
    by (apply filter_In; auto).
  rewrite F in Hf. destruct Hf.
Qed.

Lemma filter_none {B} (p : B -> bool) (l : list B) :
  Forall (fun x => p x = false) l -> filter p l = [].
Proof.
  induction 1 as [|x l Hx _ IH]; simpl; [reflexivity|]. rewrite Hx. exact IH.
Qed.

(** [validateShellInput] and [sanitizeShellInput] do not agree on line
    ends.  The validator looks for the two-character texts backslash-n and
    backslash-r, not for the characters: an input it accepts can only lose
    line feeds and carriage returns to the sanitizer, and an input made of
    nothing but these is accepted although the sanitizer empties it. *)
Theorem shell_validation_misses_line_ends :
  (forall input,
      isValid (validateShellInput input) = true ->
      sanitizeShellInput input = remove_chars is_newline input) /\
  (forall input,
      input <> EmptyString ->
      all_chars is_newline input = true ->
      isValid (validateShellInput input) = true /\
      sanitizeShellInput input = EmptyString).
Proof.
  split.
  - intros input Hv.
    pose proof (valid_shell_input_no_listed_char _ Hv) as Hno.
    unfold sanitizeShellInput. apply remove_chars_ext.
    assert (Hc : forall c,
               In c ["&"; "|"; ";"; "`"; "$"; "("; ")"; ">"; "<"]%char ->
               all_chars (fun d => negb (Ascii.eqb d c)) input = true).
    { intros c Hin.
      assert (Hd : In (String c EmptyString) dangerousChars).
      { simpl in Hin. unfold dangerousChars.
        repeat (destruct Hin as [<-|Hin]; [simpl; tauto|]). destruct Hin. }
      specialize (Hno _ Hd). rewrite includes_char in Hno.
      apply negb_false_iff in Hno. exact Hno. }
    clear Hno Hv. induction input as [|d input IH]; [reflexivity|].
    simpl. apply andb_true_iff. split.
    + unfold shellMeta.
      replace (existsb (Ascii.eqb d) ["&"; "|"; ";"; "`"; "$"; "("; ")"; ">"; "<"]%char)
        with false; [simpl; apply Bool.eqb_reflx|].
      symmetry. apply not_true_is_false. intros He.
      apply existsb_exists in He. destruct He as [c [Hin Hdc]].
      apply Ascii.eqb_eq in Hdc. subst c.
      specialize (Hc d Hin). simpl in Hc. rewrite Ascii.eqb_refl in Hc. discriminate.
    + apply IH. intros c Hin. specialize (Hc c Hin). simpl in Hc.
      apply andb_true_iff in Hc. tauto.
  - intros input Hne Hall. split.
    + unfold validateShellInput.
      destruct (String.eqb_spec input EmptyString) as [E|_]; [contradiction|].
      replace (filter (fun char => includes input char) dangerousChars) with (@nil string);
        [reflexivity|].
      symmetry. apply filter_none.
      unfold dangerousChars.
      repeat (constructor;
              [match goal with
               | |- includes _ (String ?c ?k) = false =>
                   destruct (includes input (String c k)) eqn:I; [|reflexivity];
                   apply includes_first_char in I;
                   rewrite (all_chars_impl is_newline (fun d => negb (Ascii.eqb d c)) input)
                     in I; [discriminate | | exact Hall];
                   let d := fresh "d" in intros d; ascii_cases d
               end|]).
      constructor.
    + unfold sanitizeShellInput.
      induction input as [|d input IH]; [reflexivity|].
      simpl in *. apply andb_true_iff in Hall. destruct Hall as [Hd Hall].
      unfold shellMeta at 1. rewrite Hd, orb_true_r.
      destruct input; [reflexivity|]. apply IH; [discriminate | exact Hall].
Qed.

Lemma shell_validation_misses_line_ends_witness :
  String (ascii_of_nat 10) (String (ascii_of_nat 13) EmptyString) <> EmptyString /\
  isValid (validateShellInput
             (String (ascii_of_nat 10) (String (ascii_of_nat 13) EmptyString))) = true /\
  sanitizeShellInput (String (ascii_of_nat 10) (String (ascii_of_nat 13) EmptyString))
  = EmptyString.
Proof.
  assert (Hne : String (ascii_of_nat 10) (String (ascii_of_nat 13) EmptyString)
                <> EmptyString) by discriminate.
  split; [exact Hne|].
  exact (proj2 shell_validation_misses_line_ends _ Hne eq_refl).
Defined.

(** A string is free of [c], or has a first [c]. *)
Lemma first_occurrence (c : ascii) (s : string) :
  all_chars (fun d => negb (Ascii.eqb d c)) s = true \/
  exists a b, s = a ++ String c b /\ all_chars (fun d => negb (Ascii.eqb d c)) a = true.
Proof.
  induction s as [|d s IH]; simpl; [left; reflexivity|].
  destruct (Ascii.eqb_spec d c) as [->|Hdc]; simpl.
  - right. exists EmptyString, s. split; reflexivity.
  - destruct IH as [H|[a [b [-> Ha]]]]; [left; exact H|].
    right. exists (String d a), b. split; [reflexivity|]. simpl.
    destruct (Ascii.eqb_spec d c); [contradiction|]. exact Ha.
Qed.

Lemma Matches_LitI (k w : string) :
  Matches (LitI k) w <-> toLowerCase w = toLowerCase k.
Proof.
  revert w. induction k as [|c k IH]; intros w; simpl.
  - split.
    + intros H. inversion H. reflexivity.
    + destruct w; [constructor | discriminate].
  - split.
    + intros H. apply Matches_Cat in H. destruct H as [a [b [-> [Ha Hb]]]].
      inversion Ha as [ | ? d Hd | | | | | ]; subst.
      apply Ascii.eqb_eq in Hd. apply IH in Hb. simpl. congruence.
    + destruct w as [|d w]; simpl; [discriminate|]. intros [= Hd Hw].
      change (String d w) with (String d EmptyString ++ w).
      constructor; [constructor; rewrite Hd; apply Ascii.eqb_refl | apply IH; exact Hw].
Qed.

Lemma git_output_rejected (pattern : re) (output pre mid post : string) :
  In pattern dangerousPatterns ->
  output = pre ++ mid ++ post ->
  Matches pattern mid ->
  isValid (validateGitOutput output) = false.
Proof.
  intros Hin E Hm. unfold validateGitOutput.
  destruct (String.eqb output EmptyString); [reflexivity|].
  replace (existsb (fun p => test p output) dangerousPatterns) with true; [reflexivity|].
  symmetry. apply existsb_exists. exists pattern. split; [exact Hin|].
  apply test_spec. exists pre, mid, post. auto.
Qed.

(** What [validateGitOutput] never lets through: two backquotes anywhere
    in the output, a [$(] with a closing parenthesis somewhere after it,
    and a bar followed, after any white space, by [sh] or [bash] in any
    mix of upper and lower case. *)
Theorem validateGitOutput_rejects :
  (forall pre mid post,
      isValid (validateGitOutput (pre ++ "`" ++ mid ++ "`" ++ post)) = false) /\
  (forall pre mid post,
      isValid (validateGitOutput (pre ++ "$(" ++ mid ++ ")" ++ post)) = false) /\
  (forall pre gap shell post,
      all_chars is_space gap = true ->
      toLowerCase shell = "sh" \/ toLowerCase shell = "bash" ->
      isValid (validateGitOutput (pre ++ "|" ++ gap ++ shell ++ post)) = false).
Proof.
  split; [|split].
  - intros pre mid post.
    destruct (first_occurrence "`" mid) as [Hfree|[a [b [-> Ha]]]].
    + apply (@git_output_rejected
               (Cat (Char "`") (Cat (Star (Class (fun c => negb (Ascii.eqb c "`"))))
                                    (Char "`")))
               _ pre ("`" ++ mid ++ "`") post).
      * unfold dangerousPatterns. simpl. tauto.
      * rewrite !append_assoc. reflexivity.
      * constructor; [apply Matches_Char; reflexivity|].
        constructor; [apply Matches_Star_Class; exact Hfree|].
        apply Matches_Char. reflexivity.
    + apply (@git_output_rejected
               (Cat (Char "`") (Cat (Star (Class (fun c => negb (Ascii.eqb c "`"))))
                                    (Char "`")))
               _ pre ("`" ++ a ++ "`") (b ++ "`" ++ post)).
      * unfold dangerousPatterns. simpl. tauto.
      * rewrite !append_assoc. reflexivity.
      * constructor; [apply Matches_Char; reflexivity|].
        constructor; [apply Matches_Star_Class; exact Ha|].
        apply Matches_Char. reflexivity.
  - intros pre mid post.
    destruct (first_occurrence ")" (mid ++ ")" ++ post)) as [Hfree|[a [b [E Ha]]]].
    + rewrite all_chars_app in Hfree. simpl in Hfree.
      rewrite andb_false_r in Hfree. discriminate.
    + apply (@git_output_rejected
               (Cat (Lit "$(") (Cat (Star (Class (fun c => negb (Ascii.eqb c ")"))))
                                    (Char ")")))
               _ pre ("$(" ++ a ++ ")") b).
      * unfold dangerousPatterns. simpl. tauto.
      * rewrite E, !append_assoc. reflexivity.
      * constructor; [apply Matches_Lit; reflexivity|].
        constructor; [apply Matches_Star_Class; exact Ha|].
        apply Matches_Char. reflexivity.
  - intros pre gap shell post Hgap [Hsh|Hsh].
    + apply (@git_output_rejected
               (Cat (Char "|") (Cat spaces (LitI "sh")))
               _ pre ("|" ++ gap ++ shell) post).
      * unfold dangerousPatterns. simpl. tauto.
      * rewrite !append_assoc. reflexivity.
      * constructor; [apply Matches_Char; reflexivity|].
        constructor; [apply Matches_Star_Class; exact Hgap|].
        apply Matches_LitI. exact Hsh.
    + apply (@git_output_rejected
               (Cat (Char "|") (Cat spaces (LitI "bash")))
               _ pre ("|" ++ gap ++ shell) post).
      * unfold dangerousPatterns. simpl. tauto.
      * rewrite !append_assoc. reflexivity.
      * constructor; [apply Matches_Char; reflexivity|].
        constructor; [apply Matches_Star_Class; exact Hgap|].
        apply Matches_LitI. exact Hsh.
Qed.

Lemma validateGitOutput_rejects_witness :
  all_chars is_space "  " = true /\
  toLowerCase "BaSh" = "bash" /\
  isValid (validateGitOutput ("curl x " ++ "|" ++ "  " ++ "BaSh" ++ " -s")) = false.
Proof.
  assert (Hg : all_chars is_space "  " = true) by reflexivity.
  assert (Hs : toLowerCase "BaSh" = "bash") by reflexivity.
  split; [exact Hg|]. split; [exact Hs|].
  exact (proj2 (proj2 validateGitOutput_rejects) "curl x " "  " "BaSh" " -s" Hg
               (or_intror Hs)).
Defined.

Lemma isMissing_false (fields : list (string * value)) (field : string) :
  isMissing fields field = false <->
  exists v, property fields field = Some v /\ v <> VNull /\ v <> VUndefined.
Proof.
  unfold isMissing. destruct (property fields field) as [v|].
  - destruct v; split; try discriminate; try (intros [v [[= <-] [H1 H2]]]; congruence);
      intros _; eexists; repeat split; discriminate.
  - split; [discriminate | intros [v [H _]]; discriminate].
Qed.

(** [validateApiResponse] on an object: it is valid exactly when every
    required field is an own property whose value is neither [null] nor
    [undefined], and otherwise its one error names the missing fields in
    the order they were asked for.  An object with an own property called
    [hasOwnProperty] makes the check itself throw as soon as a field is
    required; anything that is not an object is never valid. *)
Theorem validateApiResponse_fields (fields : list (string * value))
  (requiredFields : list string) :
  (requiredFields <> [] ->
   property fields "hasOwnProperty" <> None ->
   validateApiResponse (VObject fields) requiredFields = Throw notAFunction) /\
  (property fields "hasOwnProperty" = None \/ requiredFields = [] ->
   exists r,
     validateApiResponse (VObject fields) requiredFields = Return r /\
     (isValid r = true <->
      forall field, In field requiredFields ->
                    exists v, property fields field = Some v /\
                              v <> VNull /\ v <> VUndefined) /\
     (isValid r = false ->
      errors r = ["Missing required fields: "
                    ++ join ", " (filter (isMissing fields) requiredFields)])) /\
  (forall response,
      (forall fs, response <> VObject fs) ->
      exists r,
        validateApiResponse response requiredFields = Return r /\ isValid r = false).
Proof.
  split; [|split].
  - intros Hreq Hown. unfold validateApiResponse. simpl.
    destruct requiredFields; [congruence|].
    destruct (property fields "hasOwnProperty"); [reflexivity | congruence].
  - intros Hok.
    assert (E : validateApiResponse (VObject fields) requiredFields
                = let missingFields := filter (isMissing fields) requiredFields in
                  if negb (Nat.eqb (List.length missingFields) 0)
                  then Return (rejected ("Missing required fields: "
                                           ++ join ", " missingFields))
                  else Return accepted).
    { unfold validateApiResponse. simpl.
      destruct Hok as [-> | ->]; [destruct requiredFields|]; reflexivity. }
    rewrite E. cbv zeta.
    destruct (filter (isMissing fields) requiredFields) as [|m ms] eqn:F; simpl.
    + exists accepted. split; [reflexivity|]. split; [|discriminate].
      split; [|reflexivity]. intros _ field Hin.
      apply isMissing_false.
      destruct (isMissing fields field) eqn:M; [|reflexivity].
      assert (Hf : In field (filter (isMissing fields) requiredFields))
        by (apply filter_In; auto).
      rewrite F in Hf. destruct Hf.
    + eexists. split; [reflexivity|]. simpl. split; [|reflexivity].
      split; [discriminate|]. intros Hall. exfalso.
      assert (Hm : In m (filter (isMissing fields) requiredFields))
        by (rewrite F; left; reflexivity).
      apply filter_In in Hm. destruct Hm as [Hin Hmiss].
      apply Hall, isMissing_false in Hin. congruence.
  - intros response Hno. unfold validateApiResponse.
    destruct (negb (truthy response)); [eexists; split; reflexivity|].
    destruct response; try (eexists; split; reflexivity).
    exfalso. apply (Hno fields0). reflexivity.
Qed.

Lemma validateApiResponse_fields_witness :
  ["id"; "login"] <> [] /\
  validateApiResponse
    (VObject [("hasOwnProperty", VBoolean true); ("id", VNumber (of_Z 7))])
    ["id"; "login"]
  = Throw notAFunction.
Proof.
  assert (Hreq : ["id"; "login"] <> []) by discriminate.
  split; [exact Hreq|].
  apply (proj1 (validateApiResponse_fields
                  [("hasOwnProperty", VBoolean true); ("id", VNumber (of_Z 7))]
                  ["id"; "login"]) Hreq).
  discriminate.
Defined.

Lemma lt_Num_iff (a b : Q) : lt (Num a) (Num b) = true <-> a < b.
Proof.
  unfold lt. rewrite Qlt_alt. destruct (a ?= b)%Q; split; congruence.
Qed.

(** [validateNumericRange] between two finite bounds accepts exactly the
    finite numbers from [min] to [max], ends included; [NaN] is never
    accepted; and a bound that is [NaN] is not enforced: with both bounds
    [NaN] every number except [NaN] passes. *)
Theorem validateNumericRange_bounds (show_number : number -> string)
  (fieldName : string) :
  (forall value lo hi,
      isValid (validateNumericRange show_number value (Num lo) (Num hi) fieldName) = true
      <-> exists q, value = Num q /\ lo <= q /\ q <= hi) /\
  (forall min max,
      validateNumericRange show_number NaN min max fieldName
      = rejected (fieldName ++ " must be a valid number")) /\
  (forall value,
      value <> NaN ->
      isValid (validateNumericRange show_number value NaN NaN fieldName) = true).
Proof.
  split; [|split].
  - intros value lo hi. unfold validateNumericRange.
    destruct value as [q| | |].
    + unfold gt. destruct (lt (Num q) (Num lo)) eqn:L1.
      * apply lt_Num_iff in L1. split; [discriminate|].
        intros [q' [[= <-] [H1 H2]]]. exfalso. apply (Qlt_not_le _ _ L1). exact H1.
      * destruct (lt (Num hi) (Num q)) eqn:L2.
        -- apply lt_Num_iff in L2. split; [discriminate|].
           intros [q' [[= <-] [H1 H2]]]. exfalso. apply (Qlt_not_le _ _ L2). exact H2.
        -- split; [intros _|reflexivity]. exists q. split; [reflexivity|].
           split; apply Qnot_lt_le; intros H; apply lt_Num_iff in H; congruence.
    + split; [discriminate | intros [q [H _]]; discriminate].
    + split; [intros H; exfalso; revert H; vm_compute; discriminate
             | intros [q [H _]]; discriminate].
    + split; [intros H; exfalso; revert H; vm_compute; discriminate
             | intros [q [H _]]; discriminate].
  - reflexivity.
  - intros value Hv. destruct value; try reflexivity. congruence.
Qed.

Lemma validateNumericRange_bounds_witness :
  Infinity <> NaN /\
  isValid (validateNumericRange (fun _ => "?") Infinity NaN NaN "limit") = true.
Proof.
  assert (H : Infinity <> NaN) by discriminate.
  split; [exact H|].
  exact (proj2 (proj2 (validateNumericRange_bounds (fun _ => "?") "limit")) Infinity H).
Defined.

Lemma isLocalhost_spec (hostname : string) :
  isLocalhost hostname = true <->
  hostname = "localhost" \/ (exists rest, hostname = "127." ++ rest)
  \/ hostname = "0.0.0.0" \/ hostname = "[::1]".
Proof.
  unfold isLocalhost.
  rewrite !orb_true_iff, !String.eqb_eq, startsWith_spec. tauto.
Qed.

Lemma two_chars (p1 p2 : ascii -> bool) (a b : ascii) :
  p1 a = true -> p2 b = true ->
  Matches (Cat (Class p1) (Class p2)) (String a (String b EmptyString)).
Proof.
  intros Ha Hb.
  change (String a (String b EmptyString))
    with (String a EmptyString ++ String b EmptyString).
  constructor; constructor; assumption.
Qed.

Lemma two_chars_inv (p1 p2 : ascii -> bool) (s : string) :
  Matches (Cat (Class p1) (Class p2)) s ->
  exists a b, s = String a (String b EmptyString) /\ p1 a = true /\ p2 b = true.
Proof.
  intros H. inversion H as [ | | ? ? s1 s2 Ha Hb | | | | ]; subst.
  inversion Ha; subst. inversion Hb; subst.
  eexists _, _. split; [reflexivity|]. split; assumption.
Qed.

(** The second number of 172.16.0.0/12, as the pattern spells it. *)
Lemma private172_spec (hostname : string) :
  test_whole private172 hostname = true <->
  exists second rest,
    In second ["16"; "17"; "18"; "19"; "20"; "21"; "22"; "23";
               "24"; "25"; "26"; "27"; "28"; "29"; "30"; "31"]
    /\ hostname = "172." ++ second ++ "." ++ rest.
Proof.
  unfold test_whole. rewrite matches_spec. unfold private172. split.
  - intros H. apply Matches_Cat in H. destruct H as [s1 [s2 [-> [H1 H2]]]].
    apply Matches_Lit in H1. subst s1.
    apply Matches_Cat in H2. destruct H2 as [second [s3 [-> [H2 H3]]]].
    apply Matches_Cat in H3. destruct H3 as [dot [rest [-> [H3 _]]]].
    inversion H3 as [ | ? c Hc | | | | | ]; subst.
    apply Ascii.eqb_eq in Hc. subst c.
    exists second, rest. split; [|reflexivity].
    apply Matches_Alt in H2. destruct H2 as [H2|H2];
      [|apply Matches_Alt in H2; destruct H2 as [H2|H2]];
      apply two_chars_inv in H2; destruct H2 as [a [b [-> [Ha Hb]]]];
      apply Ascii.eqb_eq in Ha; subst a;
      destruct b as [[] [] [] [] [] [] [] []]; vm_compute in Hb; try discriminate;
      simpl; tauto.
  - intros [second [rest [Hin ->]]].
    apply Matches_Cat. exists "172.", (second ++ "." ++ rest).
    split; [reflexivity|]. split; [apply Matches_Lit; reflexivity|].
    constructor.
    + simpl in Hin.
      repeat (destruct Hin as [<- | Hin];
              [first [ apply MAltL; apply two_chars; reflexivity
                     | apply MAltR; apply MAltL; apply two_chars; reflexivity
                     | apply MAltR; apply MAltR; apply two_chars; reflexivity ]|]).
      destruct Hin.
    + change ("." ++ rest) with (String "." EmptyString ++ rest).
      constructor; [constructor; reflexivity | apply Matches_Any_star].
Qed.

Lemma isPrivateIP_spec (hostname : string) :
  isPrivateIP hostname = true <->
  (exists rest, hostname = "10." ++ rest)
  \/ (exists rest, hostname = "192.168." ++ rest)
  \/ hostname = "169.254.169.254"
  \/ (exists second rest,
         In second ["16"; "17"; "18"; "19"; "20"; "21"; "22"; "23";
                    "24"; "25"; "26"; "27"; "28"; "29"; "30"; "31"]
         /\ hostname = "172." ++ second ++ "." ++ rest).
Proof.
  unfold isPrivateIP.
  rewrite !orb_true_iff, String.eqb_eq, !startsWith_spec, private172_spec. tauto.
Qed.

(** [validateURL] accepts a URL exactly when it is not empty, it parses,
    its protocol is [https:] (or [http:] for the hosts [localhost],
    [127.0.0.1] and [0.0.0.0]), and its host is a loopback name or lies
    outside the blocked ranges: 10.*, 192.168.*, 172.16.* to 172.31.*, and
    the metadata address 169.254.169.254. *)
Theorem validateURL_accepts (parseURL : string -> option (string * string))
  (url : string) :
  isValid (validateURL parseURL url) = true <->
  url <> EmptyString /\
  exists protocol hostname,
    parseURL url = Some (protocol, hostname) /\
    (protocol = "https:"
     \/ protocol = "http:"
        /\ (hostname = "localhost" \/ hostname = "127.0.0.1" \/ hostname = "0.0.0.0")) /\
    ((hostname = "localhost" \/ (exists rest, hostname = "127." ++ rest)
      \/ hostname = "0.0.0.0" \/ hostname = "[::1]")
     \/ ~ ((exists rest, hostname = "10." ++ rest)
           \/ (exists rest, hostname = "192.168." ++ rest)
           \/ hostname = "169.254.169.254"
           \/ (exists second rest,
                  In second ["16"; "17"; "18"; "19"; "20"; "21"; "22"; "23";
                             "24"; "25"; "26"; "27"; "28"; "29"; "30"; "31"]
                  /\ hostname = "172." ++ second ++ "." ++ rest))).
Proof.
  unfold validateURL.
  destruct (String.eqb url EmptyString) eqn:E.
  { apply String.eqb_eq in E. split; [discriminate | intros [H _]; congruence]. }
  apply String.eqb_neq in E.
  destruct (parseURL url) as [[protocol hostname]|];
    [|split; [discriminate | intros [_ [p [h [H _]]]]; discriminate]].
  assert (HP : negb (String.eqb protocol "https:")
               && (negb (String.eqb protocol "http:")
                   || negb (String.eqb hostname "localhost"
                            || String.eqb hostname "127.0.0.1"
                            || String.eqb hostname "0.0.0.0")) = false
               <-> protocol = "https:"
                   \/ protocol = "http:"
                      /\ (hostname = "localhost" \/ hostname = "127.0.0.1"
                          \/ hostname = "0.0.0.0")).
  { rewrite <- !String.eqb_eq.
    destruct (String.eqb protocol "https:"), (String.eqb protocol "http:"),
      (String.eqb hostname "localhost"), (String.eqb hostname "127.0.0.1"),
      (String.eqb hostname "0.0.0.0"); simpl; intuition congruence. }
  assert (HH : negb (isLocalhost hostname) && isPrivateIP hostname = false
               <-> isLocalhost hostname = true \/ ~ isPrivateIP hostname = true).
  { destruct (isLocalhost hostname), (isPrivateIP hostname); simpl;
      intuition congruence. }
  destruct (negb (String.eqb protocol "https:") && _) eqn:B1.
  { split; [discriminate|]. intros [_ [p [h [[= <- <-] [H1 _]]]]].
    apply HP in H1. congruence. }
  destruct (negb (isLocalhost hostname) && isPrivateIP hostname) eqn:B2.
  { split; [discriminate|]. intros [_ [p [h [[= <- <-] [_ H2]]]]].
    rewrite <- isLocalhost_spec, <- isPrivateIP_spec in H2.
    apply HH in H2. congruence. }
  split; [intros _|reflexivity].
  split; [exact E|]. exists protocol, hostname.
  split; [reflexivity|]. split; [apply HP; reflexivity|].
  rewrite <- isLocalhost_spec, <- isPrivateIP_spec. apply HH. reflexivity.
Qed.

(** A loopback host is never in a blocked range, so for such a host the
    order of the two tests of [validateURL] does not matter. *)
Lemma loopback_not_private (hostname : string) :
  isLocalhost hostname = true -> isPrivateIP hostname = false.
Proof.
  intros H. apply isLocalhost_spec in H.
  destruct (isPrivateIP hostname) eqn:P; [|reflexivity].
  apply isPrivateIP_spec in P.
  destruct H as [-> | [[rest ->] | [-> | ->]]];
    destruct P as [[r P] | [[r P] | [P | [d [r [_ P]]]]]]; discriminate.
Qed.

End ValidatorFacts.

(* ================================================================== *)
(** * The shape of resolved paths *)
(* ================================================================== *)

Section PathShape.

Import NodePath Validator.

Local Abbreviation noSlash := (fun c : ascii => negb (Ascii.eqb c "/")).
Local Abbreviation kept :=
  (fun seg : string => negb (String.eqb seg EmptyString) && negb (String.eqb seg ".")).
Local Abbreviation plain :=
  (fun seg : string =>
     negb (String.eqb seg EmptyString) && negb (String.eqb seg ".")
     && negb (String.eqb seg "..") && all_chars noSlash seg).

Lemma split_slash_piece (s : string) :
  all_chars noSlash s = true ->
  forall cur, split_slash cur s = [cur ++ s].
Proof.
  induction s as [|c s IH]; simpl; intros H cur.
  - rewrite append_nil_r. reflexivity.
  - apply andb_true_iff in H. destruct H as [Hc Hs].
    destruct (Ascii.eqb c "/"); [discriminate|].
    rewrite (IH Hs), append_assoc. reflexivity.
Qed.

Lemma split_slash_pieces (p : string) :
  forall cur,
    all_chars noSlash cur = true ->
    Forall (fun seg => all_chars noSlash seg = true) (split_slash cur p).
Proof.
  induction p as [|c p IH]; simpl; intros cur Hcur.
  - constructor; [exact Hcur | constructor].
  - destruct (Ascii.eqb c "/") eqn:E.
    + constructor; [exact Hcur | apply IH; reflexivity].
    + apply IH. rewrite all_chars_app, Hcur. simpl. rewrite E. reflexivity.
Qed.

Lemma split_slash_join (parts : list string) :
  parts <> [] ->
  Forall (fun seg => all_chars noSlash seg = true) parts ->
  split_slash EmptyString (join "/" parts) = parts.
Proof.
  induction parts as [|x parts IH]; intros Hne Hall; [congruence|].
  inversion Hall as [|? ? Hx Hrest]; subst.
  destruct parts as [|y parts].
  - unfold join. cbn [concat]. apply (@split_slash_piece x Hx).
  - unfold join.
    change (concat "/" (x :: y :: parts))
      with (x ++ String "/" (concat "/" (y :: parts))).
    rewrite split_slash_app, (@split_slash_piece x Hx).
    fold (join "/" (y :: parts)). rewrite IH by (congruence || assumption).
    reflexivity.
Qed.

Lemma fold_without_dotdot (allowAboveRoot : bool) (segs : list string) :
  ~ In ".." segs ->
  forall stack,
    fold_left (normalize_step allowAboveRoot) segs stack
    = (rev (filter kept segs) ++ stack)%list.
Proof.
  induction segs as [|seg segs IH]; intros Hno stack; [reflexivity|].
  cbn [fold_left filter].
  assert (Hseg : seg <> "..") by (intros ->; apply Hno; left; reflexivity).
  assert (Hrest : ~ In ".." segs) by (intros H; apply Hno; right; exact H).
  rewrite (IH Hrest). unfold normalize_step.
  destruct (String.eqb_spec seg EmptyString) as [E1|E1]; [reflexivity|].
  destruct (String.eqb_spec seg ".") as [E2|E2]; [reflexivity|].
  destruct (String.eqb_spec seg "..") as [E3|E3]; [contradiction|].
  cbn [negb andb rev]. rewrite <- app_assoc. reflexivity.
Qed.

Lemma fold_keeps_plain (segs : list string) :
  Forall (fun seg => all_chars noSlash seg = true) segs ->
  forall stack,
    Forall (fun seg => plain seg = true) stack ->
    Forall (fun seg => plain seg = true)
           (fold_left (normalize_step false) segs stack).
Proof.
  induction 1 as [|seg segs Hseg _ IH]; intros stack Hstack; [exact Hstack|].
  cbn [fold_left]. apply IH. unfold normalize_step.
  destruct (String.eqb seg EmptyString) eqn:E1; [exact Hstack|].
  destruct (String.eqb seg ".") eqn:E2; [exact Hstack|].
  destruct (String.eqb seg "..") eqn:E3.
  - destruct stack as [|top rest]; [constructor|].
    inversion Hstack; subst.
    destruct (String.eqb top ".."); assumption.
  - constructor; [|exact Hstack]. rewrite E1, E2, E3, Hseg. reflexivity.
Qed.

Lemma filter_all {B} (p : B -> bool) (l : list B) :
  Forall (fun y => p y = true) l -> filter p l = l.
Proof.
  induction 1 as [|y l Hy _ IH]; simpl; [reflexivity|].
  rewrite Hy, IH. reflexivity.
Qed.

Lemma plain_parts (names : list string) :
  Forall (fun seg => plain seg = true) names ->
  Forall (fun seg => all_chars noSlash seg = true) names
  /\ Forall (fun seg => kept seg = true) names
  /\ ~ In ".." names.
Proof.
  induction 1 as [|seg names Hseg _ [IH1 [IH2 IH3]]].
  - repeat split; try constructor. intros [].
  - apply andb_true_iff in Hseg. destruct Hseg as [Hseg H4].
    apply andb_true_iff in Hseg. destruct Hseg as [H12 H3].
    repeat split; try (constructor; assumption).
    intros [->|Hin]; [vm_compute in H3; discriminate | contradiction].
Qed.

Lemma split_slash_root (names : list string) :
  Forall (fun seg => plain seg = true) names ->
  filter kept (split_slash EmptyString ("/" ++ join "/" names)) = names
  /\ ~ In ".." (split_slash EmptyString ("/" ++ join "/" names)).
Proof.
  intros H. destruct (plain_parts H) as [H1 [H2 H3]].
  change ("/" ++ join "/" names) with (String "/" (join "/" names)).
  cbn [split_slash]. change (Ascii.eqb "/" "/") with true. cbv iota.
  destruct names as [|x names].
  - split; [reflexivity|]. intros [E|[E|[]]]; discriminate.
  - rewrite split_slash_join by (congruence || assumption).
    split; [apply (filter_all _ H2)|]. intros [E|Hin]; [discriminate | contradiction].
Qed.

Lemma resolve_shape (cwd : string) (args : list string) :
  isAbsolute cwd = true ->
  exists names,
    resolve cwd args = "/" ++ join "/" names
    /\ Forall (fun seg => plain seg = true) names.
Proof.
  intros Hcwd. unfold resolve.
  pose proof (@resolve_loop_absolute (rev args ++ [cwd]) EmptyString) as H.
  destruct (resolve_loop (rev args ++ [cwd]) EmptyString) as [resolvedPath abs].
  simpl in H. rewrite H.
  - unfold normalizeString. eexists. split; [reflexivity|].
    apply Forall_rev. apply fold_keeps_plain; [|constructor].
    apply split_slash_pieces. reflexivity.
  - exists cwd. split; [apply in_or_app; right; left; reflexivity | exact Hcwd].
Qed.

(** Resolving a relative path without [..] against a resolved root appends
    its names to the root's. *)
Lemma resolve_under (cwd N : string) (names : list string) :
  Forall (fun seg => plain seg = true) names ->
  N <> EmptyString ->
  isAbsolute N = false ->
  ~ In ".." (split_slash EmptyString N) ->
  resolve cwd ["/" ++ join "/" names; N]
  = "/" ++ join "/" (names ++ filter kept (split_slash EmptyString N)).
Proof.
  intros Hnames HN Habs Hno.
  destruct (split_slash_root Hnames) as [Hroot Hrootno].
  unfold resolve. cbn [rev app resolve_loop].
  destruct (String.eqb_spec N EmptyString) as [|_]; [contradiction|].
  rewrite Habs.
  change ("/" ++ join "/" names) with (String "/" (join "/" names)) in *.
  change (String.eqb (String "/" (join "/" names)) EmptyString) with false. cbv iota.
  replace (isAbsolute (String "/" (join "/" names))) with true
    by (symmetry; apply startsWith_spec; eexists; reflexivity).
  cbn [negb]. unfold normalizeString.
  change (String "/" (join "/" names) ++ "/" ++ N ++ "/" ++ EmptyString)
    with (String "/" (join "/" names) ++ String "/" (N ++ String "/" EmptyString)).
  rewrite !split_slash_app, !fold_left_app.
  rewrite (@fold_without_dotdot false _ Hrootno), Hroot.
  rewrite (@fold_without_dotdot false _ Hno).
  cbn [split_slash fold_left normalize_step]. change (String.eqb EmptyString EmptyString) with true.
  cbv iota. unfold normalize_step.
  change (String.eqb EmptyString EmptyString) with true. cbv iota.
  rewrite app_nil_r, rev_app_distr, !rev_involutive. reflexivity.
Qed.

Lemma join_head (x : string) (parts : list string) :
  exists rest, join "/" (x :: parts) = x ++ rest.
Proof.
  destruct parts as [|y parts].
  - exists EmptyString. unfold join. cbn [concat]. symmetry. apply append_nil_r.
  - eexists. reflexivity.
Qed.

Lemma not_absolute (c : ascii) (s : string) :
  Ascii.eqb c "/" = false -> isAbsolute (String c s) = false.
Proof.
  intros Hc. destruct (isAbsolute (String c s)) eqn:E; [|reflexivity].
  apply startsWith_spec in E. destruct E as [t E].
  injection E as -> _. discriminate.
Qed.

(** [path.normalize] on a relative path without [..]: a relative path
    through the same names, the [.] ones dropped. *)
Lemma normalize_relative (filePath : string) :
  isAbsolute filePath = false ->
  ~ In ".." (segments filePath) ->
  normalize filePath <> EmptyString
  /\ isAbsolute (normalize filePath) = false
  /\ ~ In ".." (split_slash EmptyString (normalize filePath))
  /\ filter kept (split_slash EmptyString (normalize filePath))
     = filter (fun seg => negb (String.eqb seg ".")) (segments filePath).
Proof.
  intros Habs Hno. unfold segments in *. rewrite filter_filter.
  assert (Hno' : ~ In ".." (split_slash EmptyString filePath)).
  { intros H. apply Hno. apply filter_In. split; [exact H | reflexivity]. }
  clear Hno. unfold normalize.
  destruct (String.eqb_spec filePath EmptyString) as [->|Hne].
  { repeat split; try reflexivity; try discriminate.
    intros [E|[]]; discriminate. }
  rewrite Habs. cbn [negb]. unfold normalizeString.
  rewrite (@fold_without_dotdot true _ Hno'), app_nil_r, rev_involutive.
  assert (Hpieces : Forall (fun seg => all_chars noSlash seg = true)
                           (filter kept (split_slash EmptyString filePath))).
  { apply Forall_forall. intros seg Hin. apply filter_In in Hin.
    pose proof (@split_slash_pieces filePath EmptyString eq_refl) as H.
    rewrite Forall_forall in H. apply H, Hin. }
  assert (Hkept : Forall (fun seg => kept seg = true)
                         (filter kept (split_slash EmptyString filePath))).
  { apply Forall_forall. intros seg Hin. apply filter_In in Hin. apply Hin. }
  assert (Hin : forall seg, In seg (filter kept (split_slash EmptyString filePath)) ->
                            seg <> "..").
  { intros seg H ->. apply filter_In in H. apply Hno', H. }
  destruct (filter kept (split_slash EmptyString filePath)) as [|x names] eqn:F.
  { change (String.eqb (join "/" []) EmptyString) with true. cbv iota.
    destruct (endsWith filePath "/");
      (repeat split; try reflexivity; try discriminate);
      [intros [E|[E|[]]] | intros [E|[]]]; discriminate. }
  assert (Hsplit : split_slash EmptyString (join "/" (x :: names)) = x :: names)
    by (apply split_slash_join; [discriminate | exact Hpieces]).
  destruct (@join_head x names) as [rest Hj].
  inversion Hkept as [|? ? Hx _]; subst.
  inversion Hpieces as [|? ? Hx' _]; subst.
  destruct x as [|c x]; [discriminate|].
  cbn [all_chars] in Hx'. apply andb_true_iff in Hx'. destruct Hx' as [Hc _].
  apply negb_true_iff in Hc.
  rewrite Hj in *. change (String c x ++ rest) with (String c (x ++ rest)) in *.
  change (String.eqb (String c (x ++ rest)) EmptyString) with false. cbv iota.
  destruct (endsWith filePath "/").
  - change (String c (x ++ rest) ++ "/") with (String c ((x ++ rest) ++ "/")).
    split; [discriminate|]. split; [apply not_absolute; exact Hc|].
    change (String c ((x ++ rest) ++ "/"))
      with (String c (x ++ rest) ++ String "/" EmptyString).
    rewrite split_slash_app, Hsplit. split.
    + intros H. apply in_app_or in H. destruct H as [H|[E|[]]]; [|discriminate].
      apply (Hin _ H). reflexivity.
    + rewrite filter_app. cbn [split_slash filter].
      change (kept EmptyString) with false. cbv iota.
      rewrite app_nil_r. apply (filter_all _ Hkept).
  - split; [discriminate|]. split; [apply not_absolute; exact Hc|].
    rewrite Hsplit. split.
    + intros H. apply (Hin _ H). reflexivity.
    + apply (filter_all _ Hkept).
Qed.

Lemma join_app (a b : list string) :
  a <> [] -> b <> [] ->
  join "/" (a ++ b) = join "/" a ++ "/" ++ join "/" b.
Proof.
  intros Ha Hb. induction a as [|x a IH]; [congruence|].
  destruct a as [|y a].
  - destruct b as [|z b]; [congruence|]. reflexivity.
  - unfold join in *. cbn [app] in *.
    change (concat "/" (x :: y :: a ++ b)) with (x ++ "/" ++ concat "/" (y :: a ++ b)).
    rewrite IH by discriminate.
    change (concat "/" (x :: y :: a)) with (x ++ "/" ++ concat "/" (y :: a)).
    rewrite !append_assoc. reflexivity.
Qed.

Lemma segments_root (names : list string) :
  Forall (fun seg => plain seg = true) names ->
  segments ("/" ++ join "/" names) = names.
Proof.
  intros H. destruct (plain_parts H) as [H1 [H2 _]]. unfold segments.
  change ("/" ++ join "/" names) with (String "/" (join "/" names)).
  cbn [split_slash]. change (Ascii.eqb "/" "/") with true. cbv iota.
  destruct names as [|x names]; [reflexivity|].
  rewrite split_slash_join by (congruence || assumption).
  change (EmptyString :: x :: names) with ([EmptyString] ++ x :: names)%list.
  rewrite filter_app.
  change (filter (fun seg => negb (String.eqb seg EmptyString)) [EmptyString])
    with (@nil string).
  cbn [app]. apply filter_all. apply Forall_forall. intros seg Hin.
  rewrite Forall_forall in H2. apply H2 in Hin.
  apply andb_true_iff in Hin. apply Hin.
Qed.

End PathShape.

(* ================================================================== *)
(** * [sanitizeFilePath] *)
(* ================================================================== *)

Section SanitizeFacts.

Import Validator.

Variable path_resolve : list string -> string.
Variable path_normalize : string -> string.
Variable path_sep : string.

Local Abbreviation sanitize := (sanitizeFilePath path_resolve path_normalize path_sep).

(** The error of the [try] block goes through the [catch] block as it is. *)
Lemma sanitize_catch_rethrows (filePath : string) :
  sanitize_catch filePath (traversalError filePath) = Throw (traversalError filePath).
Proof.
  unfold sanitize_catch.
  replace (includes (err_message (traversalError filePath)) "Path traversal")
    with true; [reflexivity|].
  symmetry. apply startsWith_includes. apply startsWith_spec.
  eexists. unfold traversalError, Error. cbn [err_message].
  change "Path traversal detected: " with ("Path traversal" ++ " detected: ").
  rewrite append_assoc. reflexivity.
Qed.

(** Whatever [path] module is plugged in: a returned path passed the test,
    and the only error is the traversal error. *)
Lemma sanitizeFilePath_cases (filePath workspaceRoot : string) :
  let root := path_resolve [workspaceRoot] in
  let resolved := path_resolve [root; path_normalize filePath] in
  (sanitize filePath workspaceRoot = Return resolved /\
   (resolved = root \/
    startsWith (withSep path_sep resolved) (withSep path_sep root) = true))
  \/
  (sanitize filePath workspaceRoot = Throw (traversalError filePath) /\
   resolved <> root /\
   startsWith (withSep path_sep resolved) (withSep path_sep root) = false).
Proof.
  cbv zeta. unfold sanitizeFilePath, sanitize_try.
  destruct (String.eqb_spec
              (path_resolve [path_resolve [workspaceRoot]; path_normalize filePath])
              (path_resolve [workspaceRoot])) as [E|E]; cbn [negb andb].
  - left. split; [reflexivity | left; exact E].
  - destruct (startsWith _ _) eqn:S; cbn [negb].
    + left. split; [reflexivity | right; reflexivity].
    + right. rewrite sanitize_catch_rethrows. repeat split. exact E.
Qed.

End SanitizeFacts.

Section SanitizeClaims.

Import NodePath Validator.

(** [path.resolve] from an absolute working directory gives a path in
    canonical form. *)
Lemma resolve_canonical (cwd : string) (args : list string) :
  isAbsolute cwd = true -> Spec.canonical (resolve cwd args).
Proof.
  intros Hcwd. destruct (@resolve_shape cwd args Hcwd) as [names [-> Hnames]].
  unfold Spec.canonical. rewrite (segments_root Hnames). split; [reflexivity|].
  apply Forall_forall. intros seg Hin.
  rewrite Forall_forall in Hnames. specialize (Hnames seg Hin).
  apply andb_true_iff in Hnames. destruct Hnames as [Hnames _].
  apply andb_true_iff in Hnames. destruct Hnames as [Hnames Hdd].
  apply andb_true_iff in Hnames. destruct Hnames as [_ Hd].
  split; intros ->; discriminate.
Qed.

(** C10: on a host with an absolute working directory, [sanitizeFilePath]
    either throws (the path-traversal error) or returns an absolute path
    that is the resolved workspace root or passes the separator-extended
    prefix test against it; the returned path and the root are in canonical
    form, with no [..] left in them, and the path goes through every name of
    the root first: nothing outside the root is returned. *)
Theorem sanitizeFilePath_stays_inside (cwd filePath workspaceRoot : string) :
  isAbsolute cwd = true ->
  let root := resolve cwd [workspaceRoot] in
  match sanitizeFilePath_posix cwd filePath workspaceRoot with
  | Return p =>
      isAbsolute p = true /\
      (p = root \/
       (p <> root /\ startsWith (withSep sep p) (withSep sep root) = true)) /\
      Spec.inside root p
  | Throw e => e = traversalError filePath
  end.
Proof.
  intros Hcwd root. unfold sanitizeFilePath_posix.
  destruct (sanitizeFilePath_cases (resolve cwd) normalize sep filePath workspaceRoot)
    as [[-> Hin]|[-> _]]; [|reflexivity].
  fold root. split; [apply resolve_absolute; exact Hcwd|].
  set (p := resolve cwd [root; normalize filePath]) in *.
  assert (Hroot : Spec.canonical root) by (apply resolve_canonical; exact Hcwd).
  assert (Hp : Spec.canonical p) by (apply resolve_canonical; exact Hcwd).
  destruct (string_dec p root) as [E|E].
  - split; [left; exact E|]. split; [exact Hroot|]. split; [exact Hp|].
    exists []. rewrite E. symmetry. apply app_nil_r.
  - destruct Hin as [Hin|Hin]; [contradiction|].
    split; [right; split; assumption|].
    split; [exact Hroot|]. split; [exact Hp|].
    apply startsWith_withSep_names. exact Hin.
Qed.

Lemma sanitizeFilePath_stays_inside_witness :
  isAbsolute "/home/dev" = true /\
  sanitizeFilePath_posix "/home/dev" "src/../src/core/report-generator.ts" "/workspace/teamxray"
  = Return "/workspace/teamxray/src/core/report-generator.ts" /\
  Spec.inside (resolve "/home/dev" ["/workspace/teamxray"])
              "/workspace/teamxray/src/core/report-generator.ts".
Proof.
  assert (Hcwd : isAbsolute "/home/dev" = true) by reflexivity.
  split; [exact Hcwd|]. split; [reflexivity|].
  exact (proj2 (proj2
           (sanitizeFilePath_stays_inside "/home/dev"
              "src/../src/core/report-generator.ts" "/workspace/teamxray" Hcwd))).
Defined.

(** A path that climbs out with [..], and a sibling directory whose name
    starts with the root's, are both refused; the root itself and a
    relative root are accepted. *)
Example sanitizeFilePath_examples :
  sanitizeFilePath_posix "/home/dev" "../teamxray2/secret.txt" "/workspace/teamxray"
  = Throw (traversalError "../teamxray2/secret.txt") /\
  sanitizeFilePath_posix "/home/dev" "/workspace/teamxray2/secret.txt" "/workspace/teamxray"
  = Throw (traversalError "/workspace/teamxray2/secret.txt") /\
  sanitizeFilePath_posix "/home/dev" "src/../../../etc/passwd" "/workspace/teamxray"
  = Throw (traversalError "src/../../../etc/passwd") /\
  sanitizeFilePath_posix "/home/dev" "src/.." "/workspace/teamxray"
  = Return "/workspace/teamxray" /\
  sanitizeFilePath_posix "/home/dev" "src/a.ts" "teamxray"
  = Return "/home/dev/teamxray/src/a.ts" /\
  sanitizeFilePath_posix "/home/dev" "etc/passwd" "/"
  = Return "/etc/passwd".
Proof. repeat split. Qed.

End SanitizeClaims.

(* ================================================================== *)
(** * What [sanitizeFilePath] accepts *)
(* ================================================================== *)

Section SanitizeAccepts.

Import NodePath Validator.

Local Abbreviation noSlash := (fun c : ascii => negb (Ascii.eqb c "/")).
Local Abbreviation kept :=
  (fun seg : string => negb (String.eqb seg EmptyString) && negb (String.eqb seg ".")).
Local Abbreviation plain :=
  (fun seg : string =>
     negb (String.eqb seg EmptyString) && negb (String.eqb seg ".")
     && negb (String.eqb seg "..") && all_chars noSlash seg).

(** The path returned for a relative path without [..]: the names of the
    resolved root, then those of the path. *)
Lemma sanitize_plain (cwd filePath workspaceRoot : string) :
  isAbsolute cwd = true ->
  isAbsolute filePath = false ->
  ~ In ".." (segments filePath) ->
  exists names,
    resolve cwd [workspaceRoot] = "/" ++ join "/" names
    /\ Forall (fun seg => plain seg = true) names
    /\ Forall (fun seg => plain seg = true)
              (filter (fun seg => negb (String.eqb seg ".")) (segments filePath))
    /\ sanitizeFilePath_posix cwd filePath workspaceRoot
       = Return ("/" ++ join "/"
                   (names ++ filter (fun seg => negb (String.eqb seg "."))
                                    (segments filePath))).
Proof.
  intros Hcwd Hrel Hno.
  destruct (@resolve_shape cwd [workspaceRoot] Hcwd) as [names [HR Hnames]].
  destruct (@normalize_relative filePath Hrel Hno) as [HN [HNabs [HNno HNkept]]].
  pose proof (@resolve_under cwd (normalize filePath) names Hnames HN HNabs HNno) as Hp.
  rewrite HNkept in Hp.
  set (ns := filter (fun seg => negb (String.eqb seg ".")) (segments filePath)) in *.
  assert (Hns : Forall (fun seg => plain seg = true) ns).
  { apply Forall_forall. intros seg Hin. unfold ns in Hin.
    apply filter_In in Hin. destruct Hin as [Hin Hdot].
    assert (Hdd : String.eqb seg ".." = false).
    { apply String.eqb_neq. intros ->. contradiction. }
    unfold segments in Hin. apply filter_In in Hin. destruct Hin as [Hin Hne].
    pose proof (@split_slash_pieces filePath EmptyString eq_refl) as H.
    rewrite Forall_forall in H. rewrite Hne, Hdot, Hdd, (H _ Hin). reflexivity. }
  exists names. split; [exact HR|]. split; [exact Hnames|]. split; [exact Hns|].
  clear Hns.
  unfold sanitizeFilePath_posix, sanitizeFilePath, sanitize_try. cbv zeta.
  rewrite HR, Hp.
  destruct ns as [|n ns'].
  { rewrite app_nil_r, String.eqb_refl. reflexivity. }
  replace (startsWith (withSep sep ("/" ++ join "/" (names ++ n :: ns')))
                      (withSep sep ("/" ++ join "/" names))) with true;
    [rewrite andb_false_r; reflexivity|].
  symmetry. apply startsWith_spec. unfold withSep, sep.
  destruct names as [|m names'].
  - change (endsWith ("/" ++ join "/" []) "/") with true. cbv iota.
    cbn [app]. destruct (endsWith _ "/"); eexists; reflexivity.
  - rewrite join_app by discriminate.
    set (root := join "/" (m :: names')). set (tail := join "/" (n :: ns')).
    destruct (endsWith ("/" ++ root) "/"),
      (endsWith ("/" ++ root ++ "/" ++ tail) "/");
      eexists; rewrite ?append_assoc; cbn [append]; rewrite ?append_assoc;
      reflexivity.
Qed.

(** Every piece of [p.split('/')] is a part of [p]. *)
Lemma split_slash_part (p seg : string) :
  forall cur,
    In seg (split_slash cur p) ->
    exists pre post, cur ++ p = pre ++ seg ++ post.
Proof.
  induction p as [|c p IH]; intros cur Hin.
  - destruct Hin as [<-|[]]. exists EmptyString, EmptyString.
    rewrite !append_nil_r. reflexivity.
  - cbn [split_slash] in Hin. destruct (Ascii.eqb c "/").
    + destruct Hin as [<-|Hin].
      * exists EmptyString, (String c p). reflexivity.
      * apply IH in Hin. destruct Hin as [pre [post E]]. cbn [append] in E.
        exists (cur ++ String c pre), post. rewrite E, append_assoc. reflexivity.
    + apply IH in Hin. destruct Hin as [pre [post E]].
      exists pre, post. rewrite <- E, append_assoc. reflexivity.
Qed.

(** What [sanitizeFilePath] never refuses: on a host with an absolute
    working directory, a relative path with no [..] among its names is
    returned resolved; the result is the separator followed by its names
    joined by separators, and these are the names of the resolved root
    followed by the names of the path, without the [.] ones. *)
Theorem sanitizeFilePath_accepts_plain (cwd filePath workspaceRoot : string) :
  isAbsolute cwd = true ->
  isAbsolute filePath = false ->
  ~ In ".." (segments filePath) ->
  exists p,
    sanitizeFilePath_posix cwd filePath workspaceRoot = Return p
    /\ p = "/" ++ join "/" (segments p)
    /\ segments p
       = (segments (resolve cwd [workspaceRoot])
          ++ filter (fun seg => negb (String.eqb seg ".")) (segments filePath))%list.
Proof.
  intros Hcwd Hrel Hno.
  destruct (@sanitize_plain cwd filePath workspaceRoot Hcwd Hrel Hno)
    as [names [HR [Hnames [Hns Hp]]]].
  assert (Hall : Forall (fun seg => plain seg = true)
                        (names ++ filter (fun seg => negb (String.eqb seg "."))
                                         (segments filePath)))
    by (apply Forall_app; split; assumption).
  eexists. split; [exact Hp|].
  rewrite HR, !segments_root by assumption.
  split; reflexivity.
Qed.

Lemma sanitizeFilePath_accepts_plain_witness :
  isAbsolute "/home/dev" = true /\
  isAbsolute "src/./core//report-generator.ts" = false /\
  ~ In ".." (segments "src/./core//report-generator.ts") /\
  exists p,
    sanitizeFilePath_posix "/home/dev" "src/./core//report-generator.ts" "teamxray"
    = Return p
    /\ p = "/" ++ join "/" (segments p)
    /\ segments p
       = (segments (resolve "/home/dev" ["teamxray"])
          ++ filter (fun seg => negb (String.eqb seg "."))
                    (segments "src/./core//report-generator.ts"))%list.
Proof.
  assert (H1 : isAbsolute "/home/dev" = true) by reflexivity.
  assert (H2 : isAbsolute "src/./core//report-generator.ts" = false) by reflexivity.
  assert (H3 : ~ In ".." (segments "src/./core//report-generator.ts")).
  { vm_compute. intros H. repeat (destruct H as [H|H]; [discriminate|]). exact H. }
  refine (conj H1 (conj H2 (conj H3 _))).
  exact (sanitizeFilePath_accepts_plain "/home/dev" "src/./core//report-generator.ts"
           "teamxray" H1 H2 H3).
Defined.

(** The two path checks together: a relative path that [validateFilePath]
    accepts is never refused by [sanitizeFilePath], whatever the workspace
    root, and comes back under the resolved root. *)
Theorem validated_relative_path_is_sanitized (statThrows : string -> bool)
  (cwd filePath workspaceRoot : string) :
  isAbsolute cwd = true ->
  isValid (validateFilePath statThrows filePath) = true ->
  isAbsolute filePath = false ->
  exists p,
    sanitizeFilePath_posix cwd filePath workspaceRoot = Return p
    /\ segments p
       = (segments (resolve cwd [workspaceRoot])
          ++ filter (fun seg => negb (String.eqb seg ".")) (segments filePath))%list.
Proof.
  intros Hcwd Hvalid Hrel.
  assert (Hno : ~ In ".." (segments filePath)).
  { intros Hin. unfold segments in Hin. apply filter_In in Hin.
    destruct Hin as [Hin _]. apply split_slash_part in Hin.
    destruct Hin as [pre [post E]]. cbn [append] in E.
    assert (Hinc : includes filePath ".." = true)
      by (apply includes_spec; exists pre, post; exact E).
    unfold validateFilePath in Hvalid. rewrite Hinc in Hvalid.
    destruct (String.eqb filePath EmptyString); [discriminate|].
    destruct (String.eqb (trim filePath) EmptyString); discriminate. }
  destruct (@sanitize_plain cwd filePath workspaceRoot Hcwd Hrel Hno)
    as [names [HR [Hnames [Hns Hp]]]].
  eexists. split; [exact Hp|].
  rewrite HR, !segments_root; [reflexivity | exact Hnames |].
  apply Forall_app. split; assumption.
Qed.

Lemma validated_relative_path_is_sanitized_witness :
  isAbsolute "/home/dev" = true /\
  isValid (validateFilePath (fun _ => false) "src/extension.ts") = true /\
  isAbsolute "src/extension.ts" = false /\
  exists p,
    sanitizeFilePath_posix "/home/dev" "src/extension.ts" "/workspace/teamxray" = Return p
    /\ segments p
       = (segments (resolve "/home/dev" ["/workspace/teamxray"])
          ++ filter (fun seg => negb (String.eqb seg ".")) (segments "src/extension.ts"))%list.
Proof.
  assert (H1 : isAbsolute "/home/dev" = true) by reflexivity.
  assert (H2 : isValid (validateFilePath (fun _ => false) "src/extension.ts") = true)
    by reflexivity.
  assert (H3 : isAbsolute "src/extension.ts" = false) by reflexivity.
  refine (conj H1 (conj H2 (conj H3 _))).
  exact (validated_relative_path_is_sanitized (fun _ => false) "/home/dev"
           "src/extension.ts" "/workspace/teamxray" H1 H2 H3).
Defined.

End SanitizeAccepts.

(* ================================================================== *)
(** * validateGitHubToken *)
(* ================================================================== *)

Section TokenFacts.

Import Validator.

Variable getUser : string -> reply UserPayload.
Variable getRepos : string -> reply unit.
Variable parseInt : string -> number.

Local Abbreviation validate := (validateGitHubToken getUser getRepos parseInt).

(** What the validator knows of a result before the second request: it is
    not valid yet, lists no error, and has no repository access. *)
Local Abbreviation fresh :=
  (fun result : TokenValidationResult =>
     isValid (base result) = false /\ errors (base result) = []
     /\ hasRepoAccess result = false).

Lemma token_catch_result (result : TokenValidationResult) (response : option Z) :
  exists msg, token_catch result response = push_error result msg.
Proof.
  unfold token_catch. destruct response as [status|]; [|eauto].
  destruct (status =? 401)%Z; [eauto|].
  destruct (status =? 403)%Z; [eauto|].
  destruct (status =? 404)%Z; eauto.
Qed.

Lemma unit_reply (status : Z) (payload : unit) :
  Response status payload = Response 200%Z tt <-> status = 200%Z.
Proof.
  destruct payload. split; [intros [= ->]; reflexivity | intros ->; reflexivity].
Qed.

(** The end of the [try] block, by what the second request gives. *)
Lemma repo_block_result (result : TokenValidationResult) (token : string) :
  fresh result ->
  (isValid (base (repo_block getRepos result token)) = true <->
   hasUserAccess result = true /\ getRepos token = Response 200%Z tt)
  /\ (errors (base (repo_block getRepos result token)) = [] <->
      getRepos token = Response 200%Z tt)
  /\ (List.length (errors (base (repo_block getRepos result token))) <= 1)%nat
  /\ hasUserAccess (repo_block getRepos result token) = hasUserAccess result
  /\ (isValid (base (repo_block getRepos result token)) = true ->
      hasRepoAccess (repo_block getRepos result token) = true).
Proof.
  intros [Hvalid [Herr Hrepo]]. unfold repo_block.
  destruct (getRepos token) as [status payload|response].
  - rewrite unit_reply.
    destruct (Z.eqb_spec status 200) as [->|Hs];
      cbn [hasRepoAccess hasUserAccess base isValid errors negb].
    + rewrite andb_true_r, Herr. repeat split; auto; tauto.
    + rewrite Hrepo, andb_false_r.
      cbn [negb push_error hasRepoAccess hasUserAccess base isValid errors].
      rewrite Herr. cbn [app List.length].
      repeat split; try discriminate; try tauto; auto.
  - destruct (token_catch_result result response) as [msg ->].
    cbn [push_error hasRepoAccess hasUserAccess base isValid errors].
    rewrite Hvalid, Herr. cbn [app List.length].
    repeat split; try discriminate; auto. intros [_ H]; discriminate.
Qed.

(** The ways through [validateGitHubToken]: it stops with one error before
    the second request, or goes on to it with a result that has no error
    yet. *)
Lemma validateGitHubToken_cases (token : string) :
  (exists result msg,
      validate token = push_error result msg
      /\ isValid (base result) = false /\ errors (base result) = []
      /\ ((String.length token < 40)%nat
          \/ (exists response, getUser token = Failure response)
          \/ (exists payload,
                 getUser token = Response 200%Z payload /\ data payload = None)))
  \/
  (exists result,
      validate token = repo_block getRepos result token
      /\ fresh result
      /\ (40 <= String.length token)%nat
      /\ ((hasUserAccess result = true
           /\ exists payload user,
               getUser token = Response 200%Z payload /\ data payload = Some user)
          \/ (hasUserAccess result = false
              /\ exists status payload,
                  getUser token = Response status payload /\ status <> 200%Z))).
Proof.
  unfold validateGitHubToken.
  set (initial := {| base := {| isValid := false; errors := []; warnings := [] |};
                     hasRepoAccess := false; hasUserAccess := false;
                     rateLimitRemaining := of_Z 0 |}).
  destruct (String.eqb_spec token EmptyString) as [->|_].
  { left. exists initial. eexists. split; [reflexivity|].
    repeat split. left. cbn. lia. }
  destruct (Nat.ltb_spec (String.length token) 40) as [Hshort|Hlong].
  { left. exists initial. eexists. split; [reflexivity|].
    repeat split. left. exact Hshort. }
  set (result := if negb (startsWith token "ghp_") && negb (startsWith token "github_pat_")
                 then push_warning initial _ else initial).
  assert (Hfresh : fresh result /\ hasUserAccess result = false).
  { unfold result.
    destruct (negb (startsWith token "ghp_") && negb (startsWith token "github_pat_"));
      repeat split. }
  clearbody result. destruct Hfresh as [[Hvalid [Herr Hrepo]] Huser].
  destruct (getUser token) as [status payload|response].
  - destruct (Z.eqb_spec status 200) as [->|Hstatus].
    + unfold user_block. destruct payload as [header [[mail]|]]; cbn [data email].
      * right.
        destruct mail as [[|c mail]|]; cbv beta iota zeta;
          (eexists; split; [reflexivity|]);
          cbn [push_warning base isValid errors hasRepoAccess hasUserAccess];
          (split; [repeat split; assumption|]); (split; [exact Hlong|]);
          left; (split; [reflexivity|]); eexists _, _; split; reflexivity.
      * left. cbv beta iota zeta.
        destruct (token_catch_result
                    {| base := base result; hasRepoAccess := hasRepoAccess result;
                       hasUserAccess := true;
                       rateLimitRemaining :=
                         parseInt (match header with
                                   | Some h => if String.eqb h EmptyString then "0" else h
                                   | None => "0"
                                   end) |} None) as [msg E].
        eexists. exists msg. split; [exact E|].
        cbn [base]. repeat split; try assumption.
        right. right. eexists. split; reflexivity.
    + right. exists result. split; [reflexivity|].
      split; [repeat split; assumption|]. split; [exact Hlong|].
      right. split; [exact Huser|]. eexists _, _. split; [reflexivity | exact Hstatus].
  - left. destruct (token_catch_result result response) as [msg E].
    exists result, msg. split; [exact E|]. repeat split; try assumption.
    right. left. eexists. reflexivity.
Qed.

(** [validateGitHubToken] finds a token valid exactly when it has at least
    40 characters and both requests come back with status 200, the first
    one with data; the prefix of the token plays no part.  A valid result
    lists no error and has both accesses, and no result lists more than one
    error. *)
Theorem validateGitHubToken_valid_iff (token : string) :
  let result := validateGitHubToken getUser getRepos parseInt token in
  (isValid (base result) = true <->
   (40 <= String.length token)%nat
   /\ (exists payload user,
          getUser token = Response 200%Z payload /\ data payload = Some user)
   /\ getRepos token = Response 200%Z tt)
  /\ (isValid (base result) = true ->
      errors (base result) = []
      /\ hasUserAccess result = true /\ hasRepoAccess result = true)
  /\ (List.length (errors (base result)) <= 1)%nat.
Proof.
  cbv zeta.
  destruct (validateGitHubToken_cases token)
    as [[result [msg [-> [Hvalid [Herr Hwhy]]]]]
       |[result [-> [Hfresh [Hlong Huser]]]]].
  - cbn [push_error base isValid errors]. rewrite Hvalid, Herr. cbn [app List.length].
    split; [|split; [discriminate | lia]].
    split; [discriminate|]. intros [Hl [[payload [user [E D]]] _]]. exfalso.
    destruct Hwhy as [H|[[response H]|[payload' [H D']]]];
      [lia | congruence | ].
    rewrite H in E. injection E as <-. congruence.
  - destruct (@repo_block_result result token Hfresh) as [H1 [H2 [H3 [H4 H5]]]].
    split; [|split; [|exact H3]].
    + rewrite H1. split.
      * intros [Hu Hr]. split; [exact Hlong|]. split; [|exact Hr].
        destruct Huser as [[_ H]|[H _]]; [exact H | congruence].
      * intros [_ [[payload [user [E D]]] Hr]]. split; [|exact Hr].
        destruct Huser as [[H _]|[_ [status [payload' [H Hs]]]]]; [exact H|].
        rewrite H in E. injection E as -> _. congruence.
    + intros Hv. split; [apply H2, H1, Hv|]. split; [|apply H5, Hv].
      rewrite H4. apply H1, Hv.
Qed.

(** The result that is neither valid nor explained: [validateGitHubToken]
    returns an invalid result with no error exactly when the token has at
    least 40 characters, the first request comes back with a status other
    than 200 and the second one with status 200. *)
Theorem validateGitHubToken_silent_failure (token : string) :
  let result := validateGitHubToken getUser getRepos parseInt token in
  isValid (base result) = false /\ errors (base result) = []
  <->
  (40 <= String.length token)%nat
  /\ (exists status payload,
         getUser token = Response status payload /\ status <> 200%Z)
  /\ getRepos token = Response 200%Z tt.
Proof.
  cbv zeta.
  destruct (validateGitHubToken_cases token)
    as [[result [msg [-> [Hvalid [Herr Hwhy]]]]]
       |[result [-> [Hfresh [Hlong Huser]]]]].
  - cbn [push_error base isValid errors]. rewrite Herr. cbn [app].
    split; [intros [_ H]; discriminate|].
    intros [Hl [[status [payload [E Hs]]] _]]. exfalso.
    destruct Hwhy as [H|[[response H]|[payload' [H D']]]];
      [lia | congruence | ].
    rewrite H in E. injection E as <- _. congruence.
  - destruct (@repo_block_result result token Hfresh) as [H1 [H2 [H3 [H4 H5]]]].
    rewrite H2. split.
    + intros [Hv Hr]. split; [exact Hlong|]. split; [|exact Hr].
      destruct Huser as [[Hu _]|[_ H]]; [|exact H].
      exfalso. assert (Ht : isValid (base (repo_block getRepos result token)) = true)
        by (apply H1; split; assumption).
      congruence.
    + intros [_ [[status [payload [E Hs]]] Hr]]. split; [|exact Hr].
      assert (Hn : isValid (base (repo_block getRepos result token)) <> true).
      { intros Hv. apply H1 in Hv. destruct Hv as [Hu _].
        destruct Huser as [[_ [payload' [user [H _]]]]|[H _]]; [|congruence].
        rewrite H in E. injection E as <- _. congruence. }
      destruct (isValid (base (repo_block getRepos result token)));
        [congruence | reflexivity].
Qed.

End TokenFacts.
